(** * AxolotlSD: the AXSD song decoder and the mixing player

    A shallow embedding of [src/src/axolotlsd.cpp] and
    [src/include/axolotlsd.hpp].

    Conventions.
    - [U8], [U16], [U32] and [S32] values are [Z]; where the C++ arithmetic
      can wrap, the wrap-around is written out ([wrap32], [wrap16]).
    - [F32] values are IEEE-754 binary32 numbers, taken from the Standard
      Library's [SpecFloat] at precision 24 and maximal exponent 128, with
      round-to-nearest-even and no fused operations.  [std::pow] is not
      specified bit for bit by any standard, so it is a parameter of the
      development ([powf]).
    - C++ exceptions and undefined behaviour are results of type [outcome]:
      [Throw] for an exception that leaves the function, [Undefined] for an
      execution the language gives no meaning to (out-of-bounds [operator[]],
      null dereference, integer division by zero, a float-to-integer cast
      whose value does not fit). *)

From Stdlib Require Import ZArith Lia Bool List String Floats.SpecFloat.
From stdpp Require Import base option list gmap.

Local Open Scope Z_scope.

(** ** Machine integers *)

Definition wrap16 (n : Z) : Z := n mod 2 ^ 16.
Definition wrap32 (n : Z) : Z := n mod 2 ^ 32.

(** [(b0 << 0) | (b1 << 8) | (b2 << 16) | (b3 << 24)] on [U32] operands. *)
Definition le32 (b0 b1 b2 b3 : Z) : Z :=
  wrap32 (Z.lor (Z.lor (Z.lor (Z.shiftl b0 0) (Z.shiftl b1 8))
                       (Z.shiftl b2 16)) (Z.shiftl b3 24)).

(** [(v0 << 0) | (v1 << 8)], assigned to a [U16]. *)
Definition le16 (b0 b1 : Z) : Z :=
  wrap16 (Z.lor (Z.shiftl b0 0) (Z.shiftl b1 8)).

(** [std::bit_cast<S32>] of a [U32]. *)
Definition bit_cast_S32 (w : Z) : Z :=
  if w <? 2 ^ 31 then w else w - 2 ^ 32.

(** ** Outcomes: values, exceptions, undefined behaviour *)

Inductive exception : Type :=
| out_of_range
| runtime_error (what : string).

Inductive undefined : Type :=
| ub_index          (* operator[] past the end of an array or vector *)
| ub_null           (* dereference of an empty unique_ptr *)
| ub_div_zero       (* integer % by zero *)
| ub_float_cast.    (* static_cast<U32> of a float that does not fit *)

Inductive outcome (A : Type) : Type :=
| Ok (a : A)
| Throw (e : exception)
| Undefined (u : undefined).
Arguments Ok {A} a.
Arguments Throw {A} e.
Arguments Undefined {A} u.

Definition outcome_bind {A B} (f : A -> outcome B) (m : outcome A)
  : outcome B :=
  match m with
  | Ok a => f a
  | Throw e => Throw e
  | Undefined u => Undefined u
  end.

#[global] Instance outcome_ret : MRet outcome := fun _ a => Ok a.
#[global] Instance outcome_mbind : MBind outcome := fun _ _ f m => outcome_bind f m.

(** ** binary32 and binary64 arithmetic *)

Definition F32 : Type := spec_float.
Definition F64 : Type := spec_float.

Definition f32_zero : F32 := S754_zero false.
Definition f32_nan : F32 := S754_nan.
Definition f32_of_Z (n : Z) : F32 := binary_normalize 24 128 n 0 false.
Definition f32_add : F32 -> F32 -> F32 := SFadd 24 128.
Definition f32_sub : F32 -> F32 -> F32 := SFsub 24 128.
Definition f32_mul : F32 -> F32 -> F32 := SFmul 24 128.
Definition f32_div : F32 -> F32 -> F32 := SFdiv 24 128.
Definition f32_ltb : F32 -> F32 -> bool := SFltb.
Definition f32_leb : F32 -> F32 -> bool := SFleb.

Definition is_nan (x : spec_float) : bool :=
  match x with S754_nan => true | _ => false end.

Definition is_finite (x : spec_float) : bool :=
  match x with S754_zero _ | S754_finite _ _ _ => true | _ => false end.

Definition is_zero (x : spec_float) : bool :=
  match x with S754_zero _ => true | _ => false end.

(** [std::bit_cast<F32>] of a [U32]: sign bit 31, exponent bits 30..23,
    fraction bits 22..0. *)
Definition bit_cast_F32 (w : Z) : F32 :=
  let s := Z.testbit w 31 in
  let e := Z.land (Z.shiftr w 23) 255 in
  let f := Z.land w (2 ^ 23 - 1) in
  if e =? 0 then
    match f with
    | Zpos m => S754_finite s m (-149)
    | _ => S754_zero s
    end
  else if e =? 255 then
    (if f =? 0 then S754_infinity s else S754_nan)
  else
    match f + 2 ^ 23 with
    | Zpos m => S754_finite s m (e - 150)
    | _ => S754_nan
    end.

(** [std::floor] on a float. *)
Definition f32_floor (x : F32) : F32 :=
  match x with
  | S754_finite s m e =>
      if 0 <=? e then x
      else
        let q := Z.shiftr (Zpos m) (- e) in
        if s then
          let n := if Z.shiftl q (- e) =? Zpos m then q else q + 1 in
          binary_normalize 24 128 (- n) 0 true
        else binary_normalize 24 128 q 0 false
  | _ => x
  end.

(** [static_cast<U32>] of a float: the value is truncated toward zero; the
    behaviour is undefined when the truncated value is not a [U32]. *)
Definition f32_to_u32 (x : F32) : outcome Z :=
  match x with
  | S754_zero _ => Ok 0
  | S754_finite s m e =>
      let t := if 0 <=? e then Z.shiftl (Zpos m) e
               else Z.shiftr (Zpos m) (- e) in
      if s then (if t =? 0 then Ok 0 else Undefined ub_float_cast)
      else if t <? 2 ^ 32 then Ok t else Undefined ub_float_cast
  | _ => Undefined ub_float_cast
  end.

(** [std::fmod]: the exact remainder of the truncating division, with the
    sign of the dividend. *)
Definition f32_fmod (x y : F32) : F32 :=
  match x, y with
  | S754_nan, _ | _, S754_nan => S754_nan
  | S754_infinity _, _ => S754_nan
  | _, S754_zero _ => S754_nan
  | S754_zero _, _ => x
  | _, S754_infinity _ => x
  | S754_finite sx mx ex, S754_finite _ my ey =>
      let e := Z.min ex ey in
      let r := (Z.shiftl (Zpos mx) (ex - e)) mod (Z.shiftl (Zpos my) (ey - e)) in
      binary_normalize 24 128 (cond_Zopp sx r) e sx
  end.

(** [std::clamp(v, lo, hi)]. *)
Definition f32_clamp (v lo hi : F32) : F32 :=
  if f32_ltb v lo then lo else if f32_ltb hi v then hi else v.

(** Conversions between float and double, and the double product. *)
Definition f64_of_f32 (x : F32) : F64 :=
  match x with
  | S754_finite s m e => binary_normalize 53 1024 (cond_Zopp s (Zpos m)) e s
  | _ => x
  end.

Definition f32_of_f64 (x : F64) : F32 :=
  match x with
  | S754_finite s m e => binary_normalize 24 128 (cond_Zopp s (Zpos m)) e s
  | _ => x
  end.

Definition f64_mul : F64 -> F64 -> F64 := SFmul 53 1024.

(** [std::numbers::pi], a double: 0x400921FB54442D18. *)
Definition pi_f64 : F64 := S754_finite false 7074237752028440 (-51).

Definition in_unit_range (x : F32) : bool :=
  f32_leb (f32_of_Z (-1)) x && f32_leb x (f32_of_Z 1).

(** ** Data model (axolotlsd.hpp) *)

(** [enum class command_type : U8]: the tag bytes.  The enumeration is
    scoped, so its enumerators live in a module of their own. *)
Module command_type.

Inductive t : Type :=
| note_on | note_off | pitchwheel | program_change
| patch_data | drum_data
| version | rate | end_of_track.

(** [static_cast<command_type>(data_byte)], restricted to the enumerators;
    any other byte is a value of the enumeration that names no command. *)
Definition of_byte (b : Z) : option t :=
  if b =? 0x01 then Some note_on
  else if b =? 0x02 then Some note_off
  else if b =? 0x03 then Some pitchwheel
  else if b =? 0x04 then Some program_change
  else if b =? 0x80 then Some patch_data
  else if b =? 0x81 then Some drum_data
  else if b =? 0xFC then Some version
  else if b =? 0xFD then Some rate
  else if b =? 0xFE then Some end_of_track
  else None.

End command_type.

(** The [command] class hierarchy as a tagged union. *)
Inductive command : Type :=
| command_note_on (channel note velocity : Z)
| command_note_off (channel : Z)
| command_pitchwheel (channel : Z) (bend : Z)
| command_program_change (channel program : Z)
| command_patch_data
| command_drum_data
| command_version (song_version : Z)
| command_rate (song_rate : Z)
| command_end_of_track.

Definition get_type (c : command) : command_type.t :=
  match c with
  | command_note_on _ _ _ => command_type.note_on
  | command_note_off _ => command_type.note_off
  | command_pitchwheel _ _ => command_type.pitchwheel
  | command_program_change _ _ => command_type.program_change
  | command_patch_data => command_type.patch_data
  | command_drum_data => command_type.drum_data
  | command_version _ => command_type.version
  | command_rate _ => command_type.rate
  | command_end_of_track => command_type.end_of_track
  end.

Record patch_base_t : Type := {
  waveform : list Z;
  ratio : F32;
  gain_L : F32;
  gain_R : F32
}.

(** [patch_t : patch_base_t] adds the loop points. *)
Record patch_t : Type := {
  patch_base : patch_base_t;
  loop_start : Z;
  loop_end : Z
}.

(** [drum_t : patch_base_t] adds nothing. *)
Abbreviation drum_t := patch_base_t (only parsing).

Record voice_single : Type := {
  velocity : F32;
  phase_add_by : F32;
  note : Z;
  phase : F32;
  key : bool;
  active : bool
}.

(** [voice_group] and [drum_group], the two classes derived from
    [voice_group_base]. *)
Inductive voice_group_base : Type :=
| voice_group (voices : list voice_single) (bend : F32)
| drum_group (voices : list voice_single).

Definition is_drum_kit (g : voice_group_base) : bool :=
  match g with voice_group _ _ => false | drum_group _ => true end.

Definition voices (g : voice_group_base) : list voice_single :=
  match g with voice_group vs _ => vs | drum_group vs => vs end.

Definition set_voices (g : voice_group_base) (vs : list voice_single)
  : voice_group_base :=
  match g with
  | voice_group _ b => voice_group vs b
  | drum_group _ => drum_group vs
  end.

(** [std::multimap<song_tick_t, ...>]: the entries in key order, entries of
    one key in insertion order. *)
Definition multimap (V : Type) : Type := list (Z * V).

Record song : Type := {
  version : Z;
  ticks_end : Z;
  ticks_per_second : Z;
  commands : multimap command;
  patches : gmap Z patch_t;
  drums : gmap Z drum_t
}.

Record environment : Type := {
  feedback_L : F32;
  feedback_R : F32;
  wet_L : F32;
  wet_R : F32;
  cursor_increment : Z;
  cursor_max : Z
}.

Record player : Type := {
  seconds_elapsed : F32;
  seconds_end : F32;
  frequency : F32;
  max_voices : Z;
  on_voices : Z;
  echo_buffer_L : gmap Z F32;
  echo_buffer_R : gmap Z F32;
  echo_cursor : Z;
  env_params : option environment;
  cursor : Z;
  last_cursor : option Z;
  current : song;
  in_stereo : bool;
  channels : list (option voice_group_base);
  patch_ids : list (option Z);
  playback : bool
}.

(** ** Containers *)

Section Multimap.
Context {V : Type}.

(** [emplace]: the new entry goes to the upper bound of its key. *)
Fixpoint emplace (k : Z) (v : V) (m : multimap V) : multimap V :=
  match m with
  | [] => [(k, v)]
  | (k', v') :: rest =>
      if k <? k' then (k, v) :: m else (k', v') :: emplace k v rest
  end.

Fixpoint lower_bound (k : Z) (m : multimap V) : multimap V :=
  match m with
  | [] => []
  | (k', v') :: rest => if k' <? k then lower_bound k rest else m
  end.

(** The entries from a position up to the [upper_bound] of [k]. *)
Fixpoint up_to_upper_bound (k : Z) (m : multimap V) : multimap V :=
  match m with
  | [] => []
  | (k', v') :: rest =>
      if k <? k' then [] else (k', v') :: up_to_upper_bound k rest
  end.

(** [equal_range(k)]: the entries in [lower_bound(k), upper_bound(k)). *)
Definition equal_range (k : Z) (m : multimap V) : multimap V :=
  up_to_upper_bound k (lower_bound k m).

Fixpoint sorted_keys (m : multimap V) : Prop :=
  match m with
  | [] => True
  | (k, _) :: rest => Forall (fun e => k <= fst e) rest /\ sorted_keys rest
  end.
End Multimap.

(** [std::map::insert]: an existing entry is kept. *)
Definition map_insert {V} (k : Z) (v : V) (m : gmap Z V) : gmap Z V :=
  match m !! k with
  | Some _ => m
  | None => <[k := v]> m
  end.

(** [std::map::at]. *)
Definition map_at {V} (m : gmap Z V) (k : Z) : outcome V :=
  match m !! k with
  | Some v => Ok v
  | None => Throw out_of_range
  end.

(** [std::vector::at] and [std::array::at]. *)
Definition vector_at {A} (v : list A) (i : Z) : outcome A :=
  if (0 <=? i) && (i <? Z.of_nat (length v)) then
    match v !! Z.to_nat i with
    | Some a => Ok a
    | None => Throw out_of_range
    end
  else Throw out_of_range.

(** [operator[]] for reading. *)
Definition index {A} (v : list A) (i : Z) : outcome A :=
  if (0 <=? i) && (i <? Z.of_nat (length v)) then
    match v !! Z.to_nat i with
    | Some a => Ok a
    | None => Undefined ub_index
    end
  else Undefined ub_index.

(** [operator[]] for writing. *)
Definition index_set {A} (v : list A) (i : Z) (a : A) : outcome (list A) :=
  if (0 <=? i) && (i <? Z.of_nat (length v)) then Ok (<[Z.to_nat i := a]> v)
  else Undefined ub_index.

(** The two echo arrays, [F32 echo_buffer[65535]{0.0f}], are kept as the
    finite map of the slots that have been written: a slot that was never
    written holds 0.0f.  [echo_index] is [operator[]] on such an array. *)
Definition ECHO_SIZE : Z := 65535.

Definition echo_index (buffer : gmap Z F32) (i : Z) : outcome F32 :=
  if (0 <=? i) && (i <? ECHO_SIZE) then Ok (default f32_zero (buffer !! i))
  else Undefined ub_index.

(** Dereference of a [unique_ptr]. *)
Definition deref {A} (p : option A) : outcome A :=
  match p with
  | Some a => Ok a
  | None => Undefined ub_null
  end.

(** ** Field updates *)

Definition set_version (s : song) (v : Z) : song :=
  {| version := v; ticks_end := ticks_end s;
     ticks_per_second := ticks_per_second s; commands := commands s;
     patches := patches s; drums := drums s |}.

Definition set_ticks_end (s : song) (t : Z) : song :=
  {| version := version s; ticks_end := t;
     ticks_per_second := ticks_per_second s; commands := commands s;
     patches := patches s; drums := drums s |}.

Definition set_ticks_per_second (s : song) (r : Z) : song :=
  {| version := version s; ticks_end := ticks_end s;
     ticks_per_second := r; commands := commands s;
     patches := patches s; drums := drums s |}.

Definition set_commands (s : song) (c : multimap command) : song :=
  {| version := version s; ticks_end := ticks_end s;
     ticks_per_second := ticks_per_second s; commands := c;
     patches := patches s; drums := drums s |}.

Definition set_patches (s : song) (m : gmap Z patch_t) : song :=
  {| version := version s; ticks_end := ticks_end s;
     ticks_per_second := ticks_per_second s; commands := commands s;
     patches := m; drums := drums s |}.

Definition set_drums (s : song) (m : gmap Z drum_t) : song :=
  {| version := version s; ticks_end := ticks_end s;
     ticks_per_second := ticks_per_second s; commands := commands s;
     patches := patches s; drums := m |}.

Definition set_seconds_elapsed (p : player) (x : F32) : player :=
  {| seconds_elapsed := x; seconds_end := seconds_end p;
     frequency := frequency p; max_voices := max_voices p;
     on_voices := on_voices p; echo_buffer_L := echo_buffer_L p;
     echo_buffer_R := echo_buffer_R p; echo_cursor := echo_cursor p;
     env_params := env_params p; cursor := cursor p;
     last_cursor := last_cursor p; current := current p;
     in_stereo := in_stereo p; channels := channels p;
     patch_ids := patch_ids p; playback := playback p |}.

Definition set_seconds_end (p : player) (x : F32) : player :=
  {| seconds_elapsed := seconds_elapsed p; seconds_end := x;
     frequency := frequency p; max_voices := max_voices p;
     on_voices := on_voices p; echo_buffer_L := echo_buffer_L p;
     echo_buffer_R := echo_buffer_R p; echo_cursor := echo_cursor p;
     env_params := env_params p; cursor := cursor p;
     last_cursor := last_cursor p; current := current p;
     in_stereo := in_stereo p; channels := channels p;
     patch_ids := patch_ids p; playback := playback p |}.

Definition set_on_voices (p : player) (x : Z) : player :=
  {| seconds_elapsed := seconds_elapsed p; seconds_end := seconds_end p;
     frequency := frequency p; max_voices := max_voices p; on_voices := x;
     echo_buffer_L := echo_buffer_L p; echo_buffer_R := echo_buffer_R p;
     echo_cursor := echo_cursor p; env_params := env_params p;
     cursor := cursor p; last_cursor := last_cursor p; current := current p;
     in_stereo := in_stereo p; channels := channels p;
     patch_ids := patch_ids p; playback := playback p |}.

Definition set_echo_buffer_L (p : player) (x : gmap Z F32) : player :=
  {| seconds_elapsed := seconds_elapsed p; seconds_end := seconds_end p;
     frequency := frequency p; max_voices := max_voices p;
     on_voices := on_voices p; echo_buffer_L := x;
     echo_buffer_R := echo_buffer_R p; echo_cursor := echo_cursor p;
     env_params := env_params p; cursor := cursor p;
     last_cursor := last_cursor p; current := current p;
     in_stereo := in_stereo p; channels := channels p;
     patch_ids := patch_ids p; playback := playback p |}.

Definition set_echo_buffer_R (p : player) (x : gmap Z F32) : player :=
  {| seconds_elapsed := seconds_elapsed p; seconds_end := seconds_end p;
     frequency := frequency p; max_voices := max_voices p;
     on_voices := on_voices p; echo_buffer_L := echo_buffer_L p;
     echo_buffer_R := x; echo_cursor := echo_cursor p;
     env_params := env_params p; cursor := cursor p;
     last_cursor := last_cursor p; current := current p;
     in_stereo := in_stereo p; channels := channels p;
     patch_ids := patch_ids p; playback := playback p |}.

Definition set_echo_cursor (p : player) (x : Z) : player :=
  {| seconds_elapsed := seconds_elapsed p; seconds_end := seconds_end p;
     frequency := frequency p; max_voices := max_voices p;
     on_voices := on_voices p; echo_buffer_L := echo_buffer_L p;
     echo_buffer_R := echo_buffer_R p; echo_cursor := x;
     env_params := env_params p; cursor := cursor p;
     last_cursor := last_cursor p; current := current p;
     in_stereo := in_stereo p; channels := channels p;
     patch_ids := patch_ids p; playback := playback p |}.

Definition set_env_params (p : player) (x : option environment) : player :=
  {| seconds_elapsed := seconds_elapsed p; seconds_end := seconds_end p;
     frequency := frequency p; max_voices := max_voices p;
     on_voices := on_voices p; echo_buffer_L := echo_buffer_L p;
     echo_buffer_R := echo_buffer_R p; echo_cursor := echo_cursor p;
     env_params := x; cursor := cursor p; last_cursor := last_cursor p;
     current := current p; in_stereo := in_stereo p; channels := channels p;
     patch_ids := patch_ids p; playback := playback p |}.

Definition set_cursor (p : player) (x : Z) : player :=
  {| seconds_elapsed := seconds_elapsed p; seconds_end := seconds_end p;
     frequency := frequency p; max_voices := max_voices p;
     on_voices := on_voices p; echo_buffer_L := echo_buffer_L p;
     echo_buffer_R := echo_buffer_R p; echo_cursor := echo_cursor p;
     env_params := env_params p; cursor := x; last_cursor := last_cursor p;
     current := current p; in_stereo := in_stereo p; channels := channels p;
     patch_ids := patch_ids p; playback := playback p |}.

Definition set_last_cursor (p : player) (x : option Z) : player :=
  {| seconds_elapsed := seconds_elapsed p; seconds_end := seconds_end p;
     frequency := frequency p; max_voices := max_voices p;
     on_voices := on_voices p; echo_buffer_L := echo_buffer_L p;
     echo_buffer_R := echo_buffer_R p; echo_cursor := echo_cursor p;
     env_params := env_params p; cursor := cursor p; last_cursor := x;
     current := current p; in_stereo := in_stereo p; channels := channels p;
     patch_ids := patch_ids p; playback := playback p |}.

Definition set_current (p : player) (x : song) : player :=
  {| seconds_elapsed := seconds_elapsed p; seconds_end := seconds_end p;
     frequency := frequency p; max_voices := max_voices p;
     on_voices := on_voices p; echo_buffer_L := echo_buffer_L p;
     echo_buffer_R := echo_buffer_R p; echo_cursor := echo_cursor p;
     env_params := env_params p; cursor := cursor p;
     last_cursor := last_cursor p; current := x; in_stereo := in_stereo p;
     channels := channels p; patch_ids := patch_ids p;
     playback := playback p |}.

Definition set_channels (p : player) (x : list (option voice_group_base)) : player :=
  {| seconds_elapsed := seconds_elapsed p; seconds_end := seconds_end p;
     frequency := frequency p; max_voices := max_voices p;
     on_voices := on_voices p; echo_buffer_L := echo_buffer_L p;
     echo_buffer_R := echo_buffer_R p; echo_cursor := echo_cursor p;
     env_params := env_params p; cursor := cursor p;
     last_cursor := last_cursor p; current := current p;
     in_stereo := in_stereo p; channels := x; patch_ids := patch_ids p;
     playback := playback p |}.

Definition set_patch_ids (p : player) (x : list (option Z)) : player :=
  {| seconds_elapsed := seconds_elapsed p; seconds_end := seconds_end p;
     frequency := frequency p; max_voices := max_voices p;
     on_voices := on_voices p; echo_buffer_L := echo_buffer_L p;
     echo_buffer_R := echo_buffer_R p; echo_cursor := echo_cursor p;
     env_params := env_params p; cursor := cursor p;
     last_cursor := last_cursor p; current := current p;
     in_stereo := in_stereo p; channels := channels p; patch_ids := x;
     playback := playback p |}.

Definition set_playback (p : player) (x : bool) : player :=
  {| seconds_elapsed := seconds_elapsed p; seconds_end := seconds_end p;
     frequency := frequency p; max_voices := max_voices p;
     on_voices := on_voices p; echo_buffer_L := echo_buffer_L p;
     echo_buffer_R := echo_buffer_R p; echo_cursor := echo_cursor p;
     env_params := env_params p; cursor := cursor p;
     last_cursor := last_cursor p; current := current p;
     in_stereo := in_stereo p; channels := channels p;
     patch_ids := patch_ids p; playback := x |}.

Definition set_in_stereo (p : player) (x : bool) : player :=
  {| seconds_elapsed := seconds_elapsed p; seconds_end := seconds_end p;
     frequency := frequency p; max_voices := max_voices p;
     on_voices := on_voices p; echo_buffer_L := echo_buffer_L p;
     echo_buffer_R := echo_buffer_R p; echo_cursor := echo_cursor p;
     env_params := env_params p; cursor := cursor p;
     last_cursor := last_cursor p; current := current p;
     in_stereo := x; channels := channels p;
     patch_ids := patch_ids p; playback := playback p |}.

Definition set_phase_add_by (v : voice_single) (x : F32) : voice_single :=
  {| velocity := velocity v; phase_add_by := x; note := note v;
     phase := phase v; key := key v; active := active v |}.

Definition set_phase (v : voice_single) (x : F32) : voice_single :=
  {| velocity := velocity v; phase_add_by := phase_add_by v; note := note v;
     phase := x; key := key v; active := active v |}.

Definition set_key (v : voice_single) (x : bool) : voice_single :=
  {| velocity := velocity v; phase_add_by := phase_add_by v; note := note v;
     phase := phase v; key := x; active := active v |}.

Definition set_active (v : voice_single) (x : bool) : voice_single :=
  {| velocity := velocity v; phase_add_by := phase_add_by v; note := note v;
     phase := phase v; key := key v; active := x |}.

(** ** The decoder: [song::load] *)

Definition MAGIC : Z := 0x41585344.
Definition CURRENT_VERSION : Z := 0x0003.
Definition A440 : F32 := f32_of_Z 440.

(** The table [byte_sizes]: the payload length of each command. *)
Definition byte_sizes (c : command_type.t) : Z :=
  match c with
  | command_type.note_on => 4 + 1 * 3
  | command_type.note_off => 4 + 1 * 1
  | command_type.pitchwheel => 4 + 1 * 1 + 4
  | command_type.program_change => 4 + 1 * 2
  | command_type.patch_data => 1 + 4 + 4 + 4 + 4 * 3
  | command_type.drum_data => 1 + 4 + 4 * 3
  | command_type.version => 2
  | command_type.rate => 4
  | command_type.end_of_track => 4
  end.

(** [byte_sizes.at(static_cast<command_type>(data_byte))]. *)
Definition byte_sizes_at (data_byte : Z) : outcome (command_type.t * Z) :=
  match command_type.of_byte data_byte with
  | Some c => Ok (c, byte_sizes c)
  | None => Throw out_of_range
  end.

(** [n] rounds of [where++; data.at(where)]: the bytes read, in reading
    order, and the final [where].  The payload loop and the two waveform
    loops ([data.at(++where)]) are this function. *)
Fixpoint read_bytes (n : nat) (data : list Z) (where_ : Z)
  : outcome (Z * list Z) :=
  match n with
  | O => Ok (where_, [])
  | S n' =>
      b ← vector_at data (where_ + 1);
      '(w, bs) ← read_bytes n' data (where_ + 1);
      Ok (w, b :: bs)
  end.

(** [continue_data.front()] followed by [pop_front()]. *)
Definition pop_u8 (continue_data : list Z) : Z * list Z :=
  (hd 0 continue_data, tl continue_data).

(** Four rounds of [front()] and [pop_front()], assembled little-endian. *)
Definition pop_u32 (continue_data : list Z) : Z * list Z :=
  (le32 (nth 0 continue_data 0) (nth 1 continue_data 0)
        (nth 2 continue_data 0) (nth 3 continue_data 0),
   drop 4 continue_data).

Definition pop_u16 (continue_data : list Z) : Z * list Z :=
  (le16 (nth 0 continue_data 0) (nth 1 continue_data 0),
   drop 2 continue_data).

(** [song{}]: the scalar members are value-initialised. *)
Definition song_empty : song :=
  {| version := 0; ticks_end := 0; ticks_per_second := 0;
     commands := []; patches := ∅; drums := ∅ |}.

(** One round of the [while (where < end)] loop.  [continue_data] is empty
    at the start of every round, since each case pops exactly the bytes that
    [byte_sizes] made the round read; it is a local of the round here.  A
    waveform longer than the rest of the buffer ends in the
    [std::out_of_range] of the first missing byte. *)
Definition load_command (data : list Z) (where_ : Z) (the_song : song)
  : outcome (Z * song) :=
  data_byte ← vector_at data where_;
  '(what_value, continue_for) ← byte_sizes_at data_byte;
  '(where_, continue_data) ← read_bytes (Z.to_nat continue_for) data where_;
  '(where_, the_song) ←
    match what_value with
    | command_type.drum_data =>
        let '(drum, continue_data) := pop_u8 continue_data in
        let '(width_calc, continue_data) := pop_u32 continue_data in
        let '(ratio_bits, continue_data) := pop_u32 continue_data in
        let '(gainL_bits, continue_data) := pop_u32 continue_data in
        let '(gainR_bits, continue_data) := pop_u32 continue_data in
        '(where_, wave) ← read_bytes (Z.to_nat width_calc) data where_;
        let drum_data :=
          {| waveform := wave; ratio := bit_cast_F32 ratio_bits;
             gain_L := bit_cast_F32 gainL_bits;
             gain_R := bit_cast_F32 gainR_bits |} in
        let the_song := set_drums the_song (map_insert drum drum_data (drums the_song)) in
        Ok (where_, set_commands the_song (emplace 0 command_drum_data (commands the_song)))
    | command_type.patch_data =>
        let '(patch, continue_data) := pop_u8 continue_data in
        let '(width_calc, continue_data) := pop_u32 continue_data in
        let '(start_calc, continue_data) := pop_u32 continue_data in
        let '(end_calc, continue_data) := pop_u32 continue_data in
        let '(ratio_bits, continue_data) := pop_u32 continue_data in
        let '(gainL_bits, continue_data) := pop_u32 continue_data in
        let '(gainR_bits, continue_data) := pop_u32 continue_data in
        '(where_, wave) ← read_bytes (Z.to_nat width_calc) data where_;
        let patch_data :=
          {| patch_base :=
               {| waveform := wave; ratio := bit_cast_F32 ratio_bits;
                  gain_L := bit_cast_F32 gainL_bits;
                  gain_R := bit_cast_F32 gainR_bits |};
             loop_start := start_calc; loop_end := end_calc |} in
        let the_song := set_patches the_song (map_insert patch patch_data (patches the_song)) in
        Ok (where_, set_commands the_song (emplace 0 command_patch_data (commands the_song)))
    | command_type.note_on =>
        let '(time, continue_data) := pop_u32 continue_data in
        let '(channel, continue_data) := pop_u8 continue_data in
        let '(note, continue_data) := pop_u8 continue_data in
        let '(velocity, continue_data) := pop_u8 continue_data in
        Ok (where_, set_commands the_song
                     (emplace time (command_note_on channel note velocity)
                              (commands the_song)))
    | command_type.note_off =>
        let '(time, continue_data) := pop_u32 continue_data in
        let '(channel, continue_data) := pop_u8 continue_data in
        Ok (where_, set_commands the_song
                     (emplace time (command_note_off channel)
                              (commands the_song)))
    | command_type.pitchwheel =>
        let '(time, continue_data) := pop_u32 continue_data in
        let '(channel, continue_data) := pop_u8 continue_data in
        let '(bend, continue_data) := pop_u32 continue_data in
        Ok (where_, set_commands the_song
                     (emplace time (command_pitchwheel channel (bit_cast_S32 bend))
                              (commands the_song)))
    | command_type.program_change =>
        let '(time, continue_data) := pop_u32 continue_data in
        let '(channel, continue_data) := pop_u8 continue_data in
        let '(program, continue_data) := pop_u8 continue_data in
        Ok (where_, set_commands the_song
                     (emplace time (command_program_change channel program)
                              (commands the_song)))
    | command_type.version =>
        let '(song_version, continue_data) := pop_u16 continue_data in
        let the_song := set_version the_song song_version in
        Ok (where_, set_commands the_song
                     (emplace 0 (command_version song_version)
                              (commands the_song)))
    | command_type.rate =>
        let '(song_rate, continue_data) := pop_u32 continue_data in
        let the_song := set_ticks_per_second the_song song_rate in
        Ok (where_, set_commands the_song
                     (emplace 0 (command_rate song_rate) (commands the_song)))
    | command_type.end_of_track =>
        let '(time, continue_data) := pop_u32 continue_data in
        let the_song :=
          set_commands the_song
            (emplace (ticks_end the_song) command_end_of_track
                     (commands the_song)) in
        Ok (where_, set_ticks_end the_song time)
    end;
  Ok (where_ + 1, the_song).

(** The [while (where < end)] loop.  Every round moves [where] forward, so
    [fuel = data.size()] rounds are enough ([load_loop_fuel]). *)
Fixpoint load_loop (fuel : nat) (data : list Z) (where_ : Z) (the_song : song)
  : outcome song :=
  match fuel with
  | O => Ok the_song
  | S fuel' =>
      if where_ <? Z.of_nat (length data) then
        '(where', the_song') ← load_command data where_ the_song;
        load_loop fuel' data where' the_song'
      else Ok the_song
  end.

Definition load (data : list Z) : outcome song :=
  m0 ← index data 0;
  m1 ← index data 1;
  m2 ← index data 2;
  m3 ← index data 3;
  let magic_concat :=
    wrap32 (Z.lor (Z.lor (Z.lor (Z.shiftl m3 0) (Z.shiftl m2 8))
                         (Z.shiftl m1 16)) (Z.shiftl m0 24)) in
  if negb (magic_concat =? MAGIC) then
    Throw (runtime_error "First 4 bytes of this song are not 'AXSD'!")
  else load_loop (length data) data 4 song_empty.

(** [song::load_xxd_format]: the bytes are copied into a vector. *)
Definition load_xxd_format (data : list Z) (len : Z) : outcome song :=
  load (take (Z.to_nat len) data).

(** ** The player *)

(** [player::player(count, freq, stereo)].  [seconds_end] and the scalar
    members of [current] are left uninitialised by the constructor; the
    values they happen to hold are the last two arguments. *)
Definition player_new (count freq : Z) (stereo : bool)
    (seconds_end0 : F32) (current0 : song) : player :=
  {| seconds_elapsed := f32_zero;
     seconds_end := seconds_end0;
     frequency := f32_div (f32_of_Z 1) (f32_of_Z freq);
     max_voices := count;
     on_voices := 0;
     echo_buffer_L := ∅;
     echo_buffer_R := ∅;
     echo_cursor := 0;
     env_params := None;
     cursor := 0;
     last_cursor := None;
     current := current0;
     in_stereo := stereo;
     channels := replicate 16 None;
     patch_ids := replicate 16 None;
     playback := false |}.

(** The sixteen groups that [play] installs: a [drum_group] in slot 9, a
    [voice_group] with [bend = 0.0f] in every other slot. *)
Definition fresh_channels : list (option voice_group_base) :=
  map (fun i : Z => Some (if i =? 9 then drum_group []
                          else voice_group [] f32_zero))
      (seqZ 0 16).

(** [player::play].  The player is returned together with the outcome, since
    the exception leaves the members written so far in place. *)
Definition play (p : player) (next : song) (env : option environment)
  : player * outcome unit :=
  let p := set_env_params p env in
  let p := set_current p next in
  let p := set_channels p fresh_channels in
  let p := set_patch_ids p (replicate 16 None) in
  let p := set_seconds_elapsed p f32_zero in
  let p := set_seconds_end p
             (f32_div (f32_of_Z (ticks_end (current p)))
                      (f32_of_Z (ticks_per_second (current p)))) in
  if negb (version (current p) =? CURRENT_VERSION) then
    (p, Throw (runtime_error "Version mismatch in wanted song"))
  else
    let p := set_on_voices p 0 in
    let p := set_cursor p 0 in
    let p := set_echo_cursor p 0 in
    let p := set_last_cursor p None in
    let p := set_playback p true in
    (p, Ok tt).

(** Modelled from the spec: [player::pause] is declared in axolotlsd.hpp but
    its body is in no source file; the specification says that it sets
    [playback = false] and does not clear buffers. *)
Definition pause (p : player) : player := set_playback p false.

Definition calculate_mix (x y a : F32) : F32 :=
  f32_add (f32_mul x (f32_sub (f32_of_Z 1) a)) (f32_mul y a).

(** [(static_cast<F32>(waveform.at(here)) - 128.0f) / 128.0f]. *)
Definition sample_at (wave : list Z) (here : Z) : outcome F32 :=
  b ← vector_at wave here;
  Ok (f32_div (f32_sub (f32_of_Z b) (f32_of_Z 128)) (f32_of_Z 128)).

(** The loop fold of [voice_group::accumulate_into], in [U32] arithmetic. *)
Definition loop_fold (patch : patch_t) (key_held : bool) (here : Z)
  : outcome Z :=
  let can_loop := negb (loop_start patch =? 0xFFFFFFFF) in
  if can_loop && (loop_end patch <? here) then
    if key_held then
      let here := wrap32 (here - loop_start patch) in
      let width := wrap32 (loop_end patch - loop_start patch) in
      if width =? 0 then Undefined ub_div_zero
      else Ok (wrap32 (here mod width + loop_start patch))
    else Ok here
  else Ok here.

(** The choice between silence and a waveform byte, shared by the two
    [accumulate_into]: the voice after the test and the sample. *)
Definition fetch_sample (wave : list Z) (here : Z) (v : voice_single)
  : outcome (voice_single * F32) :=
  if Z.of_nat (length wave) <=? here then Ok (set_active v false, f32_zero)
  else sample ← sample_at wave here; Ok (v, sample).

(** The body of the lambda of [voice_group::accumulate_into]. *)
Definition voice_accumulate (patch : patch_t) (v : voice_single) (l r : F32)
  : outcome (voice_single * F32 * F32) :=
  let base := patch_base patch in
  here ← f32_to_u32 (f32_floor (f32_mul (ratio base) (phase v)));
  here ← loop_fold patch (key v) here;
  '(v, sample) ← fetch_sample (waveform base) here v;
  let v := set_phase v (f32_add (phase v) (phase_add_by v)) in
  Ok (v,
      f32_add l (f32_mul (f32_mul sample (velocity v)) (gain_L base)),
      f32_add r (f32_mul (f32_mul sample (velocity v)) (gain_R base))).

(** The body of the lambda of [drum_group::accumulate_into]. *)
Definition drum_accumulate (mapping : gmap Z drum_t) (d : voice_single)
    (l r : F32) : outcome (voice_single * F32 * F32) :=
  '(d, sample, gain_L, gain_R) ←
    match mapping !! note d with
    | Some patch =>
        here ← f32_to_u32 (f32_mul (ratio patch) (phase d));
        '(d, sample) ← fetch_sample (waveform patch) here d;
        let d := set_phase d (f32_add (phase d) (phase_add_by d)) in
        Ok (d, sample, gain_L patch, gain_R patch)
    | None => Ok (set_active d false, f32_zero, f32_zero, f32_zero)
    end;
  Ok (d,
      f32_add l (f32_mul (f32_mul sample (velocity d)) gain_L),
      f32_add r (f32_mul (f32_mul sample (velocity d)) gain_R)).

(** [std::for_each] over the voices with a lambda that updates the voice and
    the two accumulators. *)
Fixpoint for_each_voice
    (f : voice_single -> F32 -> F32 -> outcome (voice_single * F32 * F32))
    (vs : list voice_single) (l r : F32)
  : outcome (list voice_single * F32 * F32) :=
  match vs with
  | [] => Ok ([], l, r)
  | v :: rest =>
      '(v', l, r) ← f v l r;
      '(rest', l, r) ← for_each_voice f rest l r;
      Ok (v' :: rest', l, r)
  end.

Definition voice_group_accumulate_into (patch : patch_t)
    (vs : list voice_single) (l r : F32) :=
  for_each_voice (voice_accumulate patch) vs l r.

Definition drum_group_accumulate_into (mapping : gmap Z drum_t)
    (vs : list voice_single) (l r : F32) :=
  for_each_voice (drum_accumulate mapping) vs l r.

(** [std::find_if(..., v.key)] followed by [key = false] on the hit. *)
Fixpoint release_first (vs : list voice_single) : list voice_single :=
  match vs with
  | [] => []
  | v :: rest =>
      if key v then set_key v false :: rest else v :: release_first rest
  end.

(** [emplace_back(velocity / 127.0f, phase, note)]: aggregate initialisation
    of [velocity], [phase_add_by], [note]; the rest by default. *)
Definition new_voice (velocity_byte : Z) (step : F32) (note_byte : Z)
  : voice_single :=
  {| velocity := f32_div (f32_of_Z velocity_byte) (f32_of_Z 127);
     phase_add_by := step; note := note_byte;
     phase := f32_zero; key := true; active := true |}.

Section Player.

(** [std::pow] on floats. *)
Variable powf : F32 -> F32 -> F32.

Definition calculate_12tet (note : Z) (bend : F32) : F32 :=
  f32_mul (powf (f32_of_Z 2)
                (f32_div (f32_add (f32_sub (f32_of_Z note) (f32_of_Z 69)) bend)
                         (f32_of_Z 12)))
          A440.

(** The step of a melodic voice: [calculate_12tet(...) * frequency * 100.0f]. *)
Definition melodic_step (p : player) (note : Z) (bend : F32) : F32 :=
  f32_mul (f32_mul (calculate_12tet note bend) (frequency p)) (f32_of_Z 100).

(** The step of a drum voice: [A440 * frequency * 32.0f * std::numbers::pi],
    a double product, narrowed to float by [emplace_back]. *)
Definition drum_step (p : player) : F32 :=
  f32_of_f64
    (f64_mul (f64_of_f32 (f32_mul (f32_mul A440 (frequency p)) (f32_of_Z 32)))
             pi_f64).

(** Assignment through a reference obtained from [channels[i]] or
    [channels.at(i)]: the slot was reached before, no second check. *)
Definition store_channel (p : player) (i : Z) (ch : voice_group_base)
  : player :=
  set_channels p (<[Z.to_nat i := Some ch]> (channels p)).

(** The body of the lambda that [handle_one] runs on every event of the
    range: the [switch] on [get_type()]. *)
Definition dispatch (p : player) (e : command) : outcome player :=
  match e with
  | command_note_on channel note velocity =>
      if on_voices p <? max_voices p then
        ch_ptr ← index (channels p) channel;
        ch ← deref ch_ptr;
        let step :=
          match ch with
          | drum_group _ => drum_step p
          | voice_group _ bend => melodic_step p note bend
          end in
        Ok (store_channel p channel
              (set_voices ch (voices ch ++ [new_voice velocity step note])))
      else Ok p
  | command_note_off channel =>
      ch_ptr ← index (channels p) channel;
      ch ← deref ch_ptr;
      Ok (store_channel p channel (set_voices ch (release_first (voices ch))))
  | command_pitchwheel channel bend =>
      ch_ptr ← index (channels p) channel;
      ch ← deref ch_ptr;
      match ch with
      | drum_group _ => Ok p
      | voice_group vs _ =>
          let bend := f32_div (f32_of_Z bend) (f32_of_Z 4096) in
          Ok (store_channel p channel
                (voice_group
                   (map (fun c => set_phase_add_by c
                                    (melodic_step p (note c) bend)) vs)
                   bend))
      end
  | command_program_change channel program =>
      ids ← index_set (patch_ids p) channel (Some program);
      Ok (set_patch_ids p ids)
  | _ => Ok p
  end.

(** [std::for_each(begin, end, ...)] over the events of the range. *)
Fixpoint dispatch_all (p : player) (es : list command) : outcome player :=
  match es with
  | [] => Ok p
  | e :: rest => p ← dispatch p e; dispatch_all p rest
  end.

(** The test [(!last_cursor.has_value()) || (cursor > last_cursor.value())]. *)
Definition cursor_advanced (last : option Z) (cur : Z) : bool :=
  match last with
  | None => true
  | Some lc => lc <? cur
  end.

(** [on_voices += channel->voices.size()], on a [U32]. *)
Definition count_voices (p : player) (vs : list voice_single) : player :=
  set_on_voices p (wrap32 (on_voices p + Z.of_nat (length vs))).

(** One round of the [for (i = 0; i < 16; i++)] loop of [handle_one]. *)
Definition mix_channel (i : Z) (p : player) (l r : F32)
  : outcome (player * F32 * F32) :=
  ch_ptr ← vector_at (channels p) i;
  ch ← deref ch_ptr;
  let vs := List.filter active (voices ch) in
  if is_drum_kit ch then
    '(vs, l, r) ← drum_group_accumulate_into (drums (current p)) vs l r;
    Ok (count_voices (store_channel p i (set_voices ch vs)) vs, l, r)
  else
    id ← vector_at (patch_ids p) i;
    match id with
    | Some program =>
        patch ← map_at (patches (current p)) program;
        '(vs, l, r) ← voice_group_accumulate_into patch vs l r;
        Ok (count_voices (store_channel p i (set_voices ch vs)) vs, l, r)
    | None => Ok (store_channel p i (set_voices ch vs), l, r)
    end.

Fixpoint mix_channels (rounds : nat) (i : Z) (p : player) (l r : F32)
  : outcome (player * F32 * F32) :=
  match rounds with
  | O => Ok (p, l, r)
  | S rounds' =>
      '(p, l, r) ← mix_channel i p l r;
      mix_channels rounds' (i + 1) p l r
  end.

(** [player::handle_one]. *)
Definition handle_one (p : player) (l r : F32)
  : outcome (player * F32 * F32) :=
  cur ← f32_to_u32 (f32_mul (f32_of_Z (ticks_per_second (current p)))
                            (seconds_elapsed p));
  let p := set_cursor p cur in
  p ← (if cursor_advanced (last_cursor p) (cursor p) then
         p ← dispatch_all p (map snd (equal_range (cursor p)
                                        (commands (current p))));
         Ok (set_last_cursor p (Some (cursor p)))
       else Ok p);
  let p := set_on_voices p 0 in
  mix_channels 16 0 p l r.

(** [player::maybe_echo_one]. *)
Definition maybe_echo_one (p : player) (l r : F32)
  : outcome (player * F32 * F32) :=
  match env_params p with
  | Some env =>
      eL ← echo_index (echo_buffer_L p) (echo_cursor p);
      eR ← echo_index (echo_buffer_R p) (echo_cursor p);
      let eL := f32_mul (f32_add eL l) (feedback_L env) in
      let eR := f32_mul (f32_add eR r) (feedback_R env) in
      let eL := f32_clamp eL (f32_of_Z (-1)) (f32_of_Z 1) in
      let eR := f32_clamp eR (f32_of_Z (-1)) (f32_of_Z 1) in
      let p := set_echo_buffer_L p (<[echo_cursor p := eL]> (echo_buffer_L p)) in
      let p := set_echo_buffer_R p (<[echo_cursor p := eR]> (echo_buffer_R p)) in
      let l := calculate_mix l eL (wet_L env) in
      let r := calculate_mix r eR (wet_R env) in
      let c := wrap16 (echo_cursor p + cursor_increment env) in
      if cursor_max env =? 0 then Undefined ub_div_zero
      else Ok (set_echo_cursor p (c mod cursor_max env), l, r)
  | None => Ok (p, l, r)
  end.

(** The part of a round of [tick] before the write: the mix of one frame. *)
Definition tick_frame (p : player) : outcome (player * F32 * F32) :=
  '(p, l, r) ←
    (if playback p then
       '(p, l, r) ← handle_one p f32_zero f32_zero;
       let p := set_seconds_elapsed p
                  (f32_add (seconds_elapsed p) (frequency p)) in
       if f32_ltb (seconds_end p) (seconds_elapsed p) then
         let p := set_seconds_elapsed p
                    (f32_fmod (seconds_elapsed p) (seconds_end p)) in
         Ok (set_last_cursor p None, l, r)
       else Ok (p, l, r)
     else Ok (p, f32_zero, f32_zero));
  maybe_echo_one p l r.

Definition clamp_unit (x : F32) : F32 :=
  f32_clamp x (f32_of_Z (-1)) (f32_of_Z 1).

(** The stereo loop, [for (i = 0; i < size; i += 2)]: [rounds] rounds from
    index [i]. *)
Fixpoint tick_stereo (rounds : nat) (i : Z) (p : player) (audio : list F32)
  : outcome (player * list F32) :=
  match rounds with
  | O => Ok (p, audio)
  | S rounds' =>
      '(p, l, r) ← tick_frame p;
      audio ← index_set audio (i + 0) (clamp_unit l);
      audio ← index_set audio (i + 1) (clamp_unit r);
      tick_stereo rounds' (i + 2) p audio
  end.

(** The mono loop, [for (i = 0; i < size; i += 1)]. *)
Fixpoint tick_mono (rounds : nat) (i : Z) (p : player) (audio : list F32)
  : outcome (player * list F32) :=
  match rounds with
  | O => Ok (p, audio)
  | S rounds' =>
      '(p, l, r) ← tick_frame p;
      audio ← index_set audio i
                (clamp_unit (f32_div (f32_add l r) (f32_of_Z 2)));
      tick_mono rounds' (i + 1) p audio
  end.

(** [player::tick].  The stereo loop runs while [i < size] in steps of two,
    that is [(size + 1) / 2] rounds; the mono loop runs [size] rounds. *)
Definition tick (p : player) (audio : list F32) : outcome (player * list F32) :=
  let size := Z.of_nat (length audio) in
  if in_stereo p then tick_stereo (Z.to_nat ((size + 1) / 2)) 0 p audio
  else tick_mono (Z.to_nat size) 0 p audio.

End Player.

(** ** Vocabulary of the statements *)

(** The entries of a multimap under one key, in order. *)
Definition entries_at {V} (k : Z) (m : multimap V) : list V :=
  map snd (List.filter (fun e => fst e =? k) m).

(** The events that a call of [handle_one] dispatches when it computes the
    cursor [cur]: none when the cursor has not advanced, the events indexed
    at [cur] otherwise. *)
Definition due_events (p : player) (cur : Z) : list command :=
  if cursor_advanced (last_cursor p) cur then entries_at cur (commands (current p))
  else [].

(** The voices of slot [i], none for an empty slot. *)
Definition channel_voices (p : player) (i : nat) : list voice_single :=
  match channels p !! i with
  | Some (Some ch) => voices ch
  | _ => []
  end.

(** The number of voices with [active == true], summed over the slots. *)
Definition active_voices (p : player) : Z :=
  Z.of_nat (length (List.filter active
                      (concat (map (channel_voices p) (seq 0 16))))).

(** A slot that [handle_one] accumulates and counts: the drum kit, or a
    melodic slot with a program bound. *)
Definition counted_slot (p : player) (i : nat) : bool :=
  match channels p !! i with
  | Some (Some ch) =>
      is_drum_kit ch ||
      match patch_ids p !! i with Some (Some _) => true | _ => false end
  | _ => false
  end.

(** The voices held by the counted slots below [n], active or not. *)
Fixpoint counted_voices (p : player) (n : nat) : Z :=
  match n with
  | O => 0
  | S n' =>
      counted_voices p n' +
      (if counted_slot p n' then Z.of_nat (length (channel_voices p n')) else 0)
  end.

(** The events that carry a channel byte, and the byte. *)
Definition channel_of (e : command) : option Z :=
  match e with
  | command_note_on c _ _ | command_note_off c
  | command_pitchwheel c _ | command_program_change c _ => Some c
  | _ => None
  end.

(** The events that [dispatch] ignores. *)
Definition is_meta (e : command) : bool :=
  match channel_of e with Some _ => false | None => true end.

(** The slot that the mono loop writes for a rendered pair. *)
Definition mono_slot (lr : F32 * F32) : F32 :=
  f32_clamp (f32_div (f32_add (fst lr) (snd lr)) (f32_of_Z 2))
            (f32_of_Z (-1)) (f32_of_Z 1).

(** The patch invariant of the data model. *)
Definition patch_invariant (patch : patch_t) : Prop :=
  loop_start patch = 0xFFFFFFFF \/
  (0 <= loop_start patch < loop_end patch /\
   loop_end patch <= Z.of_nat (length (waveform (patch_base patch)))).

(** The value that a silent voice adds to one side of the mix. *)
Definition silent_term (v : voice_single) (gain : F32) : F32 :=
  f32_mul (f32_mul f32_zero (velocity v)) gain.

(** The share of slot [k] in [counted_voices]. *)
Definition counted_at (p : player) (k : nat) : Z :=
  if counted_slot p k then Z.of_nat (length (channel_voices p k)) else 0.

(** What [dispatch] leaves alone: everything but [channels] and
    [patch_ids]. *)
Definition same_outside_channels (p p' : player) : Prop :=
  seconds_elapsed p' = seconds_elapsed p /\ seconds_end p' = seconds_end p /\
  frequency p' = frequency p /\ max_voices p' = max_voices p /\
  on_voices p' = on_voices p /\ echo_buffer_L p' = echo_buffer_L p /\
  echo_buffer_R p' = echo_buffer_R p /\ echo_cursor p' = echo_cursor p /\
  env_params p' = env_params p /\ cursor p' = cursor p /\
  last_cursor p' = last_cursor p /\ current p' = current p /\
  in_stereo p' = in_stereo p /\ playback p' = playback p.

(** What a slot holds once [tick] has written it. *)
Definition clamped (y : F32) : Prop :=
  exists x, y = clamp_unit x /\
            (is_nan x = true -> is_nan y = true) /\
            (is_nan x = false -> in_unit_range y = true).

Section Rendering.

Variable powf : F32 -> F32 -> F32.

(** The left/right pairs of [n] consecutive frames. *)
Fixpoint render (n : nat) (p : player) : outcome (player * list (F32 * F32)) :=
  match n with
  | O => Ok (p, [])
  | S n' =>
      '(p, l, r) ← tick_frame powf p;
      '(p, frames) ← render n' p;
      Ok (p, (l, r) :: frames)
  end.

End Rendering.

(** ** Example songs and players *)

(** A stand-in for [powf] in the examples: exact for base 2 and an integral
    exponent, which is what the octaves of A440 ask for; NaN elsewhere. *)
Definition powf_octaves (x y : F32) : F32 :=
  match SFcompare x (f32_of_Z 2), y with
  | Some Eq, S754_zero _ => f32_of_Z 1
  | Some Eq, S754_finite s m e =>
      if 0 <=? e then
        SFldexp 24 128 (f32_of_Z 1) (cond_Zopp s (Z.shiftl (Zpos m) e))
      else f32_nan
  | _, _ => f32_nan
  end.

Definition axsd_magic : list Z := [0x41; 0x58; 0x53; 0x44].

(** Version 3, 48000 ticks per second. *)
Definition axsd_header : list Z :=
  axsd_magic ++ [0xFC; 3; 0] ++ [0xFD; 0x80; 0xBB; 0; 0].

(** A player for 8 voices at 48000 Hz, stereo, as the constructor leaves
    it. *)
Definition example_player : player :=
  player_new 8 48000 true f32_zero song_empty.

(** [load], then [play] on [p] without echo. *)
Definition load_and_play (p : player) (data : list Z) : outcome player :=
  s ← load data;
  let '(p, res) := play p s None in
  _ ← res; Ok p.

(** ProgramChange(channel 0, program 5) at tick 0, no patch at all, end of
    track at tick 48000. *)
Definition song_missing_program : list Z :=
  axsd_header ++ [0x04; 0; 0; 0; 0; 0; 5] ++ [0xFE; 0x80; 0xBB; 0; 0].

(** NoteOn(channel 0, note 69, velocity 127) at tick 0 and no program
    change. *)
Definition song_unbound_note : list Z :=
  axsd_header ++ [0x01; 0; 0; 0; 0; 0; 69; 127] ++ [0xFE; 0x80; 0xBB; 0; 0].

(** A drum record for note 42 with a two-byte waveform [255; 0], ratio 1.0,
    left gain 1.0 and the right gain given by its four bytes. *)
Definition drum_record (g0 g1 g2 g3 : Z) : list Z :=
  [0x81; 42; 2; 0; 0; 0; 0; 0; 0x80; 0x3F; 0; 0; 0x80; 0x3F; g0; g1; g2; g3;
   255; 0].

Definition drum_hit : list Z := [0x01; 0; 0; 0; 0; 9; 42; 127].

(** The drum of note 42 with a NaN right gain (bits 0x7FC00000), hit at
    tick 0. *)
Definition song_nan_gain : list Z :=
  axsd_header ++ drum_record 0 0 0xC0 0x7F ++ drum_hit
              ++ [0xFE; 0x80; 0xBB; 0; 0].

(** The drum of note 42 with both gains 1.0, hit at tick 0, in a song whose
    end of track is at tick 0. *)
Definition song_zero_length : list Z :=
  axsd_header ++ drum_record 0 0 0x80 0x3F ++ drum_hit ++ [0xFE; 0; 0; 0; 0].

(** Only the header and an end of track at tick 0: the silence song. *)
Definition song_silence : list Z := axsd_header ++ [0xFE; 0; 0; 0; 0].

(** A NoteOn on channel 9 at tick 0 for note 42, with no drum mapped. *)
Definition song_drum_miss : list Z :=
  axsd_header ++ drum_hit ++ [0xFE; 0x80; 0xBB; 0; 0].

(** [example_player] after a successful [play] of an empty version-3 song. *)
Definition example_playing : player :=
  fst (play example_player (set_version song_empty 3) None).

(** The player that [load_and_play] leaves for a stream, [example_player]
    when the stream is rejected. *)
Definition started (data : list Z) : player :=
  match load_and_play example_player data with
  | Ok p => p
  | _ => example_player
  end.

(** A looping patch with a four-byte waveform, ratio and gains 1.0, and the
    loop over the whole waveform. *)
Definition example_patch : patch_t :=
  {| patch_base :=
       {| waveform := [128; 255; 0; 64]; ratio := f32_of_Z 1;
          gain_L := f32_of_Z 1; gain_R := f32_of_Z 1 |};
     loop_start := 0; loop_end := 4 |}.

(** A patch that does not loop, with the same waveform and a left gain of
    +infinity (bits 0x7F800000). *)
Definition example_patch_infinite_gain : patch_t :=
  {| patch_base :=
       {| waveform := [128; 255; 0; 64]; ratio := f32_of_Z 1;
          gain_L := bit_cast_F32 0x7F800000; gain_R := f32_of_Z 1 |};
     loop_start := 0xFFFFFFFF; loop_end := 0 |}.

(** A held voice at full velocity whose phase is 7.0. *)
Definition example_voice : voice_single :=
  {| velocity := f32_of_Z 1; phase_add_by := f32_of_Z 1; note := 69;
     phase := f32_of_Z 7; key := true; active := true |}.

(** A player with no polyphony at all: [max_voices = 0]. *)
Definition example_player_no_voices : player :=
  fst (play (player_new 0 48000 true f32_zero song_empty)
            (set_version song_empty 3) None).

(** ** Vocabulary of the further properties *)

(** A value that a [U8] can hold. *)
Definition is_byte (b : Z) : Prop := 0 <= b < 256.

(** A buffer that an [int] can index.  The offset [where] of [song::load]
    and the counter [i] of [player::tick] are declared with [auto] from an
    integer literal, so they are [int]s; the model keeps them unbounded, and
    the statements about whole buffers are made for buffers on which an
    [int] does not overflow. *)
Definition int_indexed {A} (v : list A) : Prop :=
  Z.of_nat (length v) < 2 ^ 31.

(** The four bytes of a [U32], least significant first: what a stream
    carries for a tick, a width, a loop point or the bits of a float. *)
Definition u32_bytes (n : Z) : list Z :=
  [n mod 256; (n / 256) mod 256; (n / 65536) mod 256; (n / 16777216) mod 256].

(** The two bytes of a [U16], least significant first. *)
Definition u16_bytes (n : Z) : list Z := [n mod 256; (n / 256) mod 256].

(** The record of a channel event at tick [t]: the tag, the tick, the
    fields in the order in which [song::load] pops them.  The bend of a
    pitch wheel travels as the [U32] with the same bits. *)
Definition event_record (t : Z) (e : command) : list Z :=
  match e with
  | command_note_on c n v => 0x01 :: u32_bytes t ++ [c; n; v]
  | command_note_off c => 0x02 :: u32_bytes t ++ [c]
  | command_pitchwheel c bend =>
      0x03 :: u32_bytes t ++ [c] ++ u32_bytes (bend mod 2 ^ 32)
  | command_program_change c g => 0x04 :: u32_bytes t ++ [c; g]
  | _ => []
  end.

(** The channel events whose fields fit their C++ types. *)
Definition valid_event (e : command) : Prop :=
  match e with
  | command_note_on c n v => is_byte c /\ is_byte n /\ is_byte v
  | command_note_off c => is_byte c
  | command_pitchwheel c bend => is_byte c /\ - 2 ^ 31 <= bend < 2 ^ 31
  | command_program_change c g => is_byte c /\ is_byte g
  | _ => False
  end.

(** The fixed part of a PatchData record: tag, patch number, waveform
    width, loop points, and the bits of ratio and gains. *)
Definition patch_data_header (id width start_ end_ ratio_bits gainL_bits
    gainR_bits : Z) : list Z :=
  [0x80; id] ++ u32_bytes width ++ u32_bytes start_ ++ u32_bytes end_
    ++ u32_bytes ratio_bits ++ u32_bytes gainL_bits ++ u32_bytes gainR_bits.

(** The fixed part of a DrumData record. *)
Definition drum_data_header (id width ratio_bits gainL_bits gainR_bits : Z)
  : list Z :=
  [0x81; id] ++ u32_bytes width ++ u32_bytes ratio_bits
    ++ u32_bytes gainL_bits ++ u32_bytes gainR_bits.

(** The records of the song version and of the tick rate. *)
Definition version_record (v : Z) : list Z := 0xFC :: u16_bytes v.

Definition rate_record (rate : Z) : list Z := 0xFD :: u32_bytes rate.

(** The record loop of [song::load] on a buffer of records only, started
    from a song that is already partly built. *)
Definition load_records (s : song) (data : list Z) : outcome song :=
  load_loop (length data) data 0 s.

(** The text of the exception that [load] throws on a wrong magic. *)
Definition bad_magic : exception :=
  runtime_error "First 4 bytes of this song are not 'AXSD'!".

(** An outcome of checked accesses only: a value or the [std::out_of_range]
    of an [at()], never undefined behaviour. *)
Definition checked {A} (o : outcome A) : Prop :=
  match o with
  | Ok _ => True
  | Throw e => e = out_of_range
  | Undefined _ => False
  end.

(** An outcome that is no exception. *)
Definition no_throw {A} (o : outcome A) : Prop :=
  match o with
  | Throw _ => False
  | _ => True
  end.

(** An outcome that is no value. *)
Definition fails {A} (o : outcome A) : Prop :=
  match o with
  | Ok _ => False
  | _ => True
  end.

(** What [handle_one] leaves alone: the clock, the limits, the echo, the
    song and the flags. *)
Definition same_settings (p p' : player) : Prop :=
  seconds_elapsed p' = seconds_elapsed p /\ seconds_end p' = seconds_end p /\
  frequency p' = frequency p /\ max_voices p' = max_voices p /\
  echo_buffer_L p' = echo_buffer_L p /\ echo_buffer_R p' = echo_buffer_R p /\
  echo_cursor p' = echo_cursor p /\ env_params p' = env_params p /\
  current p' = current p /\ in_stereo p' = in_stereo p /\
  playback p' = playback p.

(** The two sixteen-element arrays of the player. *)
Definition sixteen (p : player) : Prop :=
  length (channels p) = 16%nat /\ length (patch_ids p) = 16%nat.

(** The echo cursor is below [cursor_max], which a [U16] keeps at or below
    65535, the size of the echo arrays. *)
Definition echo_ready (p : player) : Prop :=
  match env_params p with
  | Some env => 0 <= echo_cursor p < cursor_max env /\ cursor_max env <= 65535
  | None => True
  end.

(** The two slots that the stereo loop writes for a rendered pair. *)
Definition stereo_slots (lr : F32 * F32) : list F32 :=
  [clamp_unit (fst lr); clamp_unit (snd lr)].

(** The voice that a NoteOn starts on a group: its step is the drum step
    on the drum kit and the tempered step of the note, bent by the group's
    bend, on a melodic group. *)
Definition started_voice (powf : F32 -> F32 -> F32) (p : player)
    (ch : voice_group_base) (note_byte velocity_byte : Z) : voice_single :=
  new_voice velocity_byte
    match ch with
    | drum_group _ => drum_step p
    | voice_group _ bend => melodic_step powf p note_byte bend
    end
    note_byte.

(** *** The effect of the events, after the specification

    What the specification says that [handle_one] does with an event
    (section 4.2, step 2), written without [dispatch]: these definitions are
    what the dispatching code is compared with. *)

(** The group of channel [c], when the channel has one. *)
Definition group_at (p : player) (c : Z) : option voice_group_base :=
  match channels p !! Z.to_nat c with
  | Some (Some ch) => Some ch
  | _ => None
  end.

(** NoteOff: locate the first voice with [key == true] and set its
    [key = false]. *)
Definition release_oldest (vs : list voice_single) : list voice_single :=
  match list_find (fun v => key v = true) vs with
  | Some (i, v) => <[i := set_key v false]> vs
  | None => vs
  end.

(** The effect of one event.  NoteOn: if [on_voices < max_voices], append a
    new voice to the channel.  NoteOff: release the first held voice.
    PitchWheel: set the bend of a melodic channel to [bend / 4096] and
    recompute the step of each of its voices.  ProgramChange: set
    [patch_ids[channel] = program].  Other events: nothing. *)
Definition event_effect (powf : F32 -> F32 -> F32) (p : player) (e : command)
  : player :=
  match e with
  | command_note_on c n v =>
      if on_voices p <? max_voices p then
        match group_at p c with
        | Some ch =>
            store_channel p c
              (set_voices ch (voices ch ++ [started_voice powf p ch n v]))
        | None => p
        end
      else p
  | command_note_off c =>
      match group_at p c with
      | Some ch => store_channel p c (set_voices ch (release_oldest (voices ch)))
      | None => p
      end
  | command_pitchwheel c bend_value =>
      match group_at p c with
      | Some (voice_group vs _) =>
          let bend := f32_div (f32_of_Z bend_value) (f32_of_Z 4096) in
          store_channel p c
            (voice_group
               (map (fun v => set_phase_add_by v
                                (melodic_step powf p (note v) bend)) vs)
               bend)
      | _ => p
      end
  | command_program_change c g =>
      set_patch_ids p (<[Z.to_nat c := Some g]> (patch_ids p))
  | _ => p
  end.

(** The effect of the events of a tick, in their order. *)
Definition events_effect (powf : F32 -> F32 -> F32) (p : player)
    (es : list command) : player :=
  fold_left (event_effect powf) es p.

(** An event whose channel byte, if it has one, names one of the sixteen
    channels. *)
Definition on_a_channel (e : command) : Prop :=
  match channel_of e with
  | Some c => 0 <= c < 16
  | None => True
  end.

(** All sixteen groups are installed, as [play] leaves them: no slot of
    [channels] is a null pointer. *)
Definition groups_installed (p : player) : Prop :=
  sixteen p /\ Forall (fun g => g <> None) (channels p).

(** What accumulation leaves of a voice: everything but [phase] and
    [active]. *)
Definition same_voice (v v' : voice_single) : Prop :=
  note v' = note v /\ velocity v' = velocity v /\ key v' = key v /\
  phase_add_by v' = phase_add_by v.

(** Every program that the player can come to use has a patch: the programs
    bound now and the programs of the ProgramChange events of the song. *)
Definition programs_defined (p : player) : Prop :=
  (forall i g, patch_ids p !! i = Some (Some g) ->
               is_Some (patches (current p) !! g)) /\
  (forall k c g, In (k, command_program_change c g) (commands (current p)) ->
                 is_Some (patches (current p) !! g)).

(** ** Further example songs and players *)

(** The song that [load] builds from [axsd_header]. *)
Definition song_header : song :=
  {| version := 3; ticks_end := 0; ticks_per_second := 48000;
     commands := [(0, command_version 3); (0, command_rate 48000)];
     patches := ∅; drums := ∅ |}.

(** The song that [load] returns for a stream, [song_empty] when the stream
    is rejected. *)
Definition loaded (data : list Z) : song :=
  match load data with
  | Ok s => s
  | _ => song_empty
  end.

(** [example_player] after [play] of the decoded stream with an
    environment, [example_player] when the stream or the song is rejected. *)
Definition started_with (data : list Z) (env : environment) : player :=
  match load data with
  | Ok s =>
      match play example_player s (Some env) with
      | (p, Ok _) => p
      | _ => example_player
      end
  | _ => example_player
  end.

(** An echo of four slots, stepped by one, with feedback and wet level 0.5
    (bits 0x3F000000) on both sides. *)
Definition example_environment : environment :=
  {| feedback_L := bit_cast_F32 0x3F000000;
     feedback_R := bit_cast_F32 0x3F000000;
     wet_L := bit_cast_F32 0x3F000000; wet_R := bit_cast_F32 0x3F000000;
     cursor_increment := 1; cursor_max := 4 |}.

(** The same echo with [cursor_max = 0]. *)
Definition example_environment_zero_max : environment :=
  {| feedback_L := bit_cast_F32 0x3F000000;
     feedback_R := bit_cast_F32 0x3F000000;
     wet_L := bit_cast_F32 0x3F000000; wet_R := bit_cast_F32 0x3F000000;
     cursor_increment := 1; cursor_max := 0 |}.


(** [example_playing] with two voices on the drum kit: one that has ended
    and [example_voice]. *)
Definition example_two_drums : player :=
  store_channel example_playing 9
    (drum_group [set_active example_voice false; example_voice]).

(** [example_playing] with three voices on channel 0, the first of them
    released. *)
Definition example_three_voices : player :=
  store_channel example_playing 0
    (voice_group [set_key example_voice false; example_voice; example_voice]
                 f32_zero).

(** A looping patch whose loop is empty: [loop_start = loop_end = 2]. *)
Definition example_patch_empty_loop : patch_t :=
  {| patch_base :=
       {| waveform := [128; 255; 0; 64]; ratio := f32_of_Z 1;
          gain_L := f32_of_Z 1; gain_R := f32_of_Z 1 |};
     loop_start := 2; loop_end := 2 |}.

(** A patch for program 5 (the waveform and settings of [example_patch]),
    ProgramChange(channel 0, program 5) and NoteOn(channel 0, note 69,
    velocity 127) at tick 0, end of track at tick 48000. *)
Definition song_bound_program : list Z :=
  axsd_header
    ++ patch_data_header 5 4 0 4 0x3F800000 0x3F800000 0x3F800000
    ++ [128; 255; 0; 64]
    ++ event_record 0 (command_program_change 0 5)
    ++ event_record 0 (command_note_on 0 69 127)
    ++ [0xFE; 0x80; 0xBB; 0; 0].

(** The clock of [tick] stays finite over the next [n] frames: [x] is
    [seconds_elapsed] before the first of them, and each frame adds [step]
    ([seconds_elapsed += frequency]), no frame wrapping. *)
Fixpoint clock_finite (step x : F32) (n : nat) : bool :=
  match n with
  | O => true
  | S n' => is_finite x && clock_finite step (f32_add x step) n'
  end.

(** A positive float [m * 2 ^ e] in units of [2 ^ -149], the least positive
    binary32 value. *)
Definition f32_units (m : positive) (e : Z) : Z := Zpos m * 2 ^ (e + 149).

(** A clock that is 0 or a positive binary32 number of at most 1024
    seconds. *)
Definition clock_bounded (x : F32) : Prop :=
  x = f32_zero \/
  exists m e, x = S754_finite false m e /\ -149 <= e /\ Zpos m < 2 ^ 24 /\
              f32_units m e <= 2 ^ (10 + 149).

Definition clock_boundedb (x : F32) : bool :=
  match x with
  | S754_zero false => true
  | S754_finite false m e =>
      (-149 <=? e) && (Zpos m <? 2 ^ 24) && (f32_units m e <=? 2 ^ (10 + 149))
  | _ => false
  end.

(** A frame of a song with [ticks_per_second == 0], before or after its
    events at tick 0 were dispatched, while the clock is finite. *)
Definition zero_rate_state (q : player) : Prop :=
  playback q = true /\ env_params q = None /\
  ticks_per_second (current q) = 0 /\
  sorted_keys (commands (current q)) /\
  Forall (fun e => is_meta e = true) (entries_at 0 (commands (current q))) /\
  channels q = fresh_channels /\ patch_ids q = replicate 16 None /\
  (last_cursor q = None \/ last_cursor q = Some 0) /\
  (forall y, f32_ltb (seconds_end q) y = false).

(** Version 3 and 0 ticks per second, with the end of track at tick 48000
    and at tick 0. *)
Definition song_zero_rate : list Z :=
  axsd_magic ++ [0xFC; 3; 0] ++ [0xFD; 0; 0; 0; 0]
             ++ [0xFE; 0x80; 0xBB; 0; 0].

Definition song_zero_rate_zero_length : list Z :=
  axsd_magic ++ [0xFC; 3; 0] ++ [0xFD; 0; 0; 0; 0] ++ [0xFE; 0; 0; 0; 0].



(** * Properties *)

(** ** Facts about binary32 *)

Lemma SFcompare_antisym (x y : spec_float) :
  SFcompare y x = option_map CompOpp (SFcompare x y).
Proof.
  destruct x as [sx | sx | | sx mx ex], y as [sy | sy | | sy my ey];
    repeat match goal with s : bool |- _ => destruct s end;
    try reflexivity; cbn;
    rewrite (Z.compare_antisym ey ex);
    destruct (ey ?= ex); cbn; try reflexivity;
    rewrite (Pos.compare_cont_antisym mx my Eq); cbn;
    destruct (Pos.compare_cont Eq mx my); reflexivity.
Qed.

Lemma f32_not_ltb_leb (x y : F32) :
  is_nan x = false -> is_nan y = false ->
  f32_ltb x y = false -> f32_leb y x = true.
Proof.
  unfold f32_ltb, f32_leb, SFltb, SFleb. intros Hx Hy.
  rewrite (SFcompare_antisym x y).
  destruct (SFcompare x y) as [[ | | ] | ] eqn:E; cbn; try congruence.
  destruct x, y; cbn in *; congruence.
Qed.

Lemma clamp_unit_nan : clamp_unit f32_nan = f32_nan.
Proof. reflexivity. Qed.

Lemma clamp_unit_in_range (x : F32) :
  is_nan x = false -> in_unit_range (clamp_unit x) = true.
Proof.
  intros Hx. unfold clamp_unit, f32_clamp.
  destruct (f32_ltb x (f32_of_Z (-1))) eqn:Hlo; [reflexivity | ].
  destruct (f32_ltb (f32_of_Z 1) x) eqn:Hhi; [reflexivity | ].
  unfold in_unit_range. apply andb_true_intro. split.
  - apply f32_not_ltb_leb; [assumption | reflexivity | assumption].
  - apply f32_not_ltb_leb; [reflexivity | assumption | assumption].
Qed.

Lemma clamp_unit_is_nan (x : F32) : is_nan (clamp_unit x) = is_nan x.
Proof.
  unfold clamp_unit, f32_clamp.
  destruct (f32_ltb x (f32_of_Z (-1))) eqn:Hlo.
  - destruct x; try reflexivity; discriminate.
  - destruct (f32_ltb (f32_of_Z 1) x) eqn:Hhi; [ | reflexivity].
    destruct x; try reflexivity; discriminate.
Qed.

Lemma nan_not_in_unit_range : in_unit_range f32_nan = false.
Proof. reflexivity. Qed.

(** *** Conversion of a [U32] to float stays finite *)

Lemma Zdigits2_nonneg (m : Z) : 0 <= Zdigits2 m.
Proof. destruct m; cbn; lia. Qed.

Lemma shr_1_bounds (r : shr_record) :
  0 <= shr_m r ->
  0 <= shr_m (shr_1 r) /\ Zdigits2 (shr_m (shr_1 r)) <= Zdigits2 (shr_m r).
Proof.
  destruct r as [m b s]; cbn. intros Hm.
  destruct m as [ | [q | q | ] | q ]; cbn; lia.
Qed.

Lemma iter_shr_1_bounds (n : positive) : forall r : shr_record,
  0 <= shr_m r ->
  0 <= shr_m (SpecFloat.iter_pos shr_1 n r) /\
  Zdigits2 (shr_m (SpecFloat.iter_pos shr_1 n r)) <= Zdigits2 (shr_m r).
Proof.
  induction n as [n IH | n IH | ]; intros r Hr; cbn.
  - destruct (shr_1_bounds r Hr) as [H1 H2].
    destruct (IH _ H1) as [H3 H4]. destruct (IH _ H3) as [H5 H6]. lia.
  - destruct (IH _ Hr) as [H3 H4]. destruct (IH _ H3) as [H5 H6]. lia.
  - apply shr_1_bounds, Hr.
Qed.

Lemma shr_fexp_bounds (m e : Z) (l : location) :
  0 <= m ->
  let res := shr_fexp 24 128 m e l in
  0 <= shr_m (fst res) /\
  Zdigits2 (shr_m (fst res)) <= Zdigits2 m /\
  snd res = Z.max e (fexp 24 128 (Zdigits2 m + e)).
Proof.
  intros Hm. unfold shr_fexp, shr.
  assert (Hrec : shr_m (shr_record_of_loc m l) = m)
    by (destruct l as [ | [ | | ]]; reflexivity).
  destruct (fexp 24 128 (Zdigits2 m + e) - e) as [ | n | n] eqn:E; cbn.
  - rewrite Hrec. lia.
  - destruct (iter_shr_1_bounds n (shr_record_of_loc m l)) as [H1 H2];
      rewrite Hrec in *; [assumption | ]. lia.
  - rewrite Hrec. lia.
Qed.

Lemma round_nearest_even_bounds (m : Z) (l : location) :
  0 <= m ->
  0 <= round_nearest_even m l /\
  Zdigits2 (round_nearest_even m l) <= Zdigits2 m + 1.
Proof.
  intros Hm.
  assert (Hsucc : 0 <= m + 1 /\ Zdigits2 (m + 1) <= Zdigits2 m + 1).
  { split; [lia | ]. destruct m as [ | q | q]; [vm_compute; discriminate | | lia].
    change (Z.pos q + 1) with (Z.pos (q + 1)). cbn.
    rewrite Pos.add_1_r.
    assert (H : forall t, (digits2_pos (Pos.succ t) <= Pos.succ (digits2_pos t))%positive).
    { induction t as [t IH | t IH | ].
      - change (Pos.succ t~1) with (Pos.succ t)~0%positive.
        cbn [digits2_pos]. lia.
      - change (Pos.succ t~0) with t~1%positive. cbn [digits2_pos]. lia.
      - vm_compute. discriminate. }
    specialize (H q). lia. }
  destruct l as [ | [ | | ]]; cbn; try lia.
  destruct (Z.even m); lia.
Qed.

Lemma binary_round_aux_finite (sx : bool) (mx ex : Z) (lx : location) :
  0 <= mx -> Zdigits2 mx <= 40 -> ex <= 40 ->
  is_finite (binary_round_aux 24 128 sx mx ex lx) = true.
Proof.
  intros Hm Hd He. unfold binary_round_aux.
  pose proof (shr_fexp_bounds mx ex lx Hm) as H1. cbn zeta in H1.
  destruct (shr_fexp 24 128 mx ex lx) as [mrs' e'] eqn:E1.
  cbn [fst snd] in H1. destruct H1 as (Hm1 & Hd1 & He1).
  destruct (round_nearest_even_bounds (shr_m mrs') (loc_of_shr_record mrs') Hm1)
    as [Hm2 Hd2].
  pose proof (shr_fexp_bounds
                (round_nearest_even (shr_m mrs') (loc_of_shr_record mrs'))
                e' loc_Exact Hm2) as H3.
  cbn zeta in H3.
  destruct (shr_fexp 24 128 _ e' loc_Exact) as [mrs'' e''] eqn:E2.
  cbn [fst snd] in H3. destruct H3 as (Hm3 & Hd3 & He3).
  pose proof (Zdigits2_nonneg mx).
  pose proof (Zdigits2_nonneg (shr_m mrs')).
  unfold fexp, emin in *.
  destruct (shr_m mrs'') as [ | q | q]; [reflexivity | | lia].
  replace (e'' <=? 128 - 24) with true; [reflexivity | ].
  symmetry. apply Z.leb_le. lia.
Qed.

Lemma digits2_pos_iter_xO (m : positive) (k : positive) :
  digits2_pos (Pos.iter xO m k) = (digits2_pos m + k)%positive.
Proof.
  induction k as [ | k IH] using Pos.peano_ind.
  - cbn. lia.
  - rewrite Pos.iter_succ. cbn. rewrite IH. lia.
Qed.

Lemma digits2_pos_bound (m : positive) (n : Z) :
  0 <= n -> Zpos m < 2 ^ n -> Zpos (digits2_pos m) <= n.
Proof.
  revert n. induction m as [m IH | m IH | ]; intros n Hn Hlt; cbn [digits2_pos].
  - assert (n <> 0) by (intros ->; cbn in Hlt; lia).
    replace n with (Z.succ (n - 1)) in Hlt by lia.
    rewrite Z.pow_succ_r in Hlt by lia.
    specialize (IH (n - 1)). lia.
  - assert (n <> 0) by (intros ->; cbn in Hlt; lia).
    replace n with (Z.succ (n - 1)) in Hlt by lia.
    rewrite Z.pow_succ_r in Hlt by lia.
    specialize (IH (n - 1)). lia.
  - assert (n <> 0) by (intros ->; cbn in Hlt; lia). lia.
Qed.

Lemma f32_of_Z_finite (n : Z) :
  0 <= n < 2 ^ 32 -> is_finite (f32_of_Z n) = true.
Proof.
  intros Hn. unfold f32_of_Z, binary_normalize.
  destruct n as [ | m | m]; [reflexivity | | lia].
  unfold binary_round.
  assert (Hd : Zpos (digits2_pos m) <= 32)
    by (apply digits2_pos_bound; lia).
  destruct (shl_align m 0 (fexp 24 128 (Z.pos (digits2_pos m) + 0)))
    as [mz ez] eqn:E.
  unfold shl_align, fexp, emin in E.
  destruct (Z.max (Z.pos (digits2_pos m) + 0 - 24) (3 - 128 - 24) - 0)
    as [ | d | d] eqn:Ed; inversion E; subst; clear E.
  - apply binary_round_aux_finite; cbn; lia.
  - apply binary_round_aux_finite; cbn; lia.
  - apply binary_round_aux_finite; [lia | | lia].
    cbn [Zdigits2]. rewrite digits2_pos_iter_xO. lia.
Qed.

(** *** Conversion of a positive [U32] to float is a positive number *)

Lemma shr_1_div2 (r : shr_record) :
  0 <= shr_m r -> shr_m (shr_1 r) = Z.div2 (shr_m r).
Proof.
  destruct r as [m b s]; cbn. intros Hm.
  destruct m as [ | [q | q | ] | q ]; cbn; trivial; lia.
Qed.

Lemma iter_shr_1_shiftr (n : positive) : forall r : shr_record,
  0 <= shr_m r ->
  shr_m (SpecFloat.iter_pos shr_1 n r) = Z.shiftr (shr_m r) (Zpos n).
Proof.
  induction n as [n IH | n IH | ]; intros r Hr; cbn [SpecFloat.iter_pos].
  - pose proof (shr_1_bounds r Hr) as [H1 _].
    pose proof (iter_shr_1_bounds n _ H1) as [H2 _].
    rewrite IH, IH, shr_1_div2 by assumption.
    rewrite Z.div2_spec, !Z.shiftr_shiftr by lia. f_equal. lia.
  - pose proof (iter_shr_1_bounds n _ Hr) as [H2 _].
    rewrite IH, IH by assumption.
    rewrite Z.shiftr_shiftr by lia. f_equal. lia.
  - rewrite shr_1_div2 by assumption. apply Z.div2_spec.
Qed.

Lemma digits2_pos_lower (m : positive) :
  2 ^ (Zpos (digits2_pos m) - 1) <= Zpos m.
Proof.
  induction m as [m IH | m IH | ]; cbn [digits2_pos].
  - rewrite Pos2Z.inj_succ.
    replace (Z.succ (Zpos (digits2_pos m)) - 1)
      with (Z.succ (Zpos (digits2_pos m) - 1)) by lia.
    rewrite Z.pow_succ_r by lia. lia.
  - rewrite Pos2Z.inj_succ.
    replace (Z.succ (Zpos (digits2_pos m)) - 1)
      with (Z.succ (Zpos (digits2_pos m) - 1)) by lia.
    rewrite Z.pow_succ_r by lia. lia.
  - cbn. lia.
Qed.

Lemma shr_fexp_positive (m e : Z) (l : location) :
  0 < m -> -148 <= e ->
  0 < shr_m (fst (shr_fexp 24 128 m e l)).
Proof.
  intros Hm He. unfold shr_fexp, shr.
  assert (Hrec : shr_m (shr_record_of_loc m l) = m)
    by (destruct l as [ | [ | | ]]; reflexivity).
  destruct m as [ | q | q]; try lia. cbn [Zdigits2].
  destruct (fexp 24 128 (Zpos (digits2_pos q) + e) - e) as [ | n | n] eqn:E;
    cbn [fst]; rewrite ?Hrec; try lia.
  rewrite iter_shr_1_shiftr by (rewrite Hrec; lia). rewrite Hrec.
  rewrite Z.shiftr_div_pow2 by lia.
  apply Z.div_str_pos. split; [apply Z.pow_pos_nonneg; lia | ].
  eapply Z.le_trans; [ | apply digits2_pos_lower].
  apply Z.pow_le_mono_r; [lia | ].
  unfold fexp, emin in E. lia.
Qed.

Lemma round_nearest_even_positive (m : Z) (l : location) :
  0 < m -> 0 < round_nearest_even m l.
Proof.
  intros Hm. destruct l as [ | [ | | ]]; cbn; try lia.
  destruct (Z.even m); lia.
Qed.

Lemma binary_round_aux_positive (sx : bool) (mx ex : Z) (lx : location) :
  0 < mx -> Zdigits2 mx <= 40 -> -148 <= ex <= 40 ->
  exists m e, binary_round_aux 24 128 sx mx ex lx = S754_finite sx m e.
Proof.
  intros Hm Hd He. unfold binary_round_aux.
  pose proof (shr_fexp_bounds mx ex lx ltac:(lia)) as H1. cbn zeta in H1.
  pose proof (shr_fexp_positive mx ex lx Hm ltac:(lia)) as P1.
  destruct (shr_fexp 24 128 mx ex lx) as [mrs' e'] eqn:E1.
  cbn [fst snd] in H1, P1. destruct H1 as (Hm1 & Hd1 & He1).
  pose proof (round_nearest_even_positive (shr_m mrs')
                (loc_of_shr_record mrs') P1) as P2.
  destruct (round_nearest_even_bounds (shr_m mrs') (loc_of_shr_record mrs') Hm1)
    as [Hm2 Hd2].
  pose proof (shr_fexp_bounds
                (round_nearest_even (shr_m mrs') (loc_of_shr_record mrs'))
                e' loc_Exact Hm2) as H3.
  cbn zeta in H3.
  assert (He' : -148 <= e') by lia.
  pose proof (shr_fexp_positive _ e' loc_Exact P2 He') as P3.
  destruct (shr_fexp 24 128 _ e' loc_Exact) as [mrs'' e''] eqn:E2.
  cbn [fst snd] in H3, P3. destruct H3 as (Hm3 & Hd3 & He3).
  pose proof (Zdigits2_nonneg mx).
  pose proof (Zdigits2_nonneg (shr_m mrs')).
  unfold fexp, emin in *.
  destruct (shr_m mrs'') as [ | q | q]; try lia.
  replace (e'' <=? 128 - 24) with true; [eauto | ].
  symmetry. apply Z.leb_le. lia.
Qed.

Lemma f32_of_Z_positive (n : Z) :
  0 < n < 2 ^ 32 -> exists m e, f32_of_Z n = S754_finite false m e.
Proof.
  intros Hn. unfold f32_of_Z, binary_normalize.
  destruct n as [ | q | q]; try lia.
  unfold binary_round.
  assert (Hd : Zpos (digits2_pos q) <= 32)
    by (apply digits2_pos_bound; lia).
  destruct (shl_align q 0 (fexp 24 128 (Z.pos (digits2_pos q) + 0)))
    as [mz ez] eqn:E.
  unfold shl_align, fexp, emin in E.
  destruct (Z.max (Z.pos (digits2_pos q) + 0 - 24) (3 - 128 - 24) - 0)
    as [ | d | d] eqn:Ed; inversion E; subst; clear E.
  - apply binary_round_aux_positive; cbn; lia.
  - apply binary_round_aux_positive; cbn; lia.
  - apply binary_round_aux_positive; [lia | | lia].
    cbn [Zdigits2]. rewrite digits2_pos_iter_xO. lia.
Qed.

(** ** Facts about the multimap *)

Section MultimapFacts.
Context {V : Type}.
Implicit Types (m : multimap V) (k : Z).

Lemma emplace_keys k (v : V) m (P : Z -> Prop) :
  P k -> Forall (fun e => P (fst e)) m ->
  Forall (fun e => P (fst e)) (emplace k v m).
Proof.
  intros Hk. induction 1 as [ | [k' v'] rest Hh Ht IH]; cbn.
  - repeat constructor. exact Hk.
  - destruct (k <? k'); repeat constructor; assumption.
Qed.

Lemma emplace_sorted k (v : V) m :
  sorted_keys m -> sorted_keys (emplace k v m).
Proof.
  induction m as [ | [k' v'] rest IH]; cbn.
  - intros _. split; [constructor | exact I].
  - intros [Hall Hs]. destruct (k <? k') eqn:E.
    + apply Z.ltb_lt in E. cbn. repeat split; try assumption.
      constructor; [cbn; lia | ].
      eapply Forall_impl; [exact Hall | ]. cbn. intros; lia.
    + apply Z.ltb_ge in E. cbn. split; [ | apply IH, Hs].
      apply (emplace_keys k v rest (fun x => k' <= x)); assumption.
Qed.

Lemma filter_above k m :
  Forall (fun e => k < fst e) m -> List.filter (fun e => fst e =? k) m = [].
Proof.
  induction 1 as [ | e rest He _ IH]; cbn; [reflexivity | ].
  replace (fst e =? k) with false; [exact IH | ].
  symmetry. apply Z.eqb_neq. lia.
Qed.

Lemma up_to_upper_bound_filter k m :
  Forall (fun e => k <= fst e) m -> sorted_keys m ->
  up_to_upper_bound k m = List.filter (fun e => fst e =? k) m.
Proof.
  induction m as [ | [k' v'] rest IH]; cbn; [reflexivity | ].
  intros Hge [Hall Hs]. inversion Hge as [ | ? ? Hk Hrest]; subst.
  cbn in Hk. destruct (k <? k') eqn:E.
  - apply Z.ltb_lt in E. replace (k' =? k) with false
      by (symmetry; apply Z.eqb_neq; lia).
    symmetry. apply filter_above.
    eapply Forall_impl; [exact Hall | ]. cbn. intros; lia.
  - apply Z.ltb_ge in E. assert (k' = k) by lia. subst k'.
    rewrite Z.eqb_refl. f_equal. apply IH; assumption.
Qed.

(** On a multimap in key order, [equal_range] returns the entries of the
    key and no other. *)
Lemma equal_range_filter k m :
  sorted_keys m ->
  equal_range k m = List.filter (fun e => fst e =? k) m.
Proof.
  unfold equal_range.
  induction m as [ | [k' v'] rest IH]; cbn; [reflexivity | ].
  intros [Hall Hs]. destruct (k' <? k) eqn:E.
  - apply Z.ltb_lt in E. replace (k' =? k) with false
      by (symmetry; apply Z.eqb_neq; lia).
    apply IH, Hs.
  - apply Z.ltb_ge in E.
    change (up_to_upper_bound k ((k', v') :: rest) =
            List.filter (fun e => fst e =? k) ((k', v') :: rest)).
    apply up_to_upper_bound_filter; cbn; [ | split; assumption].
    constructor; [cbn; lia | ].
    eapply Forall_impl; [exact Hall | ]. cbn. intros; lia.
Qed.

End MultimapFacts.

(** ** Facts about the decoder *)

Lemma read_bytes_where (n : nat) : forall data w w' bs,
  read_bytes n data w = Ok (w', bs) ->
  w' = w + Z.of_nat n /\ length bs = n.
Proof.
  induction n as [ | n IH]; intros data w w' bs; cbn.
  - intros [= <- <-]. split; [lia | reflexivity].
  - destruct (vector_at data (w + 1)) as [b | | ]; cbn; try discriminate.
    destruct (read_bytes n data (w + 1)) as [[w1 bs1] | | ] eqn:E; cbn;
      try discriminate.
    intros [= <- <-]. destruct (IH _ _ _ _ E) as [-> Hl].
    split; [lia | cbn; congruence].
Qed.

Lemma bind_Ok {A B} (m : outcome A) (f : A -> outcome B) (b : B) :
  (m ≫= f) = Ok b -> exists a, m = Ok a /\ f a = Ok b.
Proof. destruct m as [a | | ]; cbn; try discriminate. eauto. Qed.

(** One step through a bind whose first part has returned. *)
Ltac bind_ok := change (Ok ?a ≫= ?f) with (f a); cbv beta iota.

(** Every round of the loop moves [where] forward and keeps the events in
    key order. *)
Lemma load_command_step data w s w' s' :
  load_command data w s = Ok (w', s') ->
  w < w' /\ (sorted_keys (commands s) -> sorted_keys (commands s')).
Proof.
  unfold load_command. intros H.
  apply bind_Ok in H as (b & _ & H).
  apply bind_Ok in H as ([c n] & Hc & H).
  apply bind_Ok in H as ([w1 cd] & Hr & H).
  apply read_bytes_where in Hr as [-> _].
  assert (Hn : 0 <= n).
  { unfold byte_sizes_at in Hc. destruct (command_type.of_byte b); [ | discriminate].
    injection Hc as <- <-. destruct t; cbn; lia. }
  apply bind_Ok in H as ([w2 s2] & Hcase & H).
  injection H as <- <-.
  assert (w + Z.of_nat (Z.to_nat n) <= w2 /\
          (sorted_keys (commands s) -> sorted_keys (commands s2))) as [Hw Hs];
    [ | split; [lia | exact Hs]].
  destruct c; cbn in Hcase;
    repeat match type of Hcase with
      | (let '(_, _) := ?x in _) = _ => destruct x
      end;
    try (apply bind_Ok in Hcase as ([w3 wave] & Hr & Hcase);
         apply read_bytes_where in Hr as [-> _]);
    injection Hcase as <- <-; cbn; (split; [lia | ]);
    intros Hs; apply emplace_sorted; exact Hs.
Qed.

(** The fuel of [load_loop] does not show: any two amounts that cover the
    bytes left give the same result. *)
Lemma load_loop_fuel (f1 : nat) : forall (f2 : nat) data w s,
  Z.of_nat (length data) - w <= Z.of_nat f1 ->
  Z.of_nat (length data) - w <= Z.of_nat f2 ->
  load_loop f1 data w s = load_loop f2 data w s.
Proof.
  induction f1 as [ | f1 IH]; intros [ | f2] data w s H1 H2; cbn;
    try reflexivity.
  - replace (w <? Z.of_nat (length data)) with false; [reflexivity | ].
    symmetry. apply Z.ltb_ge. lia.
  - replace (w <? Z.of_nat (length data)) with false; [reflexivity | ].
    symmetry. apply Z.ltb_ge. lia.
  - destruct (w <? Z.of_nat (length data)); [ | reflexivity].
    destruct (load_command data w s) as [[w' s'] | | ] eqn:E; cbn;
      try reflexivity.
    apply load_command_step in E as [Hw _]. apply IH; lia.
Qed.

(** The loop equation of [while (where < end)]. *)
Lemma load_loop_unfold (fuel fuel' : nat) data w s :
  Z.of_nat (length data) - w <= Z.of_nat fuel ->
  Z.of_nat (length data) - w - 1 <= Z.of_nat fuel' ->
  load_loop fuel data w s =
  if w <? Z.of_nat (length data) then
    '(w', s') ← load_command data w s; load_loop fuel' data w' s'
  else Ok s.
Proof.
  intros Hf Hf'. destruct fuel as [ | fuel]; cbn.
  - replace (w <? Z.of_nat (length data)) with false; [reflexivity | ].
    symmetry. apply Z.ltb_ge. lia.
  - destruct (w <? Z.of_nat (length data)) eqn:Hlt; [ | reflexivity].
    destruct (load_command data w s) as [[w' s'] | | ] eqn:E; cbn;
      try reflexivity.
    apply load_command_step in E as [Hw _]. apply Z.ltb_lt in Hlt.
    apply load_loop_fuel; lia.
Qed.

Lemma load_loop_sorted (fuel : nat) : forall data w s s',
  sorted_keys (commands s) -> load_loop fuel data w s = Ok s' ->
  sorted_keys (commands s').
Proof.
  induction fuel as [ | fuel IH]; intros data w s s' Hs; cbn.
  - intros [= <-]. exact Hs.
  - destruct (w <? Z.of_nat (length data)); [ | intros [= <-]; exact Hs].
    destruct (load_command data w s) as [[w1 s1] | | ] eqn:E; cbn;
      try discriminate.
    apply load_command_step in E as [_ Hs1]. apply IH, Hs1, Hs.
Qed.

(** A decoded song has its events in key order. *)
Lemma load_sorted data s :
  load data = Ok s -> sorted_keys (commands s).
Proof.
  unfold load. intros H.
  apply bind_Ok in H as (m0 & _ & H). apply bind_Ok in H as (m1 & _ & H).
  apply bind_Ok in H as (m2 & _ & H). apply bind_Ok in H as (m3 & _ & H).
  destruct (negb _); [discriminate | ].
  eapply load_loop_sorted; [ | exact H]. exact I.
Qed.

(** *** Records are decoded where they stand *)

Lemma vector_at_app_r {A} (pre l : list A) (i : Z) :
  0 <= i ->
  vector_at (pre ++ l) (Z.of_nat (length pre) + i) = vector_at l i.
Proof.
  intros Hi. unfold vector_at. rewrite length_app.
  replace (0 <=? Z.of_nat (length pre) + i) with true
    by (symmetry; apply Z.leb_le; lia).
  replace (0 <=? i) with true by (symmetry; apply Z.leb_le; lia).
  replace (Z.to_nat (Z.of_nat (length pre) + i))
    with (length pre + Z.to_nat i)%nat by lia.
  rewrite lookup_app_r by lia.
  replace (length pre + Z.to_nat i - length pre)%nat with (Z.to_nat i) by lia.
  destruct (i <? Z.of_nat (length l)) eqn:E.
  - replace (Z.of_nat (length pre) + i <? Z.of_nat (length pre + length l)%nat)
      with true by (symmetry; apply Z.ltb_lt; apply Z.ltb_lt in E; lia).
    reflexivity.
  - replace (Z.of_nat (length pre) + i <? Z.of_nat (length pre + length l)%nat)
      with false by (symmetry; apply Z.ltb_ge; apply Z.ltb_ge in E; lia).
    reflexivity.
Qed.

Lemma read_bytes_app_r (n : nat) : forall (pre l : list Z) (w : Z),
  0 <= w ->
  read_bytes n (pre ++ l) (Z.of_nat (length pre) + w) =
  '(w', bs) ← read_bytes n l w; Ok (Z.of_nat (length pre) + w', bs).
Proof.
  induction n as [ | n IH]; intros pre l w Hw; cbn; [reflexivity | ].
  replace (Z.of_nat (length pre) + w + 1)
    with (Z.of_nat (length pre) + (w + 1)) by lia.
  rewrite vector_at_app_r by lia.
  destruct (vector_at l (w + 1)) as [b | | ]; cbn; try reflexivity.
  rewrite IH by lia.
  destruct (read_bytes n l (w + 1)) as [[w1 bs] | | ]; reflexivity.
Qed.

(** A round of the decoder reads relative to [where]: bytes in front of it
    do not matter. *)
Lemma load_command_app_r (pre l : list Z) (w : Z) (s : song) :
  0 <= w ->
  load_command (pre ++ l) (Z.of_nat (length pre) + w) s =
  '(w', s') ← load_command l w s; Ok (Z.of_nat (length pre) + w', s').
Proof.
  intros Hw. unfold load_command.
  rewrite vector_at_app_r by lia.
  destruct (vector_at l w) as [b | | ]; cbn; try reflexivity.
  destruct (byte_sizes_at b) as [[c n] | | ]; cbn; try reflexivity.
  rewrite read_bytes_app_r by lia.
  destruct (read_bytes (Z.to_nat n) l w) as [[w1 cd] | | ] eqn:E; cbn;
    try reflexivity.
  apply read_bytes_where in E as [-> _].
  destruct c; cbn;
    repeat match goal with
      | |- context [let '(_, _) := ?x in _] => destruct x
      end;
    try (rewrite read_bytes_app_r by lia;
         match goal with
         | |- context [read_bytes ?k l ?x] =>
             destruct (read_bytes k l x) as [[w2 wave] | | ]
         end);
    cbn; try reflexivity; do 2 f_equal; lia.
Qed.

Lemma vector_at_app_l {A} (l post : list A) (i : Z) (a : A) :
  vector_at l i = Ok a -> vector_at (l ++ post) i = Ok a.
Proof.
  unfold vector_at. rewrite length_app.
  destruct (0 <=? i) eqn:H0; cbn; [ | discriminate].
  destruct (i <? Z.of_nat (length l)) eqn:H1; [ | discriminate].
  apply Z.leb_le in H0. apply Z.ltb_lt in H1.
  replace (i <? Z.of_nat (length l + length post)) with true
    by (symmetry; apply Z.ltb_lt; lia).
  rewrite lookup_app_l by lia. trivial.
Qed.

Lemma read_bytes_app_l (n : nat) : forall (l post : list Z) (w : Z) r,
  read_bytes n l w = Ok r -> read_bytes n (l ++ post) w = Ok r.
Proof.
  induction n as [ | n IH]; intros l post w r; cbn; [trivial | ].
  destruct (vector_at l (w + 1)) as [b | | ] eqn:Eb; cbn; try discriminate.
  rewrite (vector_at_app_l _ _ _ _ Eb). cbn.
  destruct (read_bytes n l (w + 1)) as [[w1 bs] | | ] eqn:E; cbn;
    try discriminate.
  rewrite (IH _ post _ _ E). trivial.
Qed.

(** A round that succeeds does not look at the bytes behind its record. *)
Lemma load_command_app_l (l post : list Z) (w : Z) (s : song) r :
  load_command l w s = Ok r -> load_command (l ++ post) w s = Ok r.
Proof.
  unfold load_command.
  destruct (vector_at l w) as [b | | ] eqn:Eb; cbn; try discriminate.
  rewrite (vector_at_app_l _ _ _ _ Eb). cbn.
  destruct (byte_sizes_at b) as [[c n] | | ]; cbn; try discriminate.
  destruct (read_bytes (Z.to_nat n) l w) as [[w1 cd] | | ] eqn:E; cbn;
    try discriminate.
  rewrite (read_bytes_app_l _ _ post _ _ E). cbn.
  destruct c; cbn;
    repeat match goal with
      | |- context [let '(_, _) := ?x in _] => destruct x
      end;
    try (match goal with
         | |- context [read_bytes ?k l ?x] =>
             destruct (read_bytes k l x) as [[w2 wave] | | ] eqn:E2;
             cbn; try discriminate;
             rewrite (read_bytes_app_l _ _ post _ _ E2)
         end);
    cbn; trivial.
Qed.

(** An EndOfTrack record, wherever it stands in the stream. *)
Lemma load_command_end_of_track_at (pre post : list Z) (b0 b1 b2 b3 : Z)
    (s : song) :
  load_command (pre ++ [0xFE; b0; b1; b2; b3] ++ post)
               (Z.of_nat (length pre)) s =
  Ok (Z.of_nat (length pre) + 5,
      set_ticks_end
        (set_commands s (emplace (ticks_end s) command_end_of_track
                                 (commands s)))
        (le32 b0 b1 b2 b3)).
Proof.
  replace (Z.of_nat (length pre)) with (Z.of_nat (length pre) + 0) at 1 by lia.
  rewrite load_command_app_r by lia.
  erewrite load_command_app_l by reflexivity. reflexivity.
Qed.

(** C4.  The decoder does set [ticks_end] to the tick [t] carried by an
    EndOfTrack record, but it indexes the EndOfTrack event first, at the
    value that [ticks_end] had before the record: tick 0 for the first such
    record of a stream, whatever [t] is.  This holds for a record anywhere in
    the stream, for a stream that is just the magic and the record, and for
    the stream of a song that ends at tick 48000. *)
Theorem end_of_track_indexed_at_previous_ticks_end :
  (forall (pre post : list Z) (b0 b1 b2 b3 : Z) (s : song),
     load_command (pre ++ [0xFE; b0; b1; b2; b3] ++ post)
                  (Z.of_nat (length pre)) s =
     Ok (Z.of_nat (length pre) + 5,
         set_ticks_end
           (set_commands s (emplace (ticks_end s) command_end_of_track
                                    (commands s)))
           (le32 b0 b1 b2 b3))) /\
  (forall b0 b1 b2 b3 : Z,
     load (axsd_magic ++ [0xFE; b0; b1; b2; b3]) =
     Ok (set_ticks_end (set_commands song_empty [(0, command_end_of_track)])
                       (le32 b0 b1 b2 b3))) /\
  load (axsd_header ++ [0xFE; 0x80; 0xBB; 0; 0]) =
  Ok {| version := 3; ticks_end := 48000; ticks_per_second := 48000;
        commands := [(0, command_version 3); (0, command_rate 48000);
                     (0, command_end_of_track)];
        patches := ∅; drums := ∅ |}.
Proof.
  split; [exact load_command_end_of_track_at | ].
  split; [intros; reflexivity | vm_compute; reflexivity].
Qed.

(** ** The decoder and [play] on small streams *)

Example load_bad_magic :
  load [0; 0; 0; 0; 0xFC; 3; 0]
    = Throw (runtime_error "First 4 bytes of this song are not 'AXSD'!").
Proof. reflexivity. Qed.

Example load_unknown_tag : load (axsd_magic ++ [0x05]) = Throw out_of_range.
Proof. reflexivity. Qed.

Example load_truncated_payload :
  load (axsd_magic ++ [0x01; 0; 0; 0; 0; 9]) = Throw out_of_range.
Proof. reflexivity. Qed.

Example load_truncated_waveform :
  load (axsd_magic ++ drum_record 0 0 0x80 0x3F ++ [0x81; 7; 3; 0; 0; 0;
                       0; 0; 0x80; 0x3F; 0; 0; 0x80; 0x3F; 0; 0; 0x80; 0x3F;
                       1; 2])
    = Throw out_of_range.
Proof. vm_compute. reflexivity. Qed.

Example load_short_buffer : load [0x41; 0x58; 0x53] = Undefined ub_index.
Proof. reflexivity. Qed.

(** [std::map::insert] keeps the first patch of a program. *)
Example load_first_drum_wins :
  exists s d,
    load (axsd_magic ++ drum_record 0 0 0x80 0x3F ++ drum_record 0 0 0xC0 0x7F)
      = Ok s /\
    drums s !! 42 = Some d /\ gain_R d = f32_of_Z 1 /\
    commands s = [(0, command_drum_data); (0, command_drum_data)].
Proof.
  eexists. eexists. split; [vm_compute; reflexivity | ].
  split; [vm_compute; reflexivity | ]. split; reflexivity.
Qed.

(** A stream whose Version record carries 2 decodes, and [play] rejects
    it. *)
Example play_rejects_version_2 :
  exists s,
    load (axsd_magic ++ [0xFC; 2; 0] ++ [0xFE; 0; 0; 0; 0]) = Ok s /\
    snd (play example_player s None)
      = Throw (runtime_error "Version mismatch in wanted song").
Proof. eexists. split; [vm_compute; reflexivity | reflexivity]. Qed.

(** The events of one tick keep the order of the stream, and the ticks come
    in increasing order whatever the order of the records. *)
Example load_orders_events :
  exists s,
    load (axsd_magic ++ [0x02; 9; 0; 0; 0; 1] ++ [0x04; 2; 0; 0; 0; 1; 7]
                     ++ [0x02; 2; 0; 0; 0; 3])
      = Ok s /\
    commands s = [(2, command_program_change 1 7); (2, command_note_off 3);
                  (9, command_note_off 1)].
Proof. eexists. split; [vm_compute; reflexivity | reflexivity]. Qed.

(** ** [play] and [pause] *)

(** C9. When the song's version is not 3, [play] throws the version-mismatch
    error after it has installed the song and the echo configuration,
    replaced the sixteen groups (slot 9 holds a new drum group, every other
    slot a new melodic group with no bend, none of them with a voice),
    cleared every one of the sixteen [patch_ids] entries, zeroed
    [seconds_elapsed] and computed [seconds_end]; [playback], [on_voices],
    [cursor], [echo_cursor] and [last_cursor] keep the values they had before
    the call, so a player that was playing still has [playback == true], now
    with the rejected song as [current]. *)
Theorem play_version_mismatch (p : player) (next : song)
    (env : option environment) :
  version next <> CURRENT_VERSION ->
  let p' := fst (play p next env) in
  snd (play p next env)
    = Throw (runtime_error "Version mismatch in wanted song") /\
  current p' = next /\
  env_params p' = env /\
  length (channels p') = 16%nat /\
  (forall i, (i < 16)%nat ->
     channels p' !! i
       = Some (Some (if Nat.eqb i 9 then drum_group []
                     else voice_group [] f32_zero))) /\
  channels p' = fresh_channels /\
  length (patch_ids p') = 16%nat /\
  (forall i, (i < 16)%nat -> patch_ids p' !! i = Some None) /\
  patch_ids p' = replicate 16 None /\
  seconds_elapsed p' = f32_zero /\
  seconds_end p'
    = f32_div (f32_of_Z (ticks_end next)) (f32_of_Z (ticks_per_second next)) /\
  playback p' = playback p /\
  on_voices p' = on_voices p /\
  cursor p' = cursor p /\
  echo_cursor p' = echo_cursor p /\
  last_cursor p' = last_cursor p /\
  (playback p = true -> playback p' = true /\ current p' = next).
Proof.
  intros Hv. unfold play. cbn.
  replace (version next =? CURRENT_VERSION) with false
    by (symmetry; apply Z.eqb_neq; exact Hv).
  cbn [fst snd current env_params channels patch_ids seconds_elapsed
       seconds_end playback on_voices cursor echo_cursor last_cursor].
  split; [reflexivity | ]. split; [reflexivity | ]. split; [reflexivity | ].
  split; [reflexivity | ].
  split.
  { intros i Hi.
    do 16 (destruct i as [ | i]; [reflexivity | ]). lia. }
  split; [reflexivity | ]. split; [reflexivity | ].
  split.
  { intros i Hi.
    do 16 (destruct i as [ | i]; [reflexivity | ]). lia. }
  repeat split; trivial.
Qed.

Lemma play_version_mismatch_witness :
  version song_empty <> CURRENT_VERSION /\
  playback example_playing = true /\
  snd (play example_playing song_empty None)
    = Throw (runtime_error "Version mismatch in wanted song") /\
  channels (fst (play example_playing song_empty None)) !! 9%nat
    = Some (Some (drum_group [])) /\
  channels (fst (play example_playing song_empty None)) !! 0%nat
    = Some (Some (voice_group [] f32_zero)) /\
  playback (fst (play example_playing song_empty None)) = true /\
  current (fst (play example_playing song_empty None)) = song_empty.
Proof.
  assert (H : version song_empty <> CURRENT_VERSION) by discriminate.
  split; [exact H | ]. split; [reflexivity | ].
  pose proof (play_version_mismatch example_playing song_empty None H)
    as (Hthrow & _ & _ & _ & Hgroups & _ & _ & _ & _ & _ & _ & _ & _ & _ & _
        & _ & Hplay).
  split; [exact Hthrow | ].
  split; [exact (Hgroups 9%nat ltac:(lia)) | ].
  split; [exact (Hgroups 0%nat ltac:(lia)) | ].
  exact (Hplay eq_refl).
Defined.

(** The fresh groups: sixteen of them, all without voices, the drum kit in
    slot 9 and nowhere else. *)
Lemma fresh_channels_spec :
  length fresh_channels = 16%nat /\
  forall i g, fresh_channels !! i = Some g ->
    exists ch, g = Some ch /\ voices ch = [] /\
               is_drum_kit ch = Nat.eqb i 9.
Proof.
  split; [reflexivity | ]. intros i g.
  do 16 (destruct i as [ | i]; [intros [= <-]; eexists; repeat split | ]).
  discriminate.
Qed.

(** When the version is 3, [play] resets the transient state and turns
    playback on. *)
Lemma play_accepts (p : player) (next : song) (env : option environment) :
  version next = CURRENT_VERSION ->
  play p next env =
  ({| seconds_elapsed := f32_zero;
      seconds_end := f32_div (f32_of_Z (ticks_end next))
                             (f32_of_Z (ticks_per_second next));
      frequency := frequency p; max_voices := max_voices p; on_voices := 0;
      echo_buffer_L := echo_buffer_L p; echo_buffer_R := echo_buffer_R p;
      echo_cursor := 0; env_params := env; cursor := 0; last_cursor := None;
      current := next; in_stereo := in_stereo p; channels := fresh_channels;
      patch_ids := replicate 16 None; playback := true |}, Ok tt).
Proof.
  intros Hv. unfold play. cbn. rewrite Hv. reflexivity.
Qed.

(** C8. [pause] sets [playback] to false and changes no other member of the
    player; calling it twice is the same as calling it once. *)
Theorem pause_only_stops_playback (p : player) :
  playback (pause p) = false /\
  seconds_elapsed (pause p) = seconds_elapsed p /\
  seconds_end (pause p) = seconds_end p /\
  frequency (pause p) = frequency p /\
  max_voices (pause p) = max_voices p /\
  on_voices (pause p) = on_voices p /\
  echo_buffer_L (pause p) = echo_buffer_L p /\
  echo_buffer_R (pause p) = echo_buffer_R p /\
  echo_cursor (pause p) = echo_cursor p /\
  env_params (pause p) = env_params p /\
  cursor (pause p) = cursor p /\
  last_cursor (pause p) = last_cursor p /\
  current (pause p) = current p /\
  in_stereo (pause p) = in_stereo p /\
  channels (pause p) = channels p /\
  patch_ids (pause p) = patch_ids p /\
  pause (pause p) = pause p.
Proof. repeat split. Qed.

(** ** Melodic accumulation *)

Lemma f32_to_u32_range (x : F32) (n : Z) :
  f32_to_u32 x = Ok n -> 0 <= n < 2 ^ 32.
Proof.
  destruct x as [s | s | | s m e]; cbn; try discriminate.
  - intros [= <-]. lia.
  - destruct s.
    + destruct (_ =? 0); [intros [= <-]; lia | discriminate].
    + destruct (_ <? 2 ^ 32) eqn:E; [ | discriminate].
      intros [= <-]. apply Z.ltb_lt in E. split; [ | exact E].
      destruct (0 <=? e); [apply Z.shiftl_nonneg | apply Z.shiftr_nonneg]; lia.
Qed.

Lemma wrap32_small (n : Z) : 0 <= n < 2 ^ 32 -> wrap32 n = n.
Proof. intros H. unfold wrap32. apply Z.mod_small. exact H. Qed.

(** The fold of a held voice on a looping patch. *)
Lemma loop_fold_held (patch : patch_t) (here : Z) :
  loop_start patch <> 0xFFFFFFFF ->
  0 <= loop_start patch < loop_end patch ->
  loop_end patch < here < 2 ^ 32 ->
  loop_fold patch true here
    = Ok ((here - loop_start patch) mod (loop_end patch - loop_start patch)
          + loop_start patch) /\
  loop_start patch
    <= (here - loop_start patch) mod (loop_end patch - loop_start patch)
       + loop_start patch
    < loop_end patch.
Proof.
  intros Hloop Hse Hh.
  pose proof (Z.mod_pos_bound (here - loop_start patch)
                (loop_end patch - loop_start patch) ltac:(lia)) as Hm.
  split; [ | lia].
  unfold loop_fold.
  replace (loop_start patch =? 0xFFFFFFFF) with false
    by (symmetry; apply Z.eqb_neq; exact Hloop).
  replace (loop_end patch <? here) with true
    by (symmetry; apply Z.ltb_lt; lia).
  cbn [negb andb].
  rewrite (wrap32_small (here - loop_start patch)) by lia.
  rewrite (wrap32_small (loop_end patch - loop_start patch)) by lia.
  replace (loop_end patch - loop_start patch =? 0) with false
    by (symmetry; apply Z.eqb_neq; lia).
  rewrite wrap32_small by lia. reflexivity.
Qed.

(** No fold for a released voice or a patch that does not loop. *)
Lemma loop_fold_none (patch : patch_t) (key_held : bool) (here : Z) :
  key_held = false \/ loop_start patch = 0xFFFFFFFF ->
  loop_fold patch key_held here = Ok here.
Proof.
  intros [-> | Hs]; unfold loop_fold.
  - destruct (_ && _); reflexivity.
  - rewrite Hs. reflexivity.
Qed.

Lemma sample_at_in_range (wave : list Z) (here : Z) :
  0 <= here < Z.of_nat (length wave) ->
  exists b, wave !! Z.to_nat here = Some b /\
    sample_at wave here
      = Ok (f32_div (f32_sub (f32_of_Z b) (f32_of_Z 128)) (f32_of_Z 128)).
Proof.
  intros Hh. unfold sample_at, vector_at.
  replace (0 <=? here) with true by (symmetry; apply Z.leb_le; lia).
  replace (here <? Z.of_nat (length wave)) with true
    by (symmetry; apply Z.ltb_lt; lia).
  cbn [andb].
  destruct (lookup_lt_is_Some_2 wave (Z.to_nat here) ltac:(lia)) as [b Hb].
  rewrite Hb. exists b. split; reflexivity.
Qed.

(** Zero times a finite velocity times a finite gain is a zero. *)
Lemma silent_term_zero (v : voice_single) (gain : F32) :
  is_finite (velocity v) = true -> is_finite gain = true ->
  is_zero (silent_term v gain) = true.
Proof.
  unfold silent_term, f32_mul, f32_zero.
  destruct (velocity v), gain; cbn; try discriminate; reflexivity.
Qed.

(** Adding a zero leaves a number that is not itself a zero as it is. *)
Lemma f32_add_zero (l z : F32) :
  is_zero z = true -> is_zero l = false -> f32_add l z = l.
Proof.
  destruct z; try discriminate. destruct l; try discriminate; reflexivity.
Qed.

(** C5, as amended.  A voice processed by the melodic accumulation against a
    patch that satisfies the patch invariant, [here] being the index computed
    from its phase.  On a looping patch with [here > loop_end] and the key
    held, the sample is read at
    [((here - loop_start) mod (loop_end - loop_start)) + loop_start], an index
    inside the loop.  With the key released or a patch that does not loop,
    an index [here >= waveform.size()] clears [active] and the sample of the
    voice is 0: each side of the mix receives [0 * velocity * gain], which is
    a zero when velocity and gain are finite. *)
Theorem voice_accumulate_loop_and_end (patch : patch_t) (v : voice_single)
    (l r : F32) (here : Z) :
  patch_invariant patch ->
  f32_to_u32 (f32_floor (f32_mul (ratio (patch_base patch)) (phase v)))
    = Ok here ->
  let base := patch_base patch in
  let advanced u := set_phase u (f32_add (phase v) (phase_add_by v)) in
  (loop_start patch <> 0xFFFFFFFF -> loop_end patch < here -> key v = true ->
   let folded :=
     (here - loop_start patch) mod (loop_end patch - loop_start patch)
     + loop_start patch in
   loop_fold patch (key v) here = Ok folded /\
   loop_start patch <= folded < loop_end patch /\
   exists b, waveform base !! Z.to_nat folded = Some b /\
     let sample :=
       f32_div (f32_sub (f32_of_Z b) (f32_of_Z 128)) (f32_of_Z 128) in
     voice_accumulate patch v l r
       = Ok (advanced v,
             f32_add l (f32_mul (f32_mul sample (velocity v)) (gain_L base)),
             f32_add r (f32_mul (f32_mul sample (velocity v)) (gain_R base))))
  /\
  (key v = false \/ loop_start patch = 0xFFFFFFFF ->
   Z.of_nat (length (waveform base)) <= here ->
   voice_accumulate patch v l r
     = Ok (advanced (set_active v false),
           f32_add l (silent_term v (gain_L base)),
           f32_add r (silent_term v (gain_R base))) /\
   active (advanced (set_active v false)) = false /\
   (is_finite (velocity v) = true -> is_finite (gain_L base) = true ->
    is_finite (gain_R base) = true ->
    is_zero (silent_term v (gain_L base)) = true /\
    is_zero (silent_term v (gain_R base)) = true)).
Proof.
  intros Hinv Hhere base advanced. subst base advanced.
  pose proof (f32_to_u32_range _ _ Hhere) as Hrange.
  split.
  - intros Hloop Hgt Hkey folded. subst folded.
    destruct Hinv as [Hno | [Hse Hlen]]; [contradiction | ].
    destruct (loop_fold_held patch here Hloop Hse ltac:(lia)) as [Hfold Hin].
    rewrite Hkey.
    split; [exact Hfold | ]. split; [exact Hin | ].
    match type of Hfold with _ = Ok ?f => set (folded := f) in * end.
    assert (Hin' : 0 <= folded < Z.of_nat (length (waveform (patch_base patch))))
      by lia.
    destruct (sample_at_in_range _ _ Hin') as (b & Hb & Hs).
    exists b. split; [exact Hb | ]. cbn zeta.
    unfold voice_accumulate. rewrite Hhere. cbn.
    rewrite Hkey, Hfold. cbn. unfold fetch_sample.
    replace (Z.of_nat (length (waveform (patch_base patch))) <=? _) with false
      by (symmetry; apply Z.leb_gt; lia).
    rewrite Hs. reflexivity.
  - intros Hcase Hend. split; [ | split; [reflexivity | ]].
    + unfold voice_accumulate. rewrite Hhere. cbn.
      rewrite (loop_fold_none patch (key v) here Hcase). cbn.
      unfold fetch_sample.
      replace (Z.of_nat (length (waveform (patch_base patch))) <=? here)
        with true by (symmetry; apply Z.leb_le; lia).
      reflexivity.
    + intros Hv HL HR. split; apply silent_term_zero; assumption.
Qed.

Lemma voice_accumulate_loop_and_end_witness :
  patch_invariant example_patch /\
  f32_to_u32 (f32_floor (f32_mul (ratio (patch_base example_patch))
                                 (phase example_voice))) = Ok 7 /\
  loop_fold example_patch (key example_voice) 7 = Ok 3 /\
  voice_accumulate example_patch (set_key example_voice false)
                   f32_zero f32_zero
    = Ok (set_phase (set_active (set_key example_voice false) false)
                    (f32_of_Z 8),
          f32_zero, f32_zero).
Proof.
  assert (Hinv : patch_invariant example_patch).
  { right. cbn. repeat split; discriminate. }
  assert (Hh : f32_to_u32 (f32_floor (f32_mul (ratio (patch_base example_patch))
                                              (phase example_voice))) = Ok 7)
    by reflexivity.
  split; [exact Hinv | ]. split; [exact Hh | ]. split.
  - refine (proj1 (proj1 (voice_accumulate_loop_and_end example_patch
                            example_voice f32_zero f32_zero 7 Hinv Hh) _ _ _)).
    + discriminate.
    + reflexivity.
    + reflexivity.
  - refine (proj1 (proj2 (voice_accumulate_loop_and_end example_patch
                            (set_key example_voice false) f32_zero f32_zero 7
                            Hinv Hh) _ _)).
    + left. reflexivity.
    + discriminate.
Defined.

(** The float product [0 * velocity * gain] is not 0 for every gain: against
    a patch whose left gain is +infinity, a voice that has run off the end
    of the waveform turns a left mix of 0 into NaN. *)
Lemma voice_accumulate_infinite_gain :
  patch_invariant example_patch_infinite_gain /\
  f32_to_u32 (f32_floor (f32_mul (ratio (patch_base example_patch_infinite_gain))
                                 (phase example_voice))) = Ok 7 /\
  voice_accumulate example_patch_infinite_gain example_voice f32_zero f32_zero
    = Ok (set_phase (set_active example_voice false) (f32_of_Z 8),
          f32_nan, f32_zero).
Proof.
  split; [left; reflexivity | ]. split; reflexivity.
Qed.

(** C5 as stated fails: a voice that runs off the end does not always add 0
    to the mix. *)
Lemma silent_voice_not_always_zero :
  ~ (forall (patch : patch_t) (v : voice_single) (l r : F32) (here : Z),
       patch_invariant patch ->
       f32_to_u32 (f32_floor (f32_mul (ratio (patch_base patch)) (phase v)))
         = Ok here ->
       key v = false \/ loop_start patch = 0xFFFFFFFF ->
       Z.of_nat (length (waveform (patch_base patch))) <= here ->
       exists v' zl zr,
         voice_accumulate patch v l r = Ok (v', f32_add l zl, f32_add r zr) /\
         active v' = false /\ is_zero zl = true /\ is_zero zr = true).
Proof.
  intros H.
  destruct voice_accumulate_infinite_gain as (Hinv & Hhere & Hrun).
  destruct (H example_patch_infinite_gain example_voice f32_zero f32_zero 7
              Hinv Hhere (or_intror eq_refl) ltac:(discriminate))
    as (v' & zl & zr & Hrun' & _ & Hzl & _).
  rewrite Hrun in Hrun'. injection Hrun' as _ Hl _.
  destruct zl as [[ | ] | | | ]; discriminate.
Qed.

(** ** Event dispatch *)

Lemma index_in_range {A} (v : list A) (i : Z) :
  0 <= i < Z.of_nat (length v) ->
  exists a, v !! Z.to_nat i = Some a /\ index v i = Ok a.
Proof.
  intros Hi. unfold index.
  replace (0 <=? i) with true by (symmetry; apply Z.leb_le; lia).
  replace (i <? Z.of_nat (length v)) with true
    by (symmetry; apply Z.ltb_lt; lia).
  destruct (lookup_lt_is_Some_2 v (Z.to_nat i) ltac:(lia)) as [a Ha].
  rewrite Ha. exists a. split; reflexivity.
Qed.

Lemma index_out_of_range {A} (v : list A) (i : Z) :
  Z.of_nat (length v) <= i -> index v i = Undefined ub_index.
Proof.
  intros Hi. unfold index.
  replace (i <? Z.of_nat (length v)) with false
    by (symmetry; apply Z.ltb_ge; lia).
  rewrite andb_false_r. reflexivity.
Qed.

Lemma index_set_out_of_range {A} (v : list A) (i : Z) (a : A) :
  Z.of_nat (length v) <= i -> index_set v i a = Undefined ub_index.
Proof.
  intros Hi. unfold index_set.
  replace (i <? Z.of_nat (length v)) with false
    by (symmetry; apply Z.ltb_ge; lia).
  rewrite andb_false_r. reflexivity.
Qed.

Lemma vector_at_in_range {A} (v : list A) (i : Z) :
  0 <= i < Z.of_nat (length v) ->
  exists a, v !! Z.to_nat i = Some a /\ vector_at v i = Ok a.
Proof.
  intros Hi. unfold vector_at.
  replace (0 <=? i) with true by (symmetry; apply Z.leb_le; lia).
  replace (i <? Z.of_nat (length v)) with true
    by (symmetry; apply Z.ltb_lt; lia).
  destruct (lookup_lt_is_Some_2 v (Z.to_nat i) ltac:(lia)) as [a Ha].
  rewrite Ha. exists a. split; reflexivity.
Qed.

Lemma vector_at_Ok {A} (v : list A) (i : Z) (a : A) :
  vector_at v i = Ok a ->
  0 <= i < Z.of_nat (length v) /\ v !! Z.to_nat i = Some a.
Proof.
  unfold vector_at.
  destruct (0 <=? i) eqn:H0; [ | discriminate].
  destruct (i <? Z.of_nat (length v)) eqn:H1; [ | discriminate]. cbn.
  destruct (v !! Z.to_nat i) as [b | ]; [ | discriminate].
  intros [= <-]. apply Z.leb_le in H0. apply Z.ltb_lt in H1. auto.
Qed.

Lemma index_lookup {A} (v : list A) (i : Z) (a : A) :
  0 <= i -> v !! Z.to_nat i = Some a -> index v i = Ok a.
Proof.
  intros Hi Ha. unfold index.
  pose proof (lookup_lt_Some _ _ _ Ha) as Hlt.
  replace (0 <=? i) with true by (symmetry; apply Z.leb_le; lia).
  replace (i <? Z.of_nat (length v)) with true
    by (symmetry; apply Z.ltb_lt; lia).
  cbn. rewrite Ha. reflexivity.
Qed.

Lemma voices_set_voices (ch : voice_group_base) (vs : list voice_single) :
  voices (set_voices ch vs) = vs /\
  is_drum_kit (set_voices ch vs) = is_drum_kit ch.
Proof. destruct ch; split; reflexivity. Qed.

Lemma channel_voices_store (p : player) (c : Z) (ch : voice_group_base)
    (g : option voice_group_base) :
  channels p !! Z.to_nat c = Some g ->
  channels (store_channel p c ch) !! Z.to_nat c = Some (Some ch) /\
  channel_voices (store_channel p c ch) (Z.to_nat c) = voices ch.
Proof.
  intros Hg. pose proof (lookup_lt_Some _ _ _ Hg) as Hlt.
  unfold channel_voices, store_channel. cbn.
  rewrite list_lookup_insert_eq by exact Hlt. split; reflexivity.
Qed.

Section DispatchFacts.

Variable powf : F32 -> F32 -> F32.

Lemma dispatch_meta (p : player) (e : command) :
  is_meta e = true -> dispatch powf p e = Ok p.
Proof. destruct e; cbn; trivial; discriminate. Qed.

Lemma dispatch_all_meta (es : list command) : forall p,
  Forall (fun e => is_meta e = true) es -> dispatch_all powf p es = Ok p.
Proof.
  induction es as [ | e es IH]; intros p H; cbn; [reflexivity | ].
  inversion H; subst. rewrite dispatch_meta by assumption. cbn. auto.
Qed.

Lemma same_outside_channels_refl (p : player) : same_outside_channels p p.
Proof. repeat split. Qed.

Lemma same_outside_channels_trans (p q r : player) :
  same_outside_channels p q -> same_outside_channels q r ->
  same_outside_channels p r.
Proof.
  unfold same_outside_channels. intros H1 H2.
  repeat match goal with H : _ /\ _ |- _ => destruct H end.
  repeat split; congruence.
Qed.

Lemma dispatch_frame (p p' : player) (e : command) :
  dispatch powf p e = Ok p' -> same_outside_channels p p'.
Proof.
  destruct e; cbn;
    try (intros [= <-]; apply same_outside_channels_refl).
  - destruct (on_voices p <? max_voices p);
      [ | intros [= <-]; apply same_outside_channels_refl].
    destruct (index (channels p) channel) as [[g | ] | | ]; cbn;
      try discriminate.
    intros [= <-]. repeat split.
  - destruct (index (channels p) channel) as [[g | ] | | ]; cbn;
      try discriminate.
    intros [= <-]. repeat split.
  - destruct (index (channels p) channel) as [[[vs b | vs] | ] | | ]; cbn;
      try discriminate; intros [= <-]; repeat split.
  - destruct (index_set (patch_ids p) channel (Some program)); cbn;
      try discriminate.
    intros [= <-]. repeat split.
Qed.

Lemma dispatch_all_frame (es : list command) : forall p p',
  dispatch_all powf p es = Ok p' -> same_outside_channels p p'.
Proof.
  induction es as [ | e es IH]; intros p p'; cbn.
  - intros [= <-]. apply same_outside_channels_refl.
  - destruct (dispatch powf p e) as [p1 | | ] eqn:E; cbn; try discriminate.
    intros H. eapply same_outside_channels_trans.
    + eapply dispatch_frame, E.
    + apply IH, H.
Qed.

(** C10, as amended.  The decoder stores the channel byte of a NoteOn,
    NoteOff, PitchWheel or ProgramChange record as it is.  [dispatch] uses
    the byte as an unchecked index: NoteOff and PitchWheel index [channels],
    ProgramChange indexes [patch_ids], and NoteOn indexes [channels] when
    [on_voices < max_voices] and touches no array otherwise.  With a channel
    in 0..15 no access is past the end; with a channel of 16 or more every
    access that is made is past the end of its sixteen-element array. *)
Theorem dispatch_channel_unchecked (p : player) (e : command) (c : Z) :
  length (channels p) = 16%nat -> length (patch_ids p) = 16%nat ->
  channel_of e = Some c ->
  (0 <= c <= 15 -> dispatch powf p e <> Undefined ub_index) /\
  (16 <= c ->
   dispatch powf p e =
   match e with
   | command_note_on _ _ _ =>
       if on_voices p <? max_voices p then Undefined ub_index else Ok p
   | _ => Undefined ub_index
   end) /\
  (forall t0 t1 t2 t3 ch n v,
     load (axsd_magic ++ [0x01; t0; t1; t2; t3; ch; n; v]) =
     Ok (set_commands song_empty
           [(le32 t0 t1 t2 t3, command_note_on ch n v)])) /\
  (forall t0 t1 t2 t3 ch,
     load (axsd_magic ++ [0x02; t0; t1; t2; t3; ch]) =
     Ok (set_commands song_empty [(le32 t0 t1 t2 t3, command_note_off ch)])) /\
  (forall t0 t1 t2 t3 ch b0 b1 b2 b3,
     load (axsd_magic ++ [0x03; t0; t1; t2; t3; ch; b0; b1; b2; b3]) =
     Ok (set_commands song_empty
           [(le32 t0 t1 t2 t3,
             command_pitchwheel ch (bit_cast_S32 (le32 b0 b1 b2 b3)))])) /\
  (forall t0 t1 t2 t3 ch g,
     load (axsd_magic ++ [0x04; t0; t1; t2; t3; ch; g]) =
     Ok (set_commands song_empty
           [(le32 t0 t1 t2 t3, command_program_change ch g)])).
Proof.
  intros Hc Hp He. split; [ | split].
  - intros Hr.
    assert (Hi : 0 <= c < Z.of_nat (length (channels p))) by lia.
    destruct (index_in_range _ _ Hi) as (g & _ & Hg).
    destruct e; cbn in He; try discriminate; injection He as ->; cbn.
    + destruct (on_voices p <? max_voices p); [ | discriminate].
      rewrite Hg. cbn. destruct g; cbn; discriminate.
    + rewrite Hg. cbn. destruct g; cbn; discriminate.
    + rewrite Hg. cbn. destruct g as [[vs b | vs] | ]; cbn; discriminate.
    + unfold index_set.
      replace (0 <=? c) with true by (symmetry; apply Z.leb_le; lia).
      replace (c <? Z.of_nat (length (patch_ids p))) with true
        by (symmetry; apply Z.ltb_lt; lia).
      cbn. discriminate.
  - intros Hr.
    destruct e; cbn in He; try discriminate; injection He as ->; cbn.
    + destruct (on_voices p <? max_voices p); [ | reflexivity].
      rewrite index_out_of_range by lia. reflexivity.
    + rewrite index_out_of_range by lia. reflexivity.
    + rewrite index_out_of_range by lia. reflexivity.
    + rewrite index_set_out_of_range by lia. reflexivity.
  - repeat split; intros; reflexivity.
Qed.

End DispatchFacts.

Lemma dispatch_channel_unchecked_witness :
  length (channels example_playing) = 16%nat /\
  length (patch_ids example_playing) = 16%nat /\
  channel_of (command_note_off 16) = Some 16 /\
  dispatch powf_octaves example_playing (command_note_off 16)
    = Undefined ub_index.
Proof.
  do 3 (split; [reflexivity | ]).
  exact (proj1 (proj2 (dispatch_channel_unchecked powf_octaves example_playing
                         (command_note_off 16) 16 eq_refl eq_refl eq_refl))
           ltac:(discriminate)).
Defined.

(** C10 as stated fails: for a NoteOn for channel 16 on a player without
    free voices, the guard [on_voices < max_voices] fails and no array is
    indexed. *)
Lemma dispatch_note_on_full_budget :
  ~ (forall (powf : F32 -> F32 -> F32) (p : player) (e : command) (c : Z),
       length (channels p) = 16%nat -> length (patch_ids p) = 16%nat ->
       channel_of e = Some c -> 16 <= c ->
       dispatch powf p e = Undefined ub_index).
Proof.
  intros H.
  specialize (H powf_octaves example_player_no_voices
                (command_note_on 16 60 100) 16 eq_refl eq_refl eq_refl
                ltac:(discriminate)).
  discriminate H.
Qed.

(** ** The cursor test of [handle_one] *)

Lemma entries_at_In {V} (k : Z) (m : multimap V) (v : V) :
  In v (entries_at k m) <-> In (k, v) m.
Proof.
  unfold entries_at. rewrite in_map_iff. split.
  - intros ([k' v'] & <- & Hin). apply filter_In in Hin as [Hin Hk].
    cbn in Hk. apply Z.eqb_eq in Hk. subst k'. exact Hin.
  - intros Hin. exists (k, v). split; [reflexivity | ].
    apply filter_In. split; [exact Hin | ]. cbn. apply Z.eqb_refl.
Qed.

(** Dropping the entries of the ticks strictly between two cursors does not
    change the entries of the later cursor. *)
Lemma entries_at_skip {V} (cur lc : Z) (m : multimap V) :
  entries_at cur
    (List.filter (fun e => negb ((lc <? fst e) && (fst e <? cur))) m)
  = entries_at cur m.
Proof.
  unfold entries_at. f_equal.
  induction m as [ | [t v] rest IH]; cbn; [reflexivity | ].
  destruct (t =? cur) eqn:E.
  - apply Z.eqb_eq in E. subst t. rewrite Z.ltb_irrefl, andb_false_r. cbn.
    rewrite Z.eqb_refl. f_equal. exact IH.
  - destruct (negb _); cbn; [rewrite E | ]; exact IH.
Qed.

Section CursorFacts.

Variable powf : F32 -> F32 -> F32.

(** [handle_one], with the events it dispatches named. *)
Lemma handle_one_due_events (p : player) (l r : F32) :
  sorted_keys (commands (current p)) ->
  handle_one powf p l r =
    (cur ← f32_to_u32 (f32_mul (f32_of_Z (ticks_per_second (current p)))
                               (seconds_elapsed p));
     p1 ← dispatch_all powf (set_cursor p cur) (due_events p cur);
     mix_channels 16 0
       (set_on_voices
          (if cursor_advanced (last_cursor p) cur
           then set_last_cursor p1 (Some cur) else p1) 0) l r).
Proof.
  intros Hs. unfold handle_one, due_events.
  remember (mix_channels 16 0) as mix eqn:Hmix.
  destruct (f32_to_u32 _) as [cur | | ]; cbn; try reflexivity.
  destruct (cursor_advanced (last_cursor p) cur); cbn; [ | reflexivity].
  rewrite (equal_range_filter cur _ Hs). unfold entries_at.
  destruct (dispatch_all powf _ _) as [p1 | | ] eqn:E; cbn; try reflexivity.
  apply dispatch_all_frame in E.
  destruct E as (_ & _ & _ & _ & _ & _ & _ & _ & _ & Hc & _).
  rewrite Hc. reflexivity.
Qed.

(** The lambda of [handle_one] does to the player what the specification
    says of each event, when the event names one of the sixteen channels and
    the groups are installed. *)
Lemma release_first_is_oldest (vs : list voice_single) :
  release_first vs = release_oldest vs.
Proof.
  unfold release_oldest. induction vs as [ | v vs IH]; [reflexivity | ].
  cbn [release_first list_find].
  destruct (key v) eqn:Ek.
  - destruct (decide (true = true)) as [ | Hne]; [reflexivity | ].
    contradiction Hne. reflexivity.
  - destruct (decide (false = true)) as [Heq | _]; [discriminate Heq | ].
    rewrite IH.
    destruct (list_find (fun x => key x = true) vs) as [[i x] | ];
      reflexivity.
Qed.

Lemma group_at_installed (p : player) (c : Z) :
  groups_installed p -> 0 <= c < 16 ->
  exists ch, group_at p c = Some ch /\ index (channels p) c = Ok (Some ch).
Proof.
  intros [[Hlen _] Hall] Hc.
  destruct (index_in_range (channels p) c ltac:(lia)) as (g & Hg & Hi).
  pose proof (proj1 (Forall_lookup _ _) Hall _ _ Hg) as Hne.
  destruct g as [ch | ]; [ | contradiction Hne; reflexivity].
  exists ch. unfold group_at. rewrite Hg. split; [reflexivity | exact Hi].
Qed.

Lemma store_channel_installed (p : player) (c : Z) (ch : voice_group_base) :
  groups_installed p -> groups_installed (store_channel p c ch).
Proof.
  intros [[Hlen Hids] Hall]. unfold groups_installed, sixteen, store_channel.
  cbn. rewrite length_insert. split; [split; assumption | ].
  apply Forall_insert; [exact Hall | discriminate].
Qed.

Lemma event_effect_installed (p : player) (e : command) :
  groups_installed p -> groups_installed (event_effect powf p e).
Proof.
  intros H. destruct e; cbn [event_effect]; try exact H.
  - destruct (_ <? _); [ | exact H].
    destruct (group_at p channel); [apply store_channel_installed | ];
      exact H.
  - destruct (group_at p channel); [apply store_channel_installed | ];
      exact H.
  - destruct (group_at p channel) as [[vs b | vs] | ];
      [apply store_channel_installed | | ]; exact H.
  - destruct H as [[Hlen Hids] Hall]. unfold groups_installed, sixteen.
    cbn. rewrite length_insert. split; [split; assumption | exact Hall].
Qed.

Lemma dispatch_effect (p : player) (e : command) :
  on_a_channel e -> groups_installed p ->
  dispatch powf p e = Ok (event_effect powf p e).
Proof.
  intros Hc Hg.
  destruct e as [c n v | c | c b | c g | | | | | ];
    cbn [dispatch event_effect]; try reflexivity; cbn in Hc.
  - destruct (on_voices p <? max_voices p); [ | reflexivity].
    destruct (group_at_installed p c Hg Hc) as (ch & -> & ->).
    bind_ok. cbn [deref]. bind_ok. destruct ch; reflexivity.
  - destruct (group_at_installed p c Hg Hc) as (ch & -> & ->).
    bind_ok. cbn [deref]. bind_ok. rewrite release_first_is_oldest.
    reflexivity.
  - destruct (group_at_installed p c Hg Hc) as (ch & -> & ->).
    bind_ok. cbn [deref]. bind_ok. destruct ch; reflexivity.
  - destruct Hg as [[_ Hids] _]. unfold index_set.
    replace (0 <=? c) with true by (symmetry; apply Z.leb_le; lia).
    replace (c <? Z.of_nat (length (patch_ids p))) with true
      by (symmetry; apply Z.ltb_lt; lia).
    reflexivity.
Qed.

Lemma dispatch_all_effect (es : list command) : forall p,
  Forall on_a_channel es -> groups_installed p ->
  dispatch_all powf p es = Ok (events_effect powf p es).
Proof.
  induction es as [ | e es IH]; intros p Hes Hg; [reflexivity | ].
  inversion Hes as [ | ? ? He Hrest]; subst.
  cbn [dispatch_all events_effect fold_left].
  rewrite (dispatch_effect p e He Hg). bind_ok.
  apply IH; [exact Hrest | apply event_effect_installed, Hg].
Qed.

(** C6.  Let [cur] be the cursor that [handle_one] derives.  When
    [last_cursor] is unset or [cur] exceeds it, [handle_one] dispatches the
    events indexed at tick [cur], all of them, in their order, and no other:
    the player that goes into the mixing loop is the one that the effects of
    these events leave (a voice appended by each NoteOn under the voice
    limit, the first held voice released by each NoteOff, the steps
    recomputed by each PitchWheel, the program bound by each ProgramChange),
    with [last_cursor = cur].  When [last_cursor] holds a tick at or after
    [cur], no event is dispatched: the player goes into the mixing loop with
    only [cursor] written.  The events indexed at the ticks between
    [last_cursor] and [cur] are not among those dispatched: they are never
    dispatched while the cursor does not come back to their tick. *)
Theorem handle_one_dispatches_due_events (p : player) (l r : F32) (cur : Z) :
  sorted_keys (commands (current p)) ->
  f32_to_u32 (f32_mul (f32_of_Z (ticks_per_second (current p)))
                      (seconds_elapsed p)) = Ok cur ->
  (last_cursor p = None \/ (exists lc, last_cursor p = Some lc /\ lc < cur) ->
   groups_installed p ->
   Forall on_a_channel (entries_at cur (commands (current p))) ->
   handle_one powf p l r
   = mix_channels 16 0
       (set_on_voices
          (set_last_cursor
             (events_effect powf (set_cursor p cur)
                (entries_at cur (commands (current p))))
             (Some cur)) 0) l r) /\
  (forall lc, last_cursor p = Some lc -> cur <= lc ->
   handle_one powf p l r
   = mix_channels 16 0 (set_on_voices (set_cursor p cur) 0) l r) /\
  (forall e, In e (entries_at cur (commands (current p)))
             <-> In (cur, e) (commands (current p))) /\
  (forall t e, t <> cur -> In (t, e) (commands (current p)) ->
     ~ In (t, e) (List.filter (fun te => fst te =? cur)
                              (commands (current p)))) /\
  entries_at cur (commands (current p))
    = map snd (List.filter (fun te => fst te =? cur) (commands (current p))).
Proof.
  intros Hs Hcur.
  pose proof (handle_one_due_events p l r Hs) as Heq.
  rewrite Hcur in Heq. revert Heq. bind_ok. intros Heq.
  split; [ | split; [ | split; [ | split]]].
  - intros Hadv Hg Hes. rewrite Heq. unfold due_events.
    assert (Ha : cursor_advanced (last_cursor p) cur = true).
    { destruct Hadv as [-> | (lc & -> & Hlt)]; [reflexivity | ].
      apply Z.ltb_lt, Hlt. }
    rewrite Ha. rewrite dispatch_all_effect; [reflexivity | exact Hes | ].
    exact Hg.
  - intros lc Hlc Hle. rewrite Heq. unfold due_events. rewrite Hlc.
    cbn [cursor_advanced].
    replace (lc <? cur) with false by (symmetry; apply Z.ltb_ge; exact Hle).
    reflexivity.
  - intros e. apply entries_at_In.
  - intros t e Hne _ Hin. apply filter_In in Hin as [_ Hk].
    cbn in Hk. apply Z.eqb_eq in Hk. contradiction.
  - reflexivity.
Qed.

End CursorFacts.

Lemma handle_one_dispatches_due_events_witness :
  sorted_keys (commands (current (started song_unbound_note))) /\
  f32_to_u32
    (f32_mul (f32_of_Z (ticks_per_second
                          (current (started song_unbound_note))))
             (seconds_elapsed (started song_unbound_note))) = Ok 0 /\
  last_cursor (started song_unbound_note) = None /\
  entries_at 0 (commands (current (started song_unbound_note)))
    = [command_version 3; command_rate 48000; command_note_on 0 69 127;
       command_end_of_track] /\
  exists p1,
    handle_one powf_octaves (started song_unbound_note) f32_zero f32_zero
      = mix_channels 16 0 (set_on_voices p1 0) f32_zero f32_zero /\
    last_cursor p1 = Some 0 /\
    channel_voices (started song_unbound_note) 0 = [] /\
    channel_voices p1 0
      = [new_voice 127
           (melodic_step powf_octaves (started song_unbound_note) 69
                         f32_zero) 69].
Proof.
  assert (Hs : sorted_keys (commands (current (started song_unbound_note)))).
  { apply (load_sorted song_unbound_note). reflexivity. }
  assert (Hcur : f32_to_u32
                   (f32_mul (f32_of_Z
                               (ticks_per_second
                                  (current (started song_unbound_note))))
                            (seconds_elapsed (started song_unbound_note)))
                 = Ok 0) by (vm_compute; reflexivity).
  assert (Hl : last_cursor (started song_unbound_note) = None)
    by (vm_compute; reflexivity).
  assert (He : entries_at 0 (commands (current (started song_unbound_note)))
               = [command_version 3; command_rate 48000;
                  command_note_on 0 69 127; command_end_of_track])
    by (vm_compute; reflexivity).
  assert (Hg : groups_installed (started song_unbound_note)).
  { assert (Hc : channels (started song_unbound_note) = fresh_channels)
      by (vm_compute; reflexivity).
    assert (Hi : patch_ids (started song_unbound_note) = replicate 16 None)
      by (vm_compute; reflexivity).
    unfold groups_installed, sixteen. rewrite Hc, Hi.
    split; [split; reflexivity | ]. repeat constructor; discriminate. }
  assert (Hes : Forall on_a_channel
                  (entries_at 0
                     (commands (current (started song_unbound_note))))).
  { rewrite He. repeat constructor; cbn; lia. }
  split; [exact Hs | split; [exact Hcur | split; [exact Hl | ]]].
  split; [exact He | ].
  eexists. split.
  - exact (proj1 (handle_one_dispatches_due_events powf_octaves
                    (started song_unbound_note) f32_zero f32_zero 0 Hs Hcur)
             (or_introl Hl) Hg Hes).
  - split; [reflexivity | ]. split; [vm_compute; reflexivity | ].
    rewrite He. vm_compute. reflexivity.
Defined.

(** ** The voice count of [handle_one] *)

Lemma wrap32_range (n : Z) : 0 <= wrap32 n < 2 ^ 32.
Proof. unfold wrap32. apply Z.mod_pos_bound. lia. Qed.

Lemma wrap32_idemp (n : Z) : wrap32 (wrap32 n) = wrap32 n.
Proof. apply wrap32_small, wrap32_range. Qed.

Lemma wrap32_add_l (a b x : Z) :
  wrap32 a = wrap32 b -> wrap32 (a + x) = wrap32 (b + x).
Proof.
  unfold wrap32. intros H.
  rewrite (Z.add_mod a), (Z.add_mod b), H by lia. reflexivity.
Qed.

Lemma counted_at_ext (p q : player) (k : nat) :
  channels p !! k = channels q !! k ->
  patch_ids p !! k = patch_ids q !! k ->
  counted_at p k = counted_at q k.
Proof.
  unfold counted_at, counted_slot, channel_voices. intros -> ->. reflexivity.
Qed.

Lemma counted_voices_ext (p q : player) (n : nat) :
  (forall j, (j < n)%nat -> channels p !! j = channels q !! j) ->
  patch_ids p = patch_ids q ->
  counted_voices p n = counted_voices q n.
Proof.
  intros Hc Hp. induction n as [ | n IH]; cbn; [reflexivity | ].
  rewrite IH by (intros; apply Hc; lia).
  fold (counted_at p n). fold (counted_at q n).
  rewrite (counted_at_ext p q n); [reflexivity | apply Hc; lia | ].
  rewrite Hp. reflexivity.
Qed.

(** One round of the channel loop touches its own slot and the count. *)
Lemma mix_channel_effect (i : Z) (p : player) (l r : F32)
    (p' : player) (l' r' : F32) :
  0 <= i -> mix_channel i p l r = Ok (p', l', r') ->
  patch_ids p' = patch_ids p /\
  (forall j, j <> Z.to_nat i -> channels p' !! j = channels p !! j) /\
  wrap32 (on_voices p') = wrap32 (on_voices p + counted_at p' (Z.to_nat i)) /\
  (0 <= on_voices p < 2 ^ 32 -> 0 <= on_voices p' < 2 ^ 32).
Proof.
  intros Hi. unfold mix_channel.
  destruct (vector_at (channels p) i) as [ch_ptr | | ] eqn:Ech; cbn;
    try discriminate.
  apply vector_at_Ok in Ech as [Hr Hl].
  destruct ch_ptr as [ch | ]; cbn; [ | discriminate].
  assert (Hins : forall g, <[Z.to_nat i := g]> (channels p) !! Z.to_nat i = Some g)
    by (intros g; apply list_lookup_insert_eq; lia).
  assert (Hne : forall g j, j <> Z.to_nat i ->
                  <[Z.to_nat i := g]> (channels p) !! j = channels p !! j)
    by (intros g j Hj; apply list_lookup_insert_ne; congruence).
  destruct (is_drum_kit ch) eqn:Ed.
  - destruct (drum_group_accumulate_into _ _ _ _) as [[[vs l1] r1] | | ]; cbn;
      try discriminate.
    intros [= <- <- <-]. cbn. split; [reflexivity | ]. split; [apply Hne | ].
    split; [ | intros _; apply wrap32_range].
    unfold counted_at, counted_slot, channel_voices. cbn. rewrite Hins.
    destruct (voices_set_voices ch vs) as [-> ->]. rewrite Ed. cbn.
    rewrite wrap32_idemp. reflexivity.
  - destruct (vector_at (patch_ids p) i) as [id | | ] eqn:Eid; cbn;
      try discriminate.
    apply vector_at_Ok in Eid as [_ Hid].
    destruct id as [program | ]; cbn.
    + destruct (map_at _ _) as [patch | | ]; cbn; try discriminate.
      destruct (voice_group_accumulate_into _ _ _ _) as [[[vs l1] r1] | | ];
        cbn; try discriminate.
      intros [= <- <- <-]. cbn. split; [reflexivity | ]. split; [apply Hne | ].
      split; [ | intros _; apply wrap32_range].
      unfold counted_at, counted_slot, channel_voices. cbn. rewrite Hins, Hid.
      destruct (voices_set_voices ch vs) as [-> ->]. rewrite Ed. cbn.
      rewrite wrap32_idemp. reflexivity.
    + intros [= <- <- <-]. cbn. split; [reflexivity | ]. split; [apply Hne | ].
      split; [ | trivial].
      unfold counted_at, counted_slot, channel_voices. cbn. rewrite Hins, Hid.
      destruct (voices_set_voices ch (List.filter active (voices ch)))
        as [_ ->].
      rewrite Ed. cbn. rewrite Z.add_0_r. reflexivity.
Qed.

Lemma mix_channels_effect (rounds : nat) :
  forall (i : Z) (p : player) (l r : F32) (p' : player) (l' r' : F32),
  0 <= i -> mix_channels rounds i p l r = Ok (p', l', r') ->
  patch_ids p' = patch_ids p /\
  (forall j, (j < Z.to_nat i)%nat -> channels p' !! j = channels p !! j) /\
  wrap32 (on_voices p')
    = wrap32 (on_voices p + (counted_voices p' (Z.to_nat i + rounds)
                             - counted_voices p' (Z.to_nat i))) /\
  (0 <= on_voices p < 2 ^ 32 -> 0 <= on_voices p' < 2 ^ 32).
Proof.
  induction rounds as [ | rounds IH]; intros i p l r p' l' r' Hi; cbn.
  - intros [= <- <- <-]. split; [reflexivity | ]. split; [reflexivity | ].
    split; [ | trivial]. rewrite Nat.add_0_r. f_equal. lia.
  - destruct (mix_channel i p l r) as [[[p1 l1] r1] | | ] eqn:E1; cbn;
      try discriminate.
    intros E2.
    apply mix_channel_effect in E1 as (Hp1 & Hc1 & Ho1 & Hr1); [ | exact Hi].
    apply IH in E2 as (Hp2 & Hc2 & Ho2 & Hr2); [ | lia].
    replace (Z.to_nat (i + 1)) with (S (Z.to_nat i)) in * by lia.
    split; [congruence | ].
    split. { intros j Hj. rewrite Hc2 by lia. apply Hc1. lia. }
    split; [ | tauto].
    rewrite Ho2.
    replace (Z.to_nat i + S rounds)%nat with (S (Z.to_nat i) + rounds)%nat
      by lia.
    assert (Hk : counted_voices p' (S (Z.to_nat i))
                 = counted_voices p' (Z.to_nat i) + counted_at p1 (Z.to_nat i)).
    { cbn. fold (counted_at p' (Z.to_nat i)). f_equal.
      apply counted_at_ext; [apply Hc2; lia | rewrite Hp2; reflexivity]. }
    rewrite Hk.
    rewrite (wrap32_add_l _ _ _ Ho1). f_equal. lia.
Qed.

Section CountFacts.

Variable powf : F32 -> F32 -> F32.

(** C3, as amended.  After [handle_one], [on_voices] is the number of voices
    held by the slots that the channel loop accumulated: the drum kit and
    the melodic slots with a program bound.  The voices that this frame's
    accumulation has just marked inactive are still in their slot and are
    counted; the voices of a melodic slot without a program are not. *)
Theorem handle_one_on_voices (p : player) (l r : F32)
    (p' : player) (l' r' : F32) :
  handle_one powf p l r = Ok (p', l', r') ->
  on_voices p' = wrap32 (counted_voices p' 16).
Proof.
  unfold handle_one. intros H.
  apply bind_Ok in H as (cur & _ & H).
  apply bind_Ok in H as (p1 & _ & H).
  apply mix_channels_effect in H as (_ & _ & Ho & Hr); [ | lia].
  change (on_voices (set_on_voices p1 0)) with 0 in Ho, Hr.
  change (Z.to_nat 0 + 16)%nat with 16%nat in Ho.
  change (counted_voices p' (Z.to_nat 0)) with 0 in Ho.
  rewrite Z.sub_0_r, Z.add_0_l in Ho.
  rewrite <- Ho. symmetry. apply wrap32_small, Hr. lia.
Qed.

End CountFacts.

(** A NoteOn on channel 0 with no program bound: after the frame the voice
    is alive, and [on_voices] is 0. *)
Lemma handle_one_unbound_note :
  exists p',
    handle_one powf_octaves (started song_unbound_note) f32_zero f32_zero
      = Ok (p', f32_zero, f32_zero) /\
    on_voices p' = 0 /\ active_voices p' = 1 /\ counted_voices p' 16 = 0.
Proof.
  eexists. split; [vm_compute; reflexivity | ].
  repeat split; vm_compute; reflexivity.
Qed.

(** A NoteOn on the drum kit for a note without a drum: the frame marks the
    voice inactive and still counts it. *)
Lemma handle_one_drum_miss (powf : F32 -> F32 -> F32) :
  exists p',
    handle_one powf (started song_drum_miss) f32_zero f32_zero
      = Ok (p', f32_zero, f32_zero) /\
    on_voices p' = 1 /\ active_voices p' = 0 /\ counted_voices p' 16 = 1.
Proof.
  eexists. split; [vm_compute; reflexivity | ].
  repeat split; vm_compute; reflexivity.
Qed.

Lemma handle_one_on_voices_witness :
  exists p',
    handle_one powf_octaves (started song_drum_miss) f32_zero f32_zero
      = Ok (p', f32_zero, f32_zero) /\
    on_voices p' = wrap32 (counted_voices p' 16).
Proof.
  eexists. split; [vm_compute; reflexivity | ].
  apply (handle_one_on_voices powf_octaves (started song_drum_miss)
           f32_zero f32_zero _ f32_zero f32_zero).
  vm_compute. reflexivity.
Defined.

(** C3 as stated fails: [on_voices] is not the number of active voices.
    After the frame of [handle_one_drum_miss] it is 1 and no voice is
    active; after the frame of [handle_one_unbound_note] it is 0 and one
    voice is active. *)
Lemma on_voices_not_active_voices :
  ~ (forall (powf : F32 -> F32 -> F32) (p : player) (l r : F32)
            (p' : player) (l' r' : F32),
       handle_one powf p l r = Ok (p', l', r') ->
       on_voices p' = active_voices p').
Proof.
  intros H.
  destruct (handle_one_drum_miss powf_octaves) as (p' & Hrun & Hon & Hact & _).
  specialize (H _ _ _ _ _ _ _ Hrun). rewrite Hon, Hact in H. discriminate H.
Qed.

(** ** Lookups that miss *)

(** A drum voice whose note has no drum: marked inactive, sample 0 and
    gains 0, so each side of the mix receives [0 * velocity * 0]. *)
Lemma drum_accumulate_missing (mapping : gmap Z drum_t) (d : voice_single)
    (l r : F32) :
  mapping !! note d = None ->
  drum_accumulate mapping d l r
    = Ok (set_active d false,
          f32_add l (silent_term d f32_zero),
          f32_add r (silent_term d f32_zero)) /\
  (is_finite (velocity d) = true ->
   is_zero (silent_term d f32_zero) = true).
Proof.
  intros H. split.
  - unfold drum_accumulate. rewrite H. reflexivity.
  - intros Hv. apply silent_term_zero; [exact Hv | reflexivity].
Qed.

(** A melodic slot without a program: the round only reaps the slot. *)
Lemma mix_channel_unbound (i : Z) (p : player) (l r : F32)
    (vs : list voice_single) (b : F32) :
  0 <= i < Z.of_nat (length (channels p)) ->
  channels p !! Z.to_nat i = Some (Some (voice_group vs b)) ->
  patch_ids p !! Z.to_nat i = Some None ->
  mix_channel i p l r
    = Ok (store_channel p i (voice_group (List.filter active vs) b), l, r).
Proof.
  intros Hi Hc Hp. unfold mix_channel.
  destruct (vector_at_in_range _ _ Hi) as (g & Hg & ->).
  rewrite Hc in Hg. injection Hg as <-. cbn.
  assert (Hi' : 0 <= i < Z.of_nat (length (patch_ids p))).
  { split; [lia | ]. apply lookup_lt_Some in Hp. lia. }
  destruct (vector_at_in_range _ _ Hi') as (g & Hg & ->).
  rewrite Hp in Hg. injection Hg as <-. reflexivity.
Qed.

(** A melodic slot bound to a program that the song does not have: the
    round throws [std::out_of_range] from [patches.at]. *)
Lemma mix_channel_missing_program (i : Z) (p : player) (l r : F32)
    (vs : list voice_single) (b : F32) (program : Z) :
  0 <= i < Z.of_nat (length (channels p)) ->
  channels p !! Z.to_nat i = Some (Some (voice_group vs b)) ->
  patch_ids p !! Z.to_nat i = Some (Some program) ->
  patches (current p) !! program = None ->
  mix_channel i p l r = Throw out_of_range.
Proof.
  intros Hi Hc Hp Hm. unfold mix_channel.
  destruct (vector_at_in_range _ _ Hi) as (g & Hg & ->).
  rewrite Hc in Hg. injection Hg as <-. cbn.
  assert (Hi' : 0 <= i < Z.of_nat (length (patch_ids p))).
  { split; [lia | ]. apply lookup_lt_Some in Hp. lia. }
  destruct (vector_at_in_range _ _ Hi') as (g & Hg & ->).
  rewrite Hp in Hg. injection Hg as <-. cbn.
  unfold map_at. rewrite Hm. reflexivity.
Qed.

(** C1.  The song [song_missing_program] decodes and is accepted by [play];
    its ProgramChange binds channel 0 to program 5, which the song does not
    define.  The first frame of [tick] then leaves through the
    [std::out_of_range] of [patches.at]: the channel is not silenced, the
    rendering is aborted.  The drum lookup of the same loop does tolerate a
    miss ([drum_accumulate_missing]). *)
Theorem tick_missing_program_throws (powf : F32 -> F32 -> F32) :
  load_and_play example_player song_missing_program
    = Ok (started song_missing_program) /\
  due_events (started song_missing_program) 0
    = [command_version 3; command_rate 48000; command_program_change 0 5;
       command_end_of_track] /\
  patches (current (started song_missing_program)) !! 5 = None /\
  tick powf (started song_missing_program) [f32_zero; f32_zero]
    = Throw out_of_range /\
  tick powf (set_in_stereo (started song_missing_program) false) [f32_zero]
    = Throw out_of_range.
Proof.
  split; [vm_compute; reflexivity | ].
  split; [vm_compute; reflexivity | ].
  split; [vm_compute; reflexivity | ].
  split; vm_compute; reflexivity.
Qed.

(** ** The samples that [tick] writes *)

Lemma index_set_Ok {A} (v : list A) (i : Z) (a : A) (v' : list A) :
  index_set v i a = Ok v' ->
  0 <= i < Z.of_nat (length v) /\ v' = <[Z.to_nat i := a]> v.
Proof.
  unfold index_set.
  destruct (0 <=? i) eqn:H0; [ | discriminate].
  destruct (i <? Z.of_nat (length v)) eqn:H1; [ | discriminate]. cbn.
  intros [= <-]. apply Z.leb_le in H0. apply Z.ltb_lt in H1. auto.
Qed.

Lemma index_set_app {A} (pre rest : list A) (a x : A) :
  index_set (pre ++ a :: rest) (Z.of_nat (length pre)) x
    = Ok (pre ++ x :: rest).
Proof.
  unfold index_set. rewrite length_app. cbn [length].
  replace (0 <=? Z.of_nat (length pre)) with true
    by (symmetry; apply Z.leb_le; lia).
  replace (Z.of_nat (length pre) <? Z.of_nat (length pre + S (length rest)))
    with true by (symmetry; apply Z.ltb_lt; lia).
  cbn [andb]. rewrite Nat2Z.id.
  rewrite insert_app_r_alt by lia. rewrite Nat.sub_diag. reflexivity.
Qed.

Lemma clamp_unit_clamped (x : F32) : clamped (clamp_unit x).
Proof.
  exists x. split; [reflexivity | ]. split.
  - intros H. rewrite clamp_unit_is_nan. exact H.
  - apply clamp_unit_in_range.
Qed.

Lemma fails_bind {A B} (m : outcome A) (f : A -> outcome B) :
  (forall a, m = Ok a -> fails (f a)) -> fails (m ≫= f).
Proof. destruct m as [a | e | u]; cbn; intros Hf; auto. Qed.

Section TickFacts.

Variable powf : F32 -> F32 -> F32.

Lemma tick_stereo_written (rounds : nat) :
  forall (i : Z) (p : player) (audio : list F32) p' audio',
  0 <= i ->
  tick_stereo powf rounds i p audio = Ok (p', audio') ->
  (forall k y, Z.of_nat k < i -> audio !! k = Some y -> clamped y) ->
  length audio' = length audio /\
  forall k y, Z.of_nat k < i + 2 * Z.of_nat rounds ->
              audio' !! k = Some y -> clamped y.
Proof.
  induction rounds as [ | rounds IH]; intros i p audio p' audio' Hi; cbn.
  - intros [= <- <-] Hpre. split; [reflexivity | ].
    intros k y Hk. apply Hpre. lia.
  - destruct (tick_frame powf p) as [[[p1 l] r] | | ]; cbn; try discriminate.
    destruct (index_set audio (i + 0) (clamp_unit l)) as [a1 | | ] eqn:E1;
      cbn; try discriminate.
    destruct (index_set a1 (i + 1) (clamp_unit r)) as [a2 | | ] eqn:E2;
      cbn; try discriminate.
    apply index_set_Ok in E1 as [Hr1 ->].
    apply index_set_Ok in E2 as [Hr2 ->].
    intros Hrun Hpre.
    apply IH in Hrun as [Hlen Hall]; [ | lia | ].
    + split; [rewrite Hlen, !length_insert; reflexivity | ].
      intros k y Hk. apply Hall. lia.
    + intros k y Hk Hy.
      apply list_lookup_insert_Some in Hy as [(_ & <- & _) | (Hne & Hy)];
        [apply clamp_unit_clamped | ].
      apply list_lookup_insert_Some in Hy as [(_ & <- & _) | (Hne' & Hy)];
        [apply clamp_unit_clamped | ].
      apply (Hpre k y); [lia | exact Hy].
Qed.

Lemma tick_mono_render (rounds : nat) :
  forall (pre rest : list F32) (p : player),
  length rest = rounds ->
  tick_mono powf rounds (Z.of_nat (length pre)) p (pre ++ rest)
  = ('(p', frames) ← render powf rounds p;
     Ok (p', pre ++ map mono_slot frames)).
Proof.
  induction rounds as [ | rounds IH]; intros pre rest p Hlen.
  - destruct rest; [ | discriminate]. reflexivity.
  - destruct rest as [ | a rest]; [discriminate | ]. cbn.
    destruct (tick_frame powf p) as [[[p1 l] r] | | ]; cbn; try reflexivity.
    rewrite index_set_app. cbn.
    change (clamp_unit (f32_div (f32_add l r) (binary_round 24 128 false 2 0)))
      with (mono_slot (l, r)).
    set (x := mono_slot (l, r)).
    replace (Z.of_nat (length pre) + 1) with (Z.of_nat (length (pre ++ [x])))
      by (rewrite length_app; cbn; lia).
    replace (pre ++ x :: rest) with ((pre ++ [x]) ++ rest)
      by (rewrite <- app_assoc; reflexivity).
    rewrite IH by (cbn in Hlen; lia).
    destruct (render powf rounds p1) as [[p2 frames] | | ]; cbn;
      try reflexivity.
    rewrite <- app_assoc. reflexivity.
Qed.

Lemma tick_stereo_render (rounds : nat) :
  forall (pre rest : list F32) (p : player),
  length rest = (2 * rounds)%nat ->
  tick_stereo powf rounds (Z.of_nat (length pre)) p (pre ++ rest)
  = ('(p', frames) ← render powf rounds p;
     Ok (p', pre ++ concat (map stereo_slots frames))).
Proof.
  induction rounds as [ | rounds IH]; intros pre rest p Hlen.
  - destruct rest; [ | discriminate]. reflexivity.
  - destruct rest as [ | a [ | b rest]]; [discriminate | cbn in Hlen; lia | ].
    cbn [tick_stereo render].
    destruct (tick_frame powf p) as [[[p1 l] r] | | ]; try reflexivity.
    bind_ok. rewrite Z.add_0_r, index_set_app. bind_ok.
    replace (Z.of_nat (length pre) + 1)
      with (Z.of_nat (length (pre ++ [clamp_unit l])))
      by (rewrite length_app; cbn; lia).
    replace (pre ++ clamp_unit l :: b :: rest)
      with ((pre ++ [clamp_unit l]) ++ b :: rest)
      by (rewrite <- app_assoc; reflexivity).
    rewrite index_set_app. bind_ok.
    replace (Z.of_nat (length pre) + 2)
      with (Z.of_nat (length ((pre ++ [clamp_unit l]) ++ [clamp_unit r])))
      by (rewrite !length_app; cbn; lia).
    replace ((pre ++ [clamp_unit l]) ++ clamp_unit r :: rest)
      with (((pre ++ [clamp_unit l]) ++ [clamp_unit r]) ++ rest)
      by (rewrite <- !app_assoc; reflexivity).
    rewrite IH by (cbn in Hlen; lia).
    destruct (render powf rounds p1) as [[p2 frames] | | ]; try reflexivity.
    bind_ok. cbn [map concat stereo_slots fst snd].
    rewrite <- !app_assoc. reflexivity.
Qed.

(** A stereo loop that has to write past the end does not return. *)
Lemma tick_stereo_past_end (rounds : nat) :
  forall (i : Z) (p : player) (audio : list F32),
  0 <= i -> (0 < rounds)%nat ->
  Z.of_nat (length audio) < i + 2 * Z.of_nat rounds ->
  fails (tick_stereo powf rounds i p audio).
Proof.
  induction rounds as [ | rounds IH]; intros i p audio Hi Hr Hlen; [lia | ].
  cbn [tick_stereo].
  apply fails_bind. intros [[p1 l] r] _.
  apply fails_bind. intros a1 E1. apply index_set_Ok in E1 as [R1 ->].
  apply fails_bind. intros a2 E2. apply index_set_Ok in E2 as [R2 ->].
  rewrite length_insert in R2.
  apply IH; [lia | lia | rewrite !length_insert; lia].
Qed.

Lemma render_length (n : nat) : forall p p' frames,
  render powf n p = Ok (p', frames) -> length frames = n.
Proof.
  induction n as [ | n IH]; intros p p' frames; cbn [render].
  - intros [= _ <-]. reflexivity.
  - intros H. apply bind_Ok in H as ([[p1 l] r] & _ & H).
    apply bind_Ok in H as ([p2 fs] & E & H). injection H as _ <-.
    cbn [length]. f_equal. apply (IH _ _ _ E).
Qed.

(** A stereo [tick] that returns was given a buffer of even length, and is
    the rendering of half as many frames. *)
Lemma tick_stereo_frames (p : player) (audio : list F32)
    (p' : player) (audio' : list F32) :
  in_stereo p = true -> tick powf p audio = Ok (p', audio') ->
  exists frames,
    length audio = (2 * length frames)%nat /\
    render powf (length frames) p = Ok (p', frames) /\
    audio' = concat (map stereo_slots frames).
Proof.
  intros Hs Hrun. unfold tick in Hrun. rewrite Hs in Hrun.
  destruct (Nat.Even_or_Odd (length audio)) as [[n Hn] | [n Hn]].
  - rewrite Hn in Hrun.
    replace (Z.to_nat ((Z.of_nat (2 * n) + 1) / 2)) with n in Hrun
      by (replace ((Z.of_nat (2 * n) + 1) / 2) with (Z.of_nat n)
            by (apply Z.div_unique with 1; lia);
          rewrite Nat2Z.id; reflexivity).
    pose proof (tick_stereo_render n [] audio p Hn) as Heq.
    change (Z.of_nat (length (@nil F32))) with 0 in Heq.
    change ([] ++ audio) with audio in Heq. rewrite Heq in Hrun.
    apply bind_Ok in Hrun as ([p2 frames] & E & Hrun).
    injection Hrun as <- <-.
    pose proof (render_length _ _ _ _ E) as Hlen.
    exists frames. rewrite Hlen. split; [exact Hn | ].
    split; [exact E | reflexivity].
  - exfalso.
    pose proof (tick_stereo_past_end
                  (Z.to_nat ((Z.of_nat (length audio) + 1) / 2)) 0 p audio)
      as Hf.
    rewrite Hrun in Hf.
    replace ((Z.of_nat (length audio) + 1) / 2) with (Z.of_nat n + 1) in Hf
      by (rewrite Hn; apply Z.div_unique with 0; lia).
    apply Hf; lia.
Qed.

(** C2, as amended.  Every value that a successful [tick] leaves in the
    buffer is [std::clamp(x, -1, 1)] of the mix [x] of its frame: it lies in
    [-1.0, 1.0] when [x] is a number, and it is NaN when [x] is NaN, since
    [std::clamp] returns a NaN argument unchanged.  In mono mode, slot [k]
    holds [clamp((L+R)/2, -1, 1)] for the left/right pair of frame [k]; in
    stereo mode, slots [2k] and [2k+1] hold [clamp(L, -1, 1)] and
    [clamp(R, -1, 1)] for the pair of frame [k].  The frames are those that
    [render] names: the pairs that consecutive rounds of the loop mix. *)
Theorem tick_output_clamped (p : player) (audio : list F32)
    (p' : player) (audio' : list F32) :
  tick powf p audio = Ok (p', audio') ->
  Forall clamped audio' /\
  Forall (fun y => is_nan y = true \/ in_unit_range y = true) audio' /\
  (in_stereo p = false ->
   exists frames,
     render powf (length audio) p = Ok (p', frames) /\
     audio' = map mono_slot frames) /\
  (in_stereo p = true ->
   exists frames,
     length audio = (2 * length frames)%nat /\
     render powf (length frames) p = Ok (p', frames) /\
     audio' = concat (map (fun lr => [f32_clamp (fst lr) (f32_of_Z (-1))
                                                (f32_of_Z 1);
                                      f32_clamp (snd lr) (f32_of_Z (-1))
                                                (f32_of_Z 1)]) frames)) /\
  (forall x, is_nan x = false ->
             in_unit_range (f32_clamp x (f32_of_Z (-1)) (f32_of_Z 1)) = true) /\
  (forall x, is_nan x = true ->
             is_nan (f32_clamp x (f32_of_Z (-1)) (f32_of_Z 1)) = true).
Proof.
  intros Hrun.
  assert (Hmono : in_stereo p = false ->
            exists frames,
              render powf (length audio) p = Ok (p', frames) /\
              audio' = map mono_slot frames).
  { intros Hs. unfold tick in Hrun. rewrite Hs, Nat2Z.id in Hrun.
    pose proof (tick_mono_render (length audio) [] audio p eq_refl) as Heq.
    change (Z.of_nat (length (@nil F32))) with 0 in Heq.
    change ([] ++ audio) with audio in Heq. rewrite Heq in Hrun.
    destruct (render powf (length audio) p) as [[p2 frames] | | ];
      cbn in Hrun; try discriminate.
    injection Hrun as <- <-. exists frames. split; reflexivity. }
  assert (Hstereo : in_stereo p = true ->
            exists frames,
              length audio = (2 * length frames)%nat /\
              render powf (length frames) p = Ok (p', frames) /\
              audio' = concat (map stereo_slots frames))
    by (intros Hs; apply tick_stereo_frames; assumption).
  assert (Hall : Forall clamped audio').
  { destruct (in_stereo p) eqn:Hs.
    - destruct (Hstereo eq_refl) as (frames & _ & _ & ->).
      apply Forall_concat, Forall_forall. intros ys Hys.
      apply list_elem_of_In, in_map_iff in Hys as ([l r] & <- & _).
      repeat constructor; apply clamp_unit_clamped.
    - destruct (Hmono eq_refl) as (frames & _ & ->).
      apply Forall_forall. intros y Hy.
      apply list_elem_of_In, in_map_iff in Hy as ([l r] & <- & _).
      apply clamp_unit_clamped. }
  split; [exact Hall | ].
  split.
  { eapply Forall_impl; [exact Hall | ].
    intros y (x & _ & Hnan & Hnum).
    destruct (is_nan x); [left | right]; auto. }
  split; [exact Hmono | ]. split; [exact Hstereo | ].
  split.
  - intros x Hx. apply (clamp_unit_in_range x Hx).
  - intros x Hx. rewrite <- Hx. apply (clamp_unit_is_nan x).
Qed.

End TickFacts.

Lemma tick_output_clamped_witness :
  exists p' audio' frames,
    tick powf_octaves (started song_nan_gain) [f32_zero; f32_zero]
      = Ok (p', audio') /\
    render powf_octaves 1 (started song_nan_gain) = Ok (p', frames) /\
    frames = [(S754_finite false 16646144 (-24), f32_nan)] /\
    audio' = [S754_finite false 16646144 (-24); f32_nan] /\
    Forall (fun y => is_nan y = true \/ in_unit_range y = true) audio'.
Proof.
  destruct (tick powf_octaves (started song_nan_gain) [f32_zero; f32_zero])
    as [[p' audio'] | e | u] eqn:Hrun;
    [ | vm_compute in Hrun; discriminate | vm_compute in Hrun; discriminate].
  pose proof (tick_output_clamped powf_octaves (started song_nan_gain)
                [f32_zero; f32_zero] p' audio' Hrun)
    as (_ & Hrange & _ & Hstereo & _).
  destruct (Hstereo ltac:(vm_compute; reflexivity))
    as (frames & Hlen & Hrender & Haudio).
  assert (Hone : length frames = 1%nat) by (cbn [length] in Hlen; lia).
  rewrite Hone in Hrender.
  exists p', audio', frames. split; [reflexivity | ].
  split; [exact Hrender | ].
  assert (Hframes : frames = [(S754_finite false 16646144 (-24), f32_nan)]).
  { vm_compute in Hrender. injection Hrender as _ <-. reflexivity. }
  split; [exact Hframes | ].
  split; [rewrite Haudio, Hframes; vm_compute; reflexivity | exact Hrange].
Defined.

(** The drum of [song_nan_gain] has a NaN right gain: the first frame
    writes 127/128 to the left slot and NaN to the right slot. *)
Lemma tick_nan_gain (powf : F32 -> F32 -> F32) :
  exists p',
    load_and_play example_player song_nan_gain = Ok (started song_nan_gain) /\
    tick powf (started song_nan_gain) [f32_zero; f32_zero]
      = Ok (p', [S754_finite false 16646144 (-24); f32_nan]) /\
    in_unit_range f32_nan = false.
Proof.
  eexists. split; [vm_compute; reflexivity | ].
  split; [vm_compute; reflexivity | reflexivity].
Qed.

(** C2 as stated fails: not every value that [tick] writes lies in
    [-1.0, 1.0]. *)
Lemma tick_writes_nan :
  ~ (forall (powf : F32 -> F32 -> F32) (p : player) (audio : list F32)
            (p' : player) (audio' : list F32),
       tick powf p audio = Ok (p', audio') ->
       Forall (fun y => in_unit_range y = true) audio').
Proof.
  intros H. destruct (tick_nan_gain powf_octaves) as (p' & _ & Hrun & _).
  specialize (H _ _ _ _ _ Hrun).
  inversion H as [ | ? ? _ Htail]; subst.
  inversion Htail as [ | ? ? Hnan _]; subst.
  discriminate Hnan.
Qed.

(** ** Songs with [ticks_per_second == 0] or [ticks_end == 0] *)

Lemma cursor_at_start (x : F32) :
  is_finite x = true -> f32_to_u32 (f32_mul x f32_zero) = Ok 0.
Proof. destruct x; cbn; try discriminate; reflexivity. Qed.

(** With [ticks_per_second == 0] the cursor is 0 while the clock is
    finite. *)
Lemma cursor_zero_rate (x : F32) :
  is_finite x = true -> f32_to_u32 (f32_mul (f32_of_Z 0) x) = Ok 0.
Proof. destruct x; cbn; try discriminate; reflexivity. Qed.

(** The cast of [ticks_per_second * NaN]. *)
Lemma cursor_of_nan (x : F32) :
  f32_to_u32 (f32_mul x f32_nan) = Undefined ub_float_cast.
Proof. destruct x; reflexivity. Qed.

Lemma f32_fmod_zero (x : F32) : f32_fmod x f32_zero = f32_nan.
Proof. destruct x; reflexivity. Qed.

Lemma f32_add_zero_positive (x : F32) :
  f32_ltb f32_zero x = true -> f32_add f32_zero x = x.
Proof. destruct x as [ | | | [ | ] m e]; try discriminate; reflexivity. Qed.

(** The channel loop on the groups that [play] has just installed. *)
Lemma mix_channels_fresh (q : player) (l r : F32) :
  channels q = fresh_channels -> patch_ids q = replicate 16 None ->
  on_voices q = 0 ->
  mix_channels 16 0 q l r = Ok (q, l, r).
Proof.
  destruct q. cbn. intros -> -> ->. reflexivity.
Qed.

Lemma silent_stereo_slots (n : nat) :
  concat (map stereo_slots (replicate n (f32_zero, f32_zero)))
  = replicate (2 * n) f32_zero.
Proof.
  induction n as [ | n IH]; [reflexivity | ].
  replace (2 * S n)%nat with (S (S (2 * n))) by lia.
  cbn [replicate map concat]. rewrite IH. reflexivity.
Qed.

Lemma silent_mono_slots (n : nat) :
  map mono_slot (replicate n (f32_zero, f32_zero)) = replicate n f32_zero.
Proof.
  induction n as [ | n IH]; [reflexivity | ].
  cbn [replicate map]. rewrite IH. reflexivity.
Qed.

Lemma clock_finite_le (step : F32) (n : nat) : forall (x : F32) (k : nat),
  (k <= n)%nat -> clock_finite step x n = true ->
  clock_finite step x k = true.
Proof.
  induction n as [ | n IH]; intros x k Hk H.
  - replace k with O by lia. reflexivity.
  - destruct k as [ | k]; [reflexivity | ].
    cbn [clock_finite] in H |- *. apply andb_true_iff in H as [Hx H].
    rewrite Hx. apply (IH _ k); [lia | exact H].
Qed.

(** ** The clock of a song that is never wrapped *)

Lemma pos_iter_xO (p d : positive) :
  Zpos (Pos.iter xO p d) = Zpos p * 2 ^ Zpos d.
Proof.
  induction d as [ | d IH] using Pos.peano_ind.
  - cbn. lia.
  - rewrite Pos.iter_succ, Pos2Z.inj_xO, IH, Pos2Z.inj_succ.
    rewrite Z.pow_succ_r by lia. lia.
Qed.

Lemma digits2_pos_upper (m : positive) : Zpos m < 2 ^ Zpos (digits2_pos m).
Proof.
  induction m as [m IH | m IH | ]; cbn [digits2_pos].
  - rewrite Pos2Z.inj_succ, Z.pow_succ_r by lia. lia.
  - rewrite Pos2Z.inj_succ, Z.pow_succ_r by lia. lia.
  - cbn. lia.
Qed.

Lemma round_nearest_even_range (m : Z) (l : location) :
  m <= round_nearest_even m l <= m + 1.
Proof.
  destruct l as [ | [ | | ]]; cbn; try lia. destruct (Z.even m); lia.
Qed.

(** [shl_align] keeps the value and takes the lesser exponent. *)
Lemma shl_align_units (p : positive) (e e' : Z) :
  -149 <= e -> -149 <= e' ->
  -149 <= snd (shl_align p e e') /\
  f32_units (fst (shl_align p e e')) (snd (shl_align p e e'))
    = f32_units p e.
Proof.
  intros He He'. unfold shl_align, f32_units.
  destruct (e' - e) as [ | d | d] eqn:E; cbn [fst snd];
    try (split; [lia | reflexivity]).
  split; [lia | ]. rewrite pos_iter_xO.
  replace (e + 149) with ((e' + 149) + Zpos d) by lia.
  rewrite (Z.pow_add_r 2 (e' + 149) (Zpos d)) by lia. ring.
Qed.

Lemma shr_fexp_value (m e : Z) :
  0 < m ->
  snd (shr_fexp 24 128 m e loc_Exact)
    = Z.max e (fexp 24 128 (Zdigits2 m + e)) /\
  shr_m (fst (shr_fexp 24 128 m e loc_Exact))
    = m / 2 ^ (snd (shr_fexp 24 128 m e loc_Exact) - e) /\
  (snd (shr_fexp 24 128 m e loc_Exact) = e ->
   loc_of_shr_record (fst (shr_fexp 24 128 m e loc_Exact)) = loc_Exact).
Proof.
  intros Hm. unfold shr_fexp, shr.
  destruct (fexp 24 128 (Zdigits2 m + e) - e) as [ | n | n] eqn:E;
    cbn [fst snd shr_record_of_loc shr_m loc_of_shr_record].
  - rewrite Z.sub_diag, Z.div_1_r. repeat split; lia.
  - split; [lia | ]. split; [ | lia].
    rewrite iter_shr_1_shiftr by (cbn; lia). cbn [shr_m].
    rewrite Z.shiftr_div_pow2 by lia. do 2 f_equal. lia.
  - rewrite Z.sub_diag, Z.div_1_r. repeat split; lia.
Qed.

(** Rounding a value below a power of two does not pass it. *)
Lemma binary_round_aux_below (mz ez T : Z) :
  0 < mz -> -149 <= ez -> -125 <= T <= 100 ->
  mz * 2 ^ (ez + 149) < 2 ^ (T + 149) ->
  exists m e,
    binary_round_aux 24 128 false mz ez loc_Exact = S754_finite false m e /\
    -149 <= e /\ Zpos m < 2 ^ 24 /\ f32_units m e <= 2 ^ (T + 149).
Proof.
  intros Hm He HT Hv. unfold binary_round_aux.
  destruct (shr_fexp_value mz ez Hm) as (He' & Hf & Hex).
  destruct (shr_fexp 24 128 mz ez loc_Exact) as [mrs' e'] eqn:E1.
  cbn [fst snd] in He', Hf, Hex.
  destruct mz as [ | q | q]; try lia. cbn [Zdigits2] in He'.
  pose proof (digits2_pos_lower q) as Hlo.
  pose proof (digits2_pos_upper q) as Hup.
  set (d := Zpos (digits2_pos q)) in *.
  assert (Hd : 1 <= d) by (subst d; lia).
  assert (HdT : d + ez <= T).
  { assert (H : 2 ^ (d - 1 + (ez + 149)) < 2 ^ (T + 149)).
    { rewrite Z.pow_add_r by lia.
      eapply Z.le_lt_trans; [ | exact Hv].
      apply Z.mul_le_mono_nonneg_r; [apply Z.pow_nonneg; lia | exact Hlo]. }
    apply Z.pow_lt_mono_r_iff in H; lia. }
  assert (HezT : ez < T) by lia.
  set (s := e' - ez) in *.
  assert (Hs : 0 <= s /\ d - 24 <= s /\ s <= d - 1)
    by (subst s; unfold fexp, emin in He'; lia).
  set (f := shr_m mrs') in *.
  assert (Hf0 : 0 < f).
  { rewrite Hf. apply Z.div_str_pos. split; [apply Z.pow_pos_nonneg; lia | ].
    eapply Z.le_trans; [ | exact Hlo]. apply Z.pow_le_mono_r; lia. }
  assert (Hf24 : f < 2 ^ 24).
  { rewrite Hf. apply Z.div_lt_upper_bound; [apply Z.pow_pos_nonneg; lia | ].
    rewrite <- Z.pow_add_r by lia.
    eapply Z.lt_le_trans; [exact Hup | ]. apply Z.pow_le_mono_r; lia. }
  pose proof (round_nearest_even_range f (loc_of_shr_record mrs')) as Hr.
  set (m1 := round_nearest_even f (loc_of_shr_record mrs')) in *.
  assert (Hm1 : m1 * 2 ^ (e' + 149) <= 2 ^ (T + 149)).
  { destruct (Z.eq_dec e' ez) as [Heq | Hne].
    - assert (m1 = Zpos q).
      { subst m1. rewrite (Hex Heq). cbn [round_nearest_even].
        subst f. rewrite Hf. subst s. rewrite Heq, Z.sub_diag.
        apply Z.div_1_r. }
      rewrite H, Heq. lia.
    - assert (He'T : e' <= T - 24) by (unfold fexp, emin in He'; lia).
      assert (Hfs : f * 2 ^ s <= Zpos q).
      { rewrite Hf, Z.mul_comm.
        apply Z.mul_div_le, Z.pow_pos_nonneg; lia. }
      assert (Hlt : f * 2 ^ (e' + 149) < 2 ^ (T - e') * 2 ^ (e' + 149)).
      { rewrite <- (Z.pow_add_r 2 (T - e')) by lia.
        replace (T - e' + (e' + 149)) with (T + 149) by lia.
        eapply Z.le_lt_trans; [ | exact Hv].
        replace (e' + 149) with (s + (ez + 149)) by (subst s; lia).
        rewrite Z.pow_add_r, Z.mul_assoc by lia.
        apply Z.mul_le_mono_nonneg_r; [apply Z.pow_nonneg; lia | exact Hfs]. }
      apply Z.mul_lt_mono_pos_r in Hlt; [ | apply Z.pow_pos_nonneg; lia].
      replace (T + 149) with (T - e' + (e' + 149)) by lia.
      rewrite (Z.pow_add_r 2 (T - e') (e' + 149)) by lia.
      apply Z.mul_le_mono_nonneg_r; [apply Z.pow_nonneg; lia | lia]. }
  assert (He'bounds : -149 <= e' <= 100) by (unfold fexp, emin in He'; lia).
  destruct (Z.eq_dec m1 (2 ^ 24)) as [Hcarry | Hnc].
  - rewrite Hcarry in *. unfold shr_fexp.
    change (Zdigits2 (2 ^ 24)) with 25.
    replace (fexp 24 128 (25 + e') - e') with 1
      by (unfold fexp, emin; lia).
    cbn [shr shr_record_of_loc SpecFloat.iter_pos shr_1 shr_m].
    change (2 ^ 24) with 16777216. cbn [shr_1 shr_m].
    replace (e' + 1 <=? 128 - 24) with true
      by (symmetry; apply Z.leb_le; lia).
    exists 8388608%positive, (e' + 1). split; [reflexivity | ].
    split; [lia | ]. split; [reflexivity | ].
    unfold f32_units. replace (e' + 1 + 149) with (Z.succ (e' + 149)) by lia.
    rewrite Z.pow_succ_r by lia. change (2 ^ 24) with 16777216 in Hm1. lia.
  - assert (Hlt : m1 < 2 ^ 24) by lia.
    destruct m1 as [ | q1 | q1] eqn:Em1; try lia.
    assert (Hd1 : Zpos (digits2_pos q1) <= 24)
      by (apply digits2_pos_bound; lia).
    unfold shr_fexp, shr. cbn [Zdigits2].
    destruct (fexp 24 128 (Zpos (digits2_pos q1) + e') - e')
      as [ | n | n] eqn:E2;
      try (unfold fexp, emin in E2; lia);
      cbn [shr_record_of_loc shr_m];
      (replace (e' <=? 128 - 24) with true
         by (symmetry; apply Z.leb_le; lia));
      exists q1, e'; (split; [reflexivity | ]);
      (split; [lia | ]); (split; [exact Hlt | exact Hm1]).
Qed.

Lemma shl_align_le (p : positive) (e e' : Z) :
  -149 <= e' <= e ->
  f32_units (fst (shl_align p e e')) e' = f32_units p e.
Proof.
  intros Hle. unfold shl_align, f32_units.
  destruct (e' - e) as [ | d | d] eqn:E; cbn [fst]; try lia.
  - replace e' with e by lia. reflexivity.
  - rewrite pos_iter_xO.
    replace (e + 149) with ((e' + 149) + Zpos d) by lia.
    rewrite (Z.pow_add_r 2 (e' + 149) (Zpos d)) by lia. ring.
Qed.

Lemma clock_boundedb_spec (x : F32) :
  clock_boundedb x = true -> clock_bounded x.
Proof.
  destruct x as [[ | ] | | | [ | ] m e]; cbn [clock_boundedb];
    try discriminate.
  - intros _. left. reflexivity.
  - intros H. apply andb_true_iff in H as [H H3].
    apply andb_true_iff in H as [H1 H2].
    right. exists m, e. split; [reflexivity | ].
    split; [apply Z.leb_le, H1 | ].
    split; [apply Z.ltb_lt, H2 | apply Z.leb_le, H3].
Qed.

Lemma clock_bounded_finite (x : F32) : clock_bounded x -> is_finite x = true.
Proof. intros [-> | (m & e & -> & _)]; reflexivity. Qed.

(** The period of a frame at 48000 Hz. *)
Lemma frequency_48000 :
  f32_div (f32_of_Z 1) (f32_of_Z 48000) = S754_finite false 11453246 (-39).
Proof. vm_compute. reflexivity. Qed.

(** At 1024 seconds the clock stands still, in each of the ways a binary32
    value writes 1024. *)
Lemma clock_stands_still :
  forallb (fun k =>
             clock_boundedb
               (f32_add (S754_finite false (Z.to_pos (2 ^ (10 - k))) k)
                        (S754_finite false 11453246 (-39))))
          (seqZ (-13) 24) = true.
Proof. vm_compute. reflexivity. Qed.

(** Below 1024 seconds a frame does not take the clock past 1024. *)
Lemma clock_bounded_step (x : F32) :
  clock_bounded x ->
  clock_bounded (f32_add x (S754_finite false 11453246 (-39))).
Proof.
  intros [-> | (mx & ex & -> & He & Hm & Hx)].
  { apply clock_boundedb_spec. vm_compute. reflexivity. }
  assert (HP : 0 < 2 ^ (ex + 149)) by (apply Z.pow_pos_nonneg; lia).
  assert (Hex : ex <= 10).
  { assert (H : 2 ^ (ex + 149) <= 2 ^ (10 + 149))
      by (unfold f32_units in Hx; nia).
    apply Z.pow_le_mono_r_iff in H; lia. }
  destruct (Z.eq_dec (f32_units mx ex) (2 ^ (10 + 149))) as [Heq | Hne].
  - (* the clock is at 1024 *)
    assert (Hpow : 2 ^ (10 + 149) = 2 ^ (10 - ex) * 2 ^ (ex + 149)).
    { rewrite <- Z.pow_add_r by lia. f_equal. lia. }
    assert (Hmx : Zpos mx = 2 ^ (10 - ex)).
    { unfold f32_units in Heq. rewrite Hpow in Heq.
      apply Z.mul_reg_r in Heq; lia. }
    assert (Hlow : -13 <= ex).
    { assert (H : 2 ^ (10 - ex) < 2 ^ 24) by lia.
      apply Z.pow_lt_mono_r_iff in H; lia. }
    assert (Hmx' : mx = Z.to_pos (2 ^ (10 - ex)))
      by (rewrite <- Hmx; reflexivity).
    rewrite Hmx'. apply clock_boundedb_spec.
    pose proof clock_stands_still as Hall.
    rewrite forallb_forall in Hall. apply (Hall ex).
    apply list_elem_of_In, elem_of_seqZ. lia.
  - (* the clock is below 1024 *)
    assert (Hlt : f32_units mx ex < 2 ^ (10 + 149)) by lia.
    assert (Hsum : f32_units mx ex + f32_units 11453246 (-39)
                   < 2 ^ (10 + 149)).
    { unfold f32_units in *. change (-39 + 149) with 110.
      destruct (Z_le_gt_dec (-14) ex) as [Hhi | Hlo].
      - assert (Hpow : 2 ^ (10 + 149) = 2 ^ (10 - ex) * 2 ^ (ex + 149)).
        { rewrite <- Z.pow_add_r by lia. f_equal. lia. }
        assert (H135 : 2 ^ 135 <= 2 ^ (ex + 149))
          by (apply Z.pow_le_mono_r; lia).
        rewrite Hpow in Hlt |- *.
        apply Z.mul_lt_mono_pos_r in Hlt; [ | exact HP].
        assert (Hstep : (Zpos mx + 1) * 2 ^ (ex + 149)
                        <= 2 ^ (10 - ex) * 2 ^ (ex + 149))
          by (apply Z.mul_le_mono_nonneg_r; lia).
        lia.
      - assert (H134 : 2 ^ (ex + 149) <= 2 ^ 134)
          by (apply Z.pow_le_mono_r; lia).
        assert (Hprod : Zpos mx * 2 ^ (ex + 149) <= 2 ^ 24 * 2 ^ 134)
          by (apply Z.mul_le_mono_nonneg; lia).
        lia. }
    unfold f32_add, SFadd. cbn [cond_Zopp].
    set (ez := Z.min ex (-39)).
    assert (Hez : -149 <= ez <= ex /\ ez <= -39) by (subst ez; lia).
    pose proof (shl_align_le mx ex ez ltac:(lia)) as Ha.
    pose proof (shl_align_le 11453246 (-39) ez ltac:(lia)) as Hb.
    set (a := fst (shl_align mx ex ez)) in *.
    set (b := fst (shl_align 11453246 (-39) ez)) in *.
    rewrite <- Pos2Z.inj_add. cbn [binary_normalize]. unfold binary_round.
    pose proof (shl_align_units (a + b) ez
                  (fexp 24 128 (Zpos (digits2_pos (a + b)) + ez))
                  ltac:(lia) ltac:(unfold fexp, emin; lia)) as [Hs Hu].
    destruct (shl_align (a + b) ez _) as [mz ez'].
    cbn [fst snd] in Hs, Hu.
    destruct (binary_round_aux_below (Zpos mz) ez' 10 ltac:(lia) Hs
                ltac:(lia)) as (m & e & -> & H1 & H2 & H3).
    + change (Zpos mz * 2 ^ (ez' + 149)) with (f32_units mz ez').
      rewrite Hu. unfold f32_units in *. rewrite Pos2Z.inj_add.
      rewrite Z.mul_add_distr_r. lia.
    + right. exists m, e. repeat split; assumption.
Qed.

Lemma clock_never_overflows (n : nat) : forall x,
  clock_bounded x ->
  clock_finite (S754_finite false 11453246 (-39)) x n = true.
Proof.
  induction n as [ | n IH]; intros x Hx; [reflexivity | ].
  cbn [clock_finite]. rewrite (clock_bounded_finite x Hx).
  apply IH, clock_bounded_step, Hx.
Qed.

Section DegenerateFacts.

Variable powf : F32 -> F32 -> F32.

(** [tick] on a player whose next [n] frames are silent. *)
Lemma tick_of_silent_render (p p' : player) (n : nat) (audio : list F32) :
  render powf n p = Ok (p', replicate n (f32_zero, f32_zero)) ->
  length audio = (if in_stereo p then 2 * n else n)%nat ->
  tick powf p audio = Ok (p', replicate (length audio) f32_zero).
Proof.
  intros Hr Hlen. unfold tick. destruct (in_stereo p).
  - rewrite Hlen.
    replace (Z.to_nat ((Z.of_nat (2 * n) + 1) / 2)) with n
      by (replace ((Z.of_nat (2 * n) + 1) / 2) with (Z.of_nat n)
            by (apply Z.div_unique with 1; lia);
          rewrite Nat2Z.id; reflexivity).
    pose proof (tick_stereo_render powf n [] audio p Hlen) as H.
    cbn [length app] in H. change (Z.of_nat 0) with 0 in H. rewrite H.
    rewrite Hr. bind_ok. rewrite silent_stereo_slots. reflexivity.
  - rewrite Nat2Z.id, Hlen.
    pose proof (tick_mono_render powf n [] audio p Hlen) as H.
    cbn [length app] in H. change (Z.of_nat 0) with 0 in H. rewrite H.
    rewrite Hr. bind_ok. rewrite silent_mono_slots. reflexivity.
Qed.

(** The first [handle_one] after [play], on a song whose events at tick 0
    are all ignored by [dispatch]: no voice, no sound. *)
Lemma handle_one_after_play (p : player) (l r : F32) :
  0 <= ticks_per_second (current p) < 2 ^ 32 ->
  seconds_elapsed p = f32_zero -> last_cursor p = None ->
  channels p = fresh_channels -> patch_ids p = replicate 16 None ->
  sorted_keys (commands (current p)) ->
  Forall (fun e => is_meta e = true) (entries_at 0 (commands (current p))) ->
  handle_one powf p l r
    = Ok (set_on_voices (set_last_cursor (set_cursor p 0) (Some 0)) 0, l, r).
Proof.
  intros Hr Hse Hlc Hch Hid Hs Hm.
  rewrite (handle_one_due_events powf p l r Hs).
  rewrite Hse, cursor_at_start by (apply f32_of_Z_finite, Hr).
  unfold due_events. rewrite Hlc.
  change (cursor_advanced None 0) with true. cbn iota.
  change (Ok 0 ≫= ?f) with (f 0). cbn beta.
  rewrite dispatch_all_meta by exact Hm.
  change (Ok ?a ≫= ?f) with (f a). cbn beta iota.
  apply mix_channels_fresh; [exact Hch | exact Hid | reflexivity].
Qed.

Lemma handle_one_zero_rate (q : player) (l r : F32) :
  zero_rate_state q -> is_finite (seconds_elapsed q) = true ->
  handle_one powf q l r
    = Ok (set_on_voices (set_last_cursor (set_cursor q 0) (Some 0)) 0, l, r).
Proof.
  intros (Hpb & He & Ht & Hs & Hm & Hch & Hid & Hlc & Hse) Hf.
  rewrite (handle_one_due_events powf q l r Hs).
  rewrite Ht, cursor_zero_rate by exact Hf. bind_ok.
  unfold due_events. destruct Hlc as [Hlc | Hlc]; rewrite Hlc.
  - change (cursor_advanced None 0) with true. cbn iota.
    rewrite dispatch_all_meta by exact Hm. bind_ok.
    apply mix_channels_fresh; [exact Hch | exact Hid | reflexivity].
  - change (cursor_advanced (Some 0) 0) with false. cbn iota.
    cbn [dispatch_all]. bind_ok.
    rewrite mix_channels_fresh; [ | exact Hch | exact Hid | reflexivity].
    destruct q. cbn in Hlc. subst. reflexivity.
Qed.

Lemma tick_frame_zero_rate (q : player) :
  zero_rate_state q -> is_finite (seconds_elapsed q) = true ->
  exists q',
    tick_frame powf q = Ok (q', f32_zero, f32_zero) /\
    zero_rate_state q' /\
    seconds_elapsed q' = f32_add (seconds_elapsed q) (frequency q) /\
    frequency q' = frequency q.
Proof.
  intros Hz Hf. unfold tick_frame.
  rewrite (handle_one_zero_rate q f32_zero f32_zero Hz Hf).
  destruct Hz as (Hpb & He & Ht & Hs & Hm & Hch & Hid & Hlc & Hse).
  rewrite Hpb. bind_ok. cbv zeta.
  cbn [seconds_end seconds_elapsed frequency set_seconds_elapsed
       set_on_voices set_last_cursor set_cursor].
  rewrite Hse. bind_ok. unfold maybe_echo_one.
  cbn [env_params set_seconds_elapsed set_on_voices set_last_cursor
       set_cursor].
  rewrite He. eexists. split; [reflexivity | ].
  split; [ | split; reflexivity].
  unfold zero_rate_state. cbn.
  repeat (split; [assumption | ]). split; [right; reflexivity | exact Hse].
Qed.

Lemma render_zero_rate (n : nat) : forall q,
  zero_rate_state q ->
  clock_finite (frequency q) (seconds_elapsed q) n = true ->
  exists q', render powf n q = Ok (q', replicate n (f32_zero, f32_zero)).
Proof.
  induction n as [ | n IH]; intros q Hz Hc; [eexists; reflexivity | ].
  cbn [clock_finite] in Hc. apply andb_true_iff in Hc as [Hf Hc].
  destruct (tick_frame_zero_rate q Hz Hf) as (q1 & Hq1 & Hz1 & Hs1 & Hf1).
  rewrite <- Hs1, <- Hf1 in Hc. destruct (IH q1 Hz1 Hc) as [q' Hq'].
  exists q'. cbn [render replicate]. rewrite Hq1. bind_ok.
  rewrite Hq'. reflexivity.
Qed.

(** The two frames after [play] of a song with [ticks_end == 0]: the first
    wraps the clock by [fmod(seconds_elapsed, 0)], the second casts
    [ticks_per_second * NaN] to [U32]. *)
Lemma tick_frame_zero_end (q : player) :
  playback q = true -> env_params q = None ->
  seconds_elapsed q = f32_zero -> seconds_end q = f32_zero ->
  last_cursor q = None ->
  channels q = fresh_channels -> patch_ids q = replicate 16 None ->
  0 <= ticks_per_second (current q) < 2 ^ 32 ->
  sorted_keys (commands (current q)) ->
  Forall (fun e => is_meta e = true) (entries_at 0 (commands (current q))) ->
  f32_ltb f32_zero (frequency q) = true ->
  exists p2,
    tick_frame powf q = Ok (p2, f32_zero, f32_zero) /\
    seconds_elapsed p2 = f32_nan /\ last_cursor p2 = None /\
    tick_frame powf p2 = Undefined ub_float_cast.
Proof.
  intros Hpb He Hse Hend Hlc Hch Hid Hr Hs Hm Hfreq.
  pose proof (handle_one_after_play q f32_zero f32_zero Hr Hse Hlc Hch Hid
                Hs Hm) as Hh.
  assert (Hf1 : tick_frame powf q
                = Ok (set_last_cursor
                        (set_seconds_elapsed
                           (set_on_voices
                              (set_last_cursor (set_cursor q 0) (Some 0)) 0)
                           f32_nan) None, f32_zero, f32_zero)).
  { unfold tick_frame. rewrite Hpb, Hh. bind_ok. cbv zeta.
    cbn [seconds_end seconds_elapsed frequency set_seconds_elapsed
         set_on_voices set_last_cursor set_cursor].
    rewrite Hend, Hse, (f32_add_zero_positive _ Hfreq), Hfreq.
    rewrite f32_fmod_zero. bind_ok. unfold maybe_echo_one.
    cbn [env_params set_seconds_elapsed set_on_voices set_last_cursor
         set_cursor].
    rewrite He. reflexivity. }
  eexists. split; [exact Hf1 | ].
  split; [reflexivity | ]. split; [reflexivity | ].
  unfold tick_frame.
  cbn [playback set_seconds_elapsed set_on_voices set_last_cursor
       set_cursor].
  rewrite Hpb. rewrite handle_one_due_events by exact Hs.
  cbn [seconds_elapsed set_seconds_elapsed set_on_voices set_last_cursor
       set_cursor].
  rewrite cursor_of_nan. reflexivity.
Qed.

Lemma tick_frame_zero_length (p : player) (next : song) :
  version next = CURRENT_VERSION ->
  0 < ticks_per_second next < 2 ^ 32 -> ticks_end next = 0 ->
  sorted_keys (commands next) ->
  Forall (fun e => is_meta e = true) (entries_at 0 (commands next)) ->
  f32_ltb f32_zero (frequency p) = true ->
  seconds_end (fst (play p next None)) = f32_zero /\
  exists p2,
    tick_frame powf (fst (play p next None)) = Ok (p2, f32_zero, f32_zero) /\
    seconds_elapsed p2 = f32_nan /\ last_cursor p2 = None /\
    tick_frame powf p2 = Undefined ub_float_cast.
Proof.
  intros Hv Hr He Hs Hm Hfreq.
  assert (Hend : seconds_end (fst (play p next None)) = f32_zero).
  { rewrite (play_accepts p next None Hv). cbn [fst seconds_end]. rewrite He.
    destruct (f32_of_Z_positive (ticks_per_second next) Hr) as (m & e & ->).
    reflexivity. }
  split; [exact Hend | ].
  apply tick_frame_zero_end; try exact Hend;
    rewrite (play_accepts p next None Hv); cbn; try reflexivity;
    try assumption.
  lia.
Qed.

(** [seconds_end] of a song with [ticks_per_second == 0] is +infinity or
    NaN: nothing is greater. *)
Lemma seconds_end_zero_rate (p : player) (next : song) (y : F32) :
  version next = CURRENT_VERSION ->
  ticks_per_second next = 0 -> 0 <= ticks_end next < 2 ^ 32 ->
  f32_ltb (seconds_end (fst (play p next None))) y = false.
Proof.
  intros Hv Ht Hre.
  rewrite (play_accepts p next None Hv). cbn [fst seconds_end]. rewrite Ht.
  destruct (Z.eq_dec (ticks_end next) 0) as [-> | Hne]; [reflexivity | ].
  destruct (f32_of_Z_positive (ticks_end next) ltac:(lia)) as (m & e & ->).
  destruct y as [ | [ | ] | | [ | ] my ey]; reflexivity.
Qed.

Lemma tick_zero_rate_silent (p : player) (next : song) (n : nat)
    (audio : list F32) :
  version next = CURRENT_VERSION ->
  ticks_per_second next = 0 -> 0 <= ticks_end next < 2 ^ 32 ->
  sorted_keys (commands next) ->
  Forall (fun e => is_meta e = true) (entries_at 0 (commands next)) ->
  clock_finite (frequency p) f32_zero n = true ->
  length audio = (if in_stereo p then 2 * n else n)%nat ->
  exists p',
    tick powf (fst (play p next None)) audio
      = Ok (p', replicate (length audio) f32_zero).
Proof.
  intros Hv Ht Hre Hs Hm Hc Hlen.
  assert (Hz : zero_rate_state (fst (play p next None))).
  { unfold zero_rate_state.
    split; [ | split; [ | split; [ | split;
      [ | split; [ | split; [ | split; [ | split]]]]]]];
      try (intros y; apply seconds_end_zero_rate; assumption);
      rewrite (play_accepts p next None Hv); cbn; try reflexivity;
      try assumption.
    left. reflexivity. }
  assert (Hc' : clock_finite (frequency (fst (play p next None)))
                  (seconds_elapsed (fst (play p next None))) n = true)
    by (rewrite (play_accepts p next None Hv); exact Hc).
  destruct (render_zero_rate n _ Hz Hc') as [p' Hr'].
  exists p'. apply (tick_of_silent_render _ p' n); [exact Hr' | ].
  rewrite (play_accepts p next None Hv). exact Hlen.
Qed.

(** At 48000 Hz the clock of a song with [ticks_per_second == 0] stands
    still at 1024 seconds: every buffer is filled with silence. *)
Lemma tick_zero_rate_silence (p : player) (next : song) (audio : list F32) :
  frequency p = f32_div (f32_of_Z 1) (f32_of_Z 48000) ->
  version next = CURRENT_VERSION ->
  ticks_per_second next = 0 -> 0 <= ticks_end next < 2 ^ 32 ->
  sorted_keys (commands next) ->
  Forall (fun e => is_meta e = true) (entries_at 0 (commands next)) ->
  in_stereo p = false \/ Nat.Even (length audio) ->
  exists p',
    tick powf (fst (play p next None)) audio
      = Ok (p', replicate (length audio) f32_zero).
Proof.
  intros Hf Hv Ht Hre Hs Hm Hmode. rewrite frequency_48000 in Hf.
  assert (Hn : exists n,
             length audio = (if in_stereo p then 2 * n else n)%nat).
  { destruct (in_stereo p).
    - destruct Hmode as [ | [k Hk]]; [discriminate | ]. exists k. exact Hk.
    - exists (length audio). reflexivity. }
  destruct Hn as [n Hn].
  apply (tick_zero_rate_silent p next n); try assumption.
  rewrite Hf. apply clock_never_overflows. left. reflexivity.
Qed.

(** C7.  [play] computes [seconds_end] by the float division
    [ticks_end / ticks_per_second], which does not trap, and [tick] has no
    guard on [ticks_per_second] or [seconds_end].  Take a song of version 3
    whose events at tick 0 are none of NoteOn, NoteOff, PitchWheel and
    ProgramChange, played without echo.

    With [ticks_end == 0] and [ticks_per_second != 0] (the silence song of
    the specification), [seconds_end] is 0: the first frame is silent and
    wraps the clock by [fmod(seconds_elapsed, 0)], which is NaN, and the
    second frame casts [ticks_per_second * NaN] to [U32], which is undefined
    behaviour: [tick] on any buffer of more than one frame does not return
    silence.

    With [ticks_per_second == 0] the quotient is +infinity or NaN, the
    clock is never wrapped and the cursor stays 0: [tick] fills the buffer
    with silence, over as many frames as the clock stays finite, and at
    48000 Hz over every buffer (the clock stands still at 1024 seconds). *)
Theorem tick_without_guard (p : player) (next : song) :
  version next = CURRENT_VERSION ->
  0 <= ticks_per_second next < 2 ^ 32 ->
  0 <= ticks_end next < 2 ^ 32 ->
  sorted_keys (commands next) ->
  Forall (fun e => is_meta e = true) (entries_at 0 (commands next)) ->
  snd (play p next None) = Ok tt /\
  seconds_end (fst (play p next None))
    = f32_div (f32_of_Z (ticks_end next))
              (f32_of_Z (ticks_per_second next)) /\
  (ticks_end next = 0 -> ticks_per_second next <> 0 ->
   f32_ltb f32_zero (frequency p) = true ->
   seconds_end (fst (play p next None)) = f32_zero /\
   (exists p2,
      tick_frame powf (fst (play p next None))
        = Ok (p2, f32_zero, f32_zero) /\
      seconds_elapsed p2 = f32_nan /\
      tick_frame powf p2 = Undefined ub_float_cast) /\
   (forall audio,
      (if in_stereo p then 2 < length audio else 1 < length audio)%nat ->
      tick powf (fst (play p next None)) audio
        = Undefined ub_float_cast)) /\
  (ticks_per_second next = 0 ->
   (forall y, f32_ltb (seconds_end (fst (play p next None))) y = false) /\
   (forall (n : nat) (audio : list F32),
      clock_finite (frequency p) f32_zero n = true ->
      length audio = (if in_stereo p then 2 * n else n)%nat ->
      exists p',
        tick powf (fst (play p next None)) audio
          = Ok (p', replicate (length audio) f32_zero)) /\
   (frequency p = f32_div (f32_of_Z 1) (f32_of_Z 48000) ->
    forall audio : list F32,
      int_indexed audio ->
      in_stereo p = false \/ Nat.Even (length audio) ->
      exists p',
        tick powf (fst (play p next None)) audio
          = Ok (p', replicate (length audio) f32_zero))).
Proof.
  intros Hv Hr Hre Hs Hm.
  split; [rewrite (play_accepts p next None Hv); reflexivity | ].
  split; [rewrite (play_accepts p next None Hv); reflexivity | ].
  split.
  - intros He Hne Hfreq.
    destruct (tick_frame_zero_length p next Hv ltac:(lia) He Hs Hm Hfreq)
      as (Hend & p2 & Hf1 & Hnan & _ & Hf2).
    split; [exact Hend | ].
    split; [exists p2; repeat split; assumption | ].
    intros audio Hlen. unfold tick.
    assert (Hst : in_stereo (fst (play p next None)) = in_stereo p)
      by (rewrite (play_accepts p next None Hv); reflexivity).
    rewrite Hst. destruct (in_stereo p).
    + destruct audio as [ | a [ | b [ | c rest]]]; cbn [length] in Hlen;
        try lia.
      assert (Hrounds : exists k,
                 Z.to_nat ((Z.of_nat (length (a :: b :: c :: rest)) + 1) / 2)
                 = S (S k)).
      { exists (Z.to_nat ((Z.of_nat (length (a :: b :: c :: rest)) + 1) / 2)
                - 2)%nat.
        assert (2 <= (Z.of_nat (length (a :: b :: c :: rest)) + 1) / 2)
          by (apply Z.div_le_lower_bound; cbn [length]; lia).
        lia. }
      destruct Hrounds as [k ->]. cbn [tick_stereo]. rewrite Hf1. bind_ok.
      change (0 + 0) with 0. change (0 + 1) with 1.
      change (index_set (a :: b :: c :: rest) 0 (clamp_unit f32_zero))
        with (index_set ([] ++ a :: b :: c :: rest)
                (Z.of_nat (length (@nil F32))) (clamp_unit f32_zero)).
      rewrite index_set_app. bind_ok. cbn [app].
      change (index_set (?x :: b :: c :: rest) 1 (clamp_unit f32_zero))
        with (index_set ([x] ++ b :: c :: rest) (Z.of_nat (length [x]))
                (clamp_unit f32_zero)).
      rewrite index_set_app. bind_ok. rewrite Hf2. reflexivity.
    + destruct audio as [ | a [ | b rest]]; cbn [length] in Hlen; try lia.
      rewrite Nat2Z.id. cbn [length tick_mono]. rewrite Hf1. bind_ok.
      change (index_set (a :: b :: rest) 0 ?v)
        with (index_set ([] ++ a :: b :: rest) (Z.of_nat (length (@nil F32)))
                v).
      rewrite index_set_app. bind_ok. rewrite Hf2. reflexivity.
  - intros Ht.
    split; [intros y; apply seconds_end_zero_rate; assumption | ].
    split.
    + intros n audio Hc Hlen.
      apply (tick_zero_rate_silent p next n); assumption.
    + intros Hf audio _ Hmode.
      apply tick_zero_rate_silence; assumption.
Qed.

End DegenerateFacts.

Lemma tick_without_guard_witness :
  exists s z,
    load song_silence = Ok s /\
    ticks_per_second s = 48000 /\ ticks_end s = 0 /\
    tick powf_octaves (fst (play example_player s None))
         (replicate 256 f32_zero)
      = Undefined ub_float_cast /\
    load song_zero_rate = Ok z /\
    ticks_per_second z = 0 /\ ticks_end z = 48000 /\
    exists p',
      tick powf_octaves (fst (play example_player z None))
           (replicate 256 f32_zero)
        = Ok (p', replicate 256 f32_zero).
Proof.
  do 2 eexists. split; [vm_compute; reflexivity | ].
  split; [reflexivity | ]. split; [reflexivity | ].
  split; [ | split; [vm_compute; reflexivity | ]].
  - match goal with
    | |- tick _ (fst (play _ ?s None)) _ = _ =>
        pose proof (tick_without_guard powf_octaves example_player s
                      eq_refl
                      ltac:(vm_compute; split; [discriminate | reflexivity])
                      ltac:(vm_compute; split; [discriminate | reflexivity])
                      (load_sorted song_silence s
                         ltac:(vm_compute; reflexivity))
                      ltac:(vm_compute; repeat constructor)) as H
    end.
    destruct H as (_ & _ & H & _).
    cbn [ticks_end ticks_per_second] in H.
    assert (Hne : 48000 <> 0) by discriminate.
    destruct (H eq_refl Hne eq_refl) as (_ & _ & Hrun).
    apply Hrun. change (in_stereo example_player) with true. cbn iota.
    rewrite length_replicate. lia.
  - split; [reflexivity | ]. split; [reflexivity | ].
    match goal with
    | |- exists _, tick _ (fst (play _ ?s None)) _ = _ =>
        pose proof (tick_without_guard powf_octaves example_player s
                      eq_refl
                      ltac:(vm_compute; split; [discriminate | reflexivity])
                      ltac:(vm_compute; split; [discriminate | reflexivity])
                      (load_sorted song_zero_rate s
                         ltac:(vm_compute; reflexivity))
                      ltac:(vm_compute; repeat constructor)) as H
    end.
    destruct H as (_ & _ & _ & H).
    destruct (H eq_refl) as (_ & _ & Hrun).
    apply (Hrun eq_refl).
    + unfold int_indexed. rewrite length_replicate. lia.
    + right. exists 128%nat. rewrite length_replicate. reflexivity.
Defined.

(** The song [song_zero_length] has [ticks_end == 0] and hits its drum at
    tick 0: the first frame is not silent, and the second frame casts a NaN
    [seconds_elapsed] to [U32]. *)
Lemma tick_zero_length_song (powf : F32 -> F32 -> F32) :
  exists p',
    load_and_play example_player song_zero_length
      = Ok (started song_zero_length) /\
    ticks_end (current (started song_zero_length)) = 0 /\
    seconds_end (started song_zero_length) = f32_zero /\
    tick powf (started song_zero_length) [f32_zero; f32_zero]
      = Ok (p', [S754_finite false 16646144 (-24);
                 S754_finite false 16646144 (-24)]) /\
    seconds_elapsed p' = f32_nan /\
    tick powf (started song_zero_length)
         [f32_zero; f32_zero; f32_zero; f32_zero]
      = Undefined ub_float_cast.
Proof.
  eexists. split; [vm_compute; reflexivity | ].
  split; [vm_compute; reflexivity | ].
  split; [vm_compute; reflexivity | ].
  split; [vm_compute; reflexivity | ].
  split; vm_compute; reflexivity.
Qed.

(** * Further properties *)

(** ** Little-endian words *)

Lemma lor_shiftl_add (a b k : Z) :
  0 <= k -> 0 <= a < 2 ^ k -> Z.lor a (Z.shiftl b k) = a + b * 2 ^ k.
Proof.
  intros Hk Ha. rewrite Z.shiftl_mul_pow2 by lia.
  symmetry. apply Z.add_nocarry_lor.
  apply Z.bits_inj'. intros i Hi. rewrite Z.land_spec, Z.bits_0.
  destruct (Z.lt_ge_cases i k) as [Hlt | Hge].
  - rewrite Z.mul_pow2_bits_low by lia. apply andb_false_r.
  - rewrite <- (Z.mod_small a (2 ^ k)) by lia.
    rewrite Z.mod_pow2_bits_high by lia. reflexivity.
Qed.

(** [le32] on four bytes is their base-256 value. *)
Lemma le32_value (b0 b1 b2 b3 : Z) :
  is_byte b0 -> is_byte b1 -> is_byte b2 -> is_byte b3 ->
  le32 b0 b1 b2 b3 = b0 + 256 * b1 + 65536 * b2 + 16777216 * b3.
Proof.
  unfold is_byte, le32. intros H0 H1 H2 H3.
  rewrite Z.shiftl_0_r.
  rewrite (lor_shiftl_add b0 b1 8) by lia.
  rewrite (lor_shiftl_add _ b2 16) by lia.
  rewrite (lor_shiftl_add _ b3 24) by lia.
  change (2 ^ 8) with 256. change (2 ^ 16) with 65536.
  change (2 ^ 24) with 16777216.
  rewrite wrap32_small by lia. lia.
Qed.

Lemma u32_bytes_spec (n : Z) :
  0 <= n < 2 ^ 32 ->
  Forall is_byte (u32_bytes n) /\
  le32 (n mod 256) ((n / 256) mod 256) ((n / 65536) mod 256)
       ((n / 16777216) mod 256) = n.
Proof.
  intros Hn. unfold u32_bytes, is_byte.
  assert (H0 : 0 <= n mod 256 < 256) by (apply Z.mod_pos_bound; lia).
  assert (H1 : 0 <= (n / 256) mod 256 < 256) by (apply Z.mod_pos_bound; lia).
  assert (H2 : 0 <= (n / 65536) mod 256 < 256)
    by (apply Z.mod_pos_bound; lia).
  assert (H3 : 0 <= (n / 16777216) mod 256 < 256)
    by (apply Z.mod_pos_bound; lia).
  split; [repeat constructor; lia | ].
  rewrite le32_value by assumption.
  clear H0 H1 H2 H3. Z.to_euclidean_division_equations. lia.
Qed.

(** ** Decoding a stream piece by piece *)

(** The bytes that [read_bytes] returned were all inside the buffer. *)
Lemma read_bytes_inside (n : nat) : forall data w w' bs,
  read_bytes n data w = Ok (w', bs) ->
  w < Z.of_nat (length data) -> w' < Z.of_nat (length data).
Proof.
  induction n as [ | n IH]; intros data w w' bs; cbn.
  - intros [= <- _] Hw. exact Hw.
  - intros H Hw. apply bind_Ok in H as (b & Hb & H).
    apply vector_at_Ok in Hb as [Hb _].
    apply bind_Ok in H as ([w1 bs1] & Hr & H). injection H as <- _.
    apply (IH _ _ _ _ Hr). lia.
Qed.

(** A round that succeeds started inside the buffer and ends at most one past
    its last byte. *)
Lemma load_command_inside data w s w' s' :
  load_command data w s = Ok (w', s') ->
  0 <= w /\ w' <= Z.of_nat (length data).
Proof.
  unfold load_command. intros H.
  apply bind_Ok in H as (b & Hb & H). apply vector_at_Ok in Hb as [Hb _].
  apply bind_Ok in H as ([c n] & Hc & H).
  apply bind_Ok in H as ([w1 cd] & Hr & H).
  apply read_bytes_inside in Hr; [ | lia].
  apply bind_Ok in H as ([w2 s2] & Hcase & H).
  injection H as <- <-.
  assert (w2 < Z.of_nat (length data)); [ | lia].
  destruct c; cbn in Hcase;
    repeat match type of Hcase with
      | (let '(_, _) := ?x in _) = _ => destruct x
      end;
    try (apply bind_Ok in Hcase as ([w3 wave] & Hr' & Hcase);
         apply read_bytes_inside in Hr'; [ | lia]);
    injection Hcase as <- <-; assumption.
Qed.

(** The loop on the second half of a buffer is the loop on that half alone. *)
Lemma load_loop_app_r (fuel : nat) : forall (fuel' : nat) pre post w s,
  0 <= w ->
  Z.of_nat (length post) - w <= Z.of_nat fuel ->
  Z.of_nat (length post) - w <= Z.of_nat fuel' ->
  load_loop fuel (pre ++ post) (Z.of_nat (length pre) + w) s =
  load_loop fuel' post w s.
Proof.
  induction fuel as [ | fuel IH]; intros fuel' pre post w s Hw Hf Hf'.
  - rewrite (load_loop_fuel fuel' 0 post w s) by lia. reflexivity.
  - rewrite (load_loop_unfold fuel' fuel post w s) by lia.
    cbn [load_loop]. rewrite length_app, Nat2Z.inj_add.
    replace (Z.of_nat (length pre) + w <?
             Z.of_nat (length pre) + Z.of_nat (length post))
      with (w <? Z.of_nat (length post))
      by (destruct (Z.ltb_spec w (Z.of_nat (length post)));
          symmetry; [apply Z.ltb_lt | apply Z.ltb_ge]; lia).
    destruct (w <? Z.of_nat (length post)) eqn:Hlt; [ | reflexivity].
    rewrite load_command_app_r by exact Hw.
    destruct (load_command post w s) as [[w1 s1] | | ] eqn:E; cbn;
      try reflexivity.
    apply load_command_step in E as [Hw1 _]. apply Z.ltb_lt in Hlt.
    rewrite (IH fuel) by lia. reflexivity.
Qed.

(** A loop that decodes the first half of a buffer goes on with the second
    half from the song it has built. *)
Lemma load_loop_app (fuel : nat) : forall (fuel' : nat) pre post w s s',
  0 <= w <= Z.of_nat (length pre) ->
  Z.of_nat (length pre) - w <= Z.of_nat fuel ->
  Z.of_nat (length (pre ++ post)) - w <= Z.of_nat fuel' ->
  load_loop fuel pre w s = Ok s' ->
  load_loop fuel' (pre ++ post) w s = load_loop (length post) post 0 s'.
Proof.
  induction fuel as [ | fuel IH]; intros fuel' pre post w s s' Hw Hf Hf' H.
  - cbn in H. injection H as <-.
    replace w with (Z.of_nat (length pre) + 0) by lia.
    apply load_loop_app_r; rewrite ?length_app, ?Nat2Z.inj_add in *; lia.
  - cbn [load_loop] in H.
    destruct (w <? Z.of_nat (length pre)) eqn:Hlt.
    + apply Z.ltb_lt in Hlt.
      apply bind_Ok in H as ([w1 s1] & E & H).
      pose proof (load_command_step _ _ _ _ _ E) as [Hw1 _].
      pose proof (load_command_inside _ _ _ _ _ E) as [_ Hin].
      rewrite length_app, Nat2Z.inj_add in Hf'.
      rewrite (load_loop_unfold fuel' (length (pre ++ post)) (pre ++ post) w s)
        by (rewrite ?length_app, ?Nat2Z.inj_add; lia).
      rewrite length_app, Nat2Z.inj_add.
      replace (w <? Z.of_nat (length pre) + Z.of_nat (length post)) with true
        by (symmetry; apply Z.ltb_lt; lia).
      rewrite (load_command_app_l pre post w s _ E). cbn.
      apply (IH _ pre post w1 s1 s');
        rewrite ?length_app, ?Nat2Z.inj_add; try lia. exact H.
    + apply Z.ltb_ge in Hlt. injection H as <-.
      replace w with (Z.of_nat (length pre) + 0) by lia.
      apply load_loop_app_r; rewrite ?length_app, ?Nat2Z.inj_add in *; lia.
Qed.

Lemma index_app_l {A} (l post : list A) (i : Z) (a : A) :
  index l i = Ok a -> index (l ++ post) i = Ok a.
Proof.
  unfold index. intros H.
  destruct ((0 <=? i) && (i <? Z.of_nat (length l))) eqn:Hr;
    [ | discriminate].
  apply andb_true_iff in Hr as [H0 H1].
  apply Z.leb_le in H0. apply Z.ltb_lt in H1.
  destruct (l !! Z.to_nat i) as [x | ] eqn:E; [ | discriminate].
  rewrite length_app, Nat2Z.inj_add.
  replace ((0 <=? i) && (i <? Z.of_nat (length l) + Z.of_nat (length post)))
    with true
    by (symmetry; apply andb_true_iff; split;
        [apply Z.leb_le | apply Z.ltb_lt]; lia).
  rewrite lookup_app_l by (apply lookup_lt_is_Some; eauto).
  rewrite E. exact H.
Qed.

(** What a successful [load] went through: four magic bytes, then the loop
    from offset 4. *)
Lemma load_Ok_inv data s :
  load data = Ok s ->
  4 <= Z.of_nat (length data) /\
  load_loop (length data) data 4 song_empty = Ok s /\
  forall post, load (data ++ post) =
               load_loop (length (data ++ post)) (data ++ post) 4 song_empty.
Proof.
  unfold load. intros H.
  apply bind_Ok in H as (m0 & E0 & H).
  apply bind_Ok in H as (m1 & E1 & H).
  apply bind_Ok in H as (m2 & E2 & H).
  apply bind_Ok in H as (m3 & E3 & H).
  destruct (negb _) eqn:Hm in H; [discriminate | ].
  split; [ | split; [exact H | ]].
  - unfold index in E3.
    destruct ((0 <=? 3) && (3 <? Z.of_nat (length data))) eqn:Hr;
      [ | discriminate].
    apply andb_true_iff in Hr as [_ Hr]. apply Z.ltb_lt in Hr. lia.
  - intros post.
    rewrite (index_app_l _ post _ _ E0), (index_app_l _ post _ _ E1),
      (index_app_l _ post _ _ E2), (index_app_l _ post _ _ E3).
    cbn. rewrite Hm. reflexivity.
Qed.

Lemma load_app_loop pre post s :
  load pre = Ok s ->
  load (pre ++ post) = load_loop (length post) post 0 s.
Proof.
  intros H. apply load_Ok_inv in H as (Hlen & Hloop & ->).
  apply (load_loop_app (length pre) _ pre post 4 song_empty s);
    try lia. exact Hloop.
Qed.

(** ** Records *)

Lemma bit_cast_S32_mod (b : Z) :
  - 2 ^ 31 <= b < 2 ^ 31 -> bit_cast_S32 (b mod 2 ^ 32) = b.
Proof.
  intros Hb. unfold bit_cast_S32.
  change (2 ^ 31) with 2147483648 in *. change (2 ^ 32) with 4294967296.
  destruct (Z.ltb_spec (b mod 4294967296) 2147483648);
    Z.to_euclidean_division_equations; lia.
Qed.

(** A channel record with its tick in four bytes, decoded from a song in
    progress. *)
Lemma load_records_event_bytes (s : song) (b0 b1 b2 b3 c n v d0 d1 d2 d3 : Z) :
  load_records s [0x01; b0; b1; b2; b3; c; n; v]
    = Ok (set_commands s (emplace (le32 b0 b1 b2 b3) (command_note_on c n v)
                                  (commands s))) /\
  load_records s [0x02; b0; b1; b2; b3; c]
    = Ok (set_commands s (emplace (le32 b0 b1 b2 b3) (command_note_off c)
                                  (commands s))) /\
  load_records s [0x03; b0; b1; b2; b3; c; d0; d1; d2; d3]
    = Ok (set_commands s
            (emplace (le32 b0 b1 b2 b3)
                     (command_pitchwheel c (bit_cast_S32 (le32 d0 d1 d2 d3)))
                     (commands s))) /\
  load_records s [0x04; b0; b1; b2; b3; c; n]
    = Ok (set_commands s (emplace (le32 b0 b1 b2 b3)
                                  (command_program_change c n)
                                  (commands s))).
Proof. split; [ | split; [ | split]]; reflexivity. Qed.

Lemma load_records_event (s : song) (t : Z) (e : command) :
  valid_event e -> 0 <= t < 2 ^ 32 ->
  load_records s (event_record t e)
    = Ok (set_commands s (emplace t e (commands s))).
Proof.
  intros Hv Ht. pose proof (u32_bytes_spec t Ht) as [_ Hle].
  destruct e as [c n v | c | c bend | c g | | | | | ]; cbn in Hv;
    try contradiction; unfold event_record, u32_bytes; cbn [app].
  - rewrite (proj1 (load_records_event_bytes s _ _ _ _ c n v 0 0 0 0)).
    rewrite Hle. reflexivity.
  - rewrite (proj1 (proj2 (load_records_event_bytes s _ _ _ _ c 0 0 0 0 0 0))).
    rewrite Hle. reflexivity.
  - assert (Hb : 0 <= bend mod 2 ^ 32 < 2 ^ 32)
      by (apply Z.mod_pos_bound; lia).
    pose proof (u32_bytes_spec _ Hb) as [_ Hle'].
    rewrite (proj1 (proj2 (proj2
               (load_records_event_bytes s _ _ _ _ c 0 0 _ _ _ _)))).
    rewrite Hle, Hle', bit_cast_S32_mod by tauto. reflexivity.
  - rewrite (proj2 (proj2 (proj2
               (load_records_event_bytes s _ _ _ _ c g 0 0 0 0 0)))).
    rewrite Hle. reflexivity.
Qed.

(** ** Waveforms and truncated streams *)

(** The waveform loop reads the bytes that follow the fixed part. *)
Lemma read_bytes_all (wave : list Z) : forall (pre post : list Z),
  (0 < length pre)%nat ->
  read_bytes (length wave) (pre ++ wave ++ post) (Z.of_nat (length pre) - 1)
    = Ok (Z.of_nat (length pre + length wave) - 1, wave).
Proof.
  induction wave as [ | b wave IH]; intros pre post Hpre.
  - cbn. do 2 f_equal. lia.
  - cbn [length read_bytes].
    replace (Z.of_nat (length pre) - 1 + 1) with (Z.of_nat (length pre) + 0)
      by lia.
    rewrite vector_at_app_r by lia.
    change (vector_at ((b :: wave) ++ post) 0) with (Ok (A := Z) b). cbn.
    specialize (IH (pre ++ [b]) post).
    rewrite <- app_assoc in IH. cbn [app] in IH.
    rewrite length_app in IH. cbn [length] in IH.
    replace (Z.of_nat (length pre) + 0)
      with (Z.of_nat (length pre + 1) - 1) by lia.
    rewrite IH by lia. cbn. do 2 f_equal. lia.
Qed.

(** A read that runs past the end of the buffer throws. *)
Lemma read_bytes_short (n : nat) : forall (data : list Z) (w : Z),
  0 <= w + 1 -> Z.of_nat (length data) <= w + Z.of_nat n -> (0 < n)%nat ->
  read_bytes n data w = Throw out_of_range.
Proof.
  induction n as [ | n IH]; intros data w Hw Hlen Hn; [lia | ].
  cbn [read_bytes]. unfold vector_at at 1.
  destruct (Z.ltb_spec (w + 1) (Z.of_nat (length data))) as [Hlt | Hge].
  - replace (0 <=? w + 1) with true by (symmetry; apply Z.leb_le; lia).
    cbn. destruct (data !! Z.to_nat (w + 1)); [ | reflexivity]. cbn.
    rewrite IH by lia. reflexivity.
  - rewrite andb_false_r. reflexivity.
Qed.

Lemma byte_sizes_pos (c : command_type.t) : 0 < byte_sizes c.
Proof. destruct c; cbn; lia. Qed.

(** A record whose fixed payload is cut short. *)
Lemma load_records_truncated (s : song) (tag : Z) (c : command_type.t)
    (payload : list Z) :
  command_type.of_byte tag = Some c ->
  Z.of_nat (length payload) < byte_sizes c ->
  load_records s (tag :: payload) = Throw out_of_range.
Proof.
  intros Hc Hlen. unfold load_records. cbn [length load_loop].
  change (0 <? Z.of_nat (S (length payload))) with true. cbn match.
  unfold load_command.
  change (vector_at (tag :: payload) 0) with (Ok (A := Z) tag). cbn.
  unfold byte_sizes_at. rewrite Hc. cbn.
  pose proof (byte_sizes_pos c) as Hpos.
  rewrite read_bytes_short; [reflexivity | lia | cbn [length]; lia | lia].
Qed.

(** A tag that is no command. *)
Lemma load_records_unknown (s : song) (tag : Z) (rest : list Z) :
  command_type.of_byte tag = None ->
  load_records s (tag :: rest) = Throw out_of_range.
Proof.
  intros Hc. unfold load_records. cbn [length load_loop].
  change (0 <? Z.of_nat (S (length rest))) with true. cbn match.
  unfold load_command.
  change (vector_at (tag :: rest) 0) with (Ok (A := Z) tag). cbn.
  unfold byte_sizes_at. rewrite Hc. reflexivity.
Qed.

(** The round of a PatchData record, with its multi-byte fields in bytes. *)
Lemma load_command_patch_bytes (s : song) (id : Z)
    (w0 w1 w2 w3 s0 s1 s2 s3 e0 e1 e2 e3 : Z)
    (r0 r1 r2 r3 l0 l1 l2 l3 g0 g1 g2 g3 : Z) (wave post : list Z) :
  le32 w0 w1 w2 w3 = Z.of_nat (length wave) ->
  load_command
    ([0x80; id; w0; w1; w2; w3; s0; s1; s2; s3; e0; e1; e2; e3;
      r0; r1; r2; r3; l0; l1; l2; l3; g0; g1; g2; g3] ++ wave ++ post) 0 s
  = Ok (26 + Z.of_nat (length wave),
        set_commands
          (set_patches s
             (map_insert id
                {| patch_base :=
                     {| waveform := wave;
                        ratio := bit_cast_F32 (le32 r0 r1 r2 r3);
                        gain_L := bit_cast_F32 (le32 l0 l1 l2 l3);
                        gain_R := bit_cast_F32 (le32 g0 g1 g2 g3) |};
                   loop_start := le32 s0 s1 s2 s3;
                   loop_end := le32 e0 e1 e2 e3 |}
                (patches s)))
          (emplace 0 command_patch_data (commands s))).
Proof.
  intros Hw. unfold load_command.
  erewrite vector_at_app_l by reflexivity.
  bind_ok.
  change (byte_sizes_at 128) with (Ok (command_type.patch_data, 25)).
  bind_ok.
  erewrite read_bytes_app_l by reflexivity.
  bind_ok.
  change (pop_u8 ?l) with (hd 0 l, tl l).
  cbn [hd tl].
  unfold pop_u32. cbn [nth drop]. cbv beta iota.
  rewrite Hw, Nat2Z.id.
  set (hdr := [128; id; w0; w1; w2; w3; s0; s1; s2; s3; e0; e1; e2; e3;
               r0; r1; r2; r3; l0; l1; l2; l3; g0; g1; g2; g3]).
  change 25 with (Z.of_nat (length hdr) - 1).
  rewrite read_bytes_all by (cbn; lia).
  bind_ok.
  bind_ok.
  do 2 f_equal. subst hdr. cbn [length]. lia.
Qed.

(** The round of a DrumData record. *)
Lemma load_command_drum_bytes (s : song) (id : Z)
    (w0 w1 w2 w3 r0 r1 r2 r3 l0 l1 l2 l3 g0 g1 g2 g3 : Z)
    (wave post : list Z) :
  le32 w0 w1 w2 w3 = Z.of_nat (length wave) ->
  load_command
    ([0x81; id; w0; w1; w2; w3; r0; r1; r2; r3; l0; l1; l2; l3;
      g0; g1; g2; g3] ++ wave ++ post) 0 s
  = Ok (18 + Z.of_nat (length wave),
        set_commands
          (set_drums s
             (map_insert id
                {| waveform := wave;
                   ratio := bit_cast_F32 (le32 r0 r1 r2 r3);
                   gain_L := bit_cast_F32 (le32 l0 l1 l2 l3);
                   gain_R := bit_cast_F32 (le32 g0 g1 g2 g3) |}
                (drums s)))
          (emplace 0 command_drum_data (commands s))).
Proof.
  intros Hw. unfold load_command.
  erewrite vector_at_app_l by reflexivity.
  bind_ok.
  change (byte_sizes_at 129) with (Ok (command_type.drum_data, 17)).
  bind_ok.
  erewrite read_bytes_app_l by reflexivity.
  bind_ok.
  change (pop_u8 ?l) with (hd 0 l, tl l).
  cbn [hd tl].
  unfold pop_u32. cbn [nth drop]. cbv beta iota.
  rewrite Hw, Nat2Z.id.
  set (hdr := [129; id; w0; w1; w2; w3; r0; r1; r2; r3; l0; l1; l2; l3;
               g0; g1; g2; g3]).
  change 17 with (Z.of_nat (length hdr) - 1).
  rewrite read_bytes_all by (cbn; lia).
  bind_ok.
  bind_ok.
  do 2 f_equal. subst hdr. cbn [length]. lia.
Qed.

(** ** The failures of the decoder *)

Lemma checked_bind {A B} (m : outcome A) (f : A -> outcome B) :
  checked m -> (forall a, m = Ok a -> checked (f a)) -> checked (m ≫= f).
Proof. destruct m as [a | e | u]; cbn; intros Hm Hf; auto. Qed.

Lemma vector_at_checked {A} (v : list A) (i : Z) : checked (vector_at v i).
Proof.
  unfold vector_at. destruct (_ && _); [ | reflexivity].
  destruct (v !! Z.to_nat i); [exact I | reflexivity].
Qed.

Lemma read_bytes_checked (n : nat) : forall data w,
  checked (read_bytes n data w).
Proof.
  induction n as [ | n IH]; intros data w; cbn; [exact I | ].
  apply checked_bind; [apply vector_at_checked | intros b _].
  apply checked_bind; [apply IH | intros [w1 bs] _]. exact I.
Qed.

Lemma load_command_checked data w s : checked (load_command data w s).
Proof.
  unfold load_command.
  apply checked_bind; [apply vector_at_checked | intros b _].
  apply checked_bind;
    [unfold byte_sizes_at; destruct (command_type.of_byte b);
     [exact I | reflexivity] | intros [c n] _].
  apply checked_bind; [apply read_bytes_checked | intros [w1 cd] _].
  apply checked_bind; [ | intros [w2 s2] _; exact I].
  destruct c;
    repeat match goal with
      | |- context [let '(_, _) := ?x in _] => destruct x
      end;
    try exact I;
    (apply checked_bind; [apply read_bytes_checked | intros [w3 wave] _];
     exact I).
Qed.

Lemma load_loop_checked (fuel : nat) : forall data w s,
  checked (load_loop fuel data w s).
Proof.
  induction fuel as [ | fuel IH]; intros data w s; cbn; [exact I | ].
  destruct (w <? Z.of_nat (length data)); [ | exact I].
  apply checked_bind; [apply load_command_checked | intros [w1 s1] _].
  apply IH.
Qed.

(** [load] on a buffer that holds the four magic bytes. *)
Lemma load_magic_bytes (m0 m1 m2 m3 : Z) (rest : list Z) :
  load (m0 :: m1 :: m2 :: m3 :: rest) =
  if negb (le32 m3 m2 m1 m0 =? MAGIC) then
    Throw (runtime_error "First 4 bytes of this song are not 'AXSD'!")
  else load_loop (length (m0 :: m1 :: m2 :: m3 :: rest))
                 (m0 :: m1 :: m2 :: m3 :: rest) 4 song_empty.
Proof.
  unfold load.
  set (data := m0 :: m1 :: m2 :: m3 :: rest).
  assert (Hlen : 4 <= Z.of_nat (length data))
    by (subst data; cbn [length]; lia).
  destruct (index_in_range data 0 ltac:(lia)) as (a0 & E0 & ->).
  destruct (index_in_range data 1 ltac:(lia)) as (a1 & E1 & ->).
  destruct (index_in_range data 2 ltac:(lia)) as (a2 & E2 & ->).
  destruct (index_in_range data 3 ltac:(lia)) as (a3 & E3 & ->).
  cbn in E0, E1, E2, E3.
  injection E0 as <-. injection E1 as <-.
  injection E2 as <-. injection E3 as <-. reflexivity.
Qed.

(** The four bytes that make the magic number. *)
Lemma magic_bytes (m0 m1 m2 m3 : Z) :
  is_byte m0 -> is_byte m1 -> is_byte m2 -> is_byte m3 ->
  (le32 m3 m2 m1 m0 =? MAGIC) = true <-> [m0; m1; m2; m3] = axsd_magic.
Proof.
  intros H0 H1 H2 H3. rewrite le32_value by assumption.
  unfold is_byte, MAGIC, axsd_magic in *. rewrite Z.eqb_eq. split.
  - intros H. repeat f_equal; lia.
  - intros [= -> -> -> ->]. reflexivity.
Qed.

Lemma load_short data :
  (length data < 4)%nat -> load data = Undefined ub_index.
Proof.
  intros H. unfold load.
  destruct data as [ | m0 [ | m1 [ | m2 [ | m3 rest]]]];
    try reflexivity.
  cbn [length] in H. lia.
Qed.

(** ** One record after a decoded stream *)

Lemma load_records_one (s s' : song) (data : list Z) :
  load_command data 0 s = Ok (Z.of_nat (length data), s') ->
  load_records s data = Ok s'.
Proof.
  intros H. unfold load_records.
  rewrite (load_loop_unfold _ (length data) data 0 s) by lia.
  pose proof (load_command_step _ _ _ _ _ H) as [Hlt _].
  replace (0 <? Z.of_nat (length data)) with true
    by (symmetry; apply Z.ltb_lt; lia).
  rewrite H. cbn.
  rewrite (load_loop_fuel _ 0) by lia. reflexivity.
Qed.

Lemma load_records_fails (s : song) (data : list Z) (e : exception) :
  (0 < length data)%nat ->
  load_command data 0 s = Throw e -> load_records s data = Throw e.
Proof.
  intros Hlen H. unfold load_records.
  destruct data as [ | b data]; [cbn in Hlen; lia | ].
  cbn [length load_loop].
  change (0 <? Z.of_nat (S (length data))) with true. cbn match.
  rewrite H. reflexivity.
Qed.

Lemma load_records_patch (s : song) (id start_ end_ rb gl gr : Z)
    (wave : list Z) :
  0 <= start_ < 2 ^ 32 -> 0 <= end_ < 2 ^ 32 -> 0 <= rb < 2 ^ 32 ->
  0 <= gl < 2 ^ 32 -> 0 <= gr < 2 ^ 32 ->
  Z.of_nat (length wave) < 2 ^ 32 ->
  load_records s
    (patch_data_header id (Z.of_nat (length wave)) start_ end_ rb gl gr
       ++ wave)
  = Ok (set_commands
          (set_patches s
             (map_insert id
                {| patch_base :=
                     {| waveform := wave; ratio := bit_cast_F32 rb;
                        gain_L := bit_cast_F32 gl;
                        gain_R := bit_cast_F32 gr |};
                   loop_start := start_; loop_end := end_ |}
                (patches s)))
          (emplace 0 command_patch_data (commands s))).
Proof.
  intros Hs He Hr Hl Hg Hw.
  pose proof (u32_bytes_spec start_ Hs) as [_ Es].
  pose proof (u32_bytes_spec end_ He) as [_ Ee].
  pose proof (u32_bytes_spec rb Hr) as [_ Er].
  pose proof (u32_bytes_spec gl Hl) as [_ El].
  pose proof (u32_bytes_spec gr Hg) as [_ Eg].
  pose proof (u32_bytes_spec (Z.of_nat (length wave)) ltac:(lia)) as [_ Ew].
  apply load_records_one.
  unfold patch_data_header, u32_bytes. cbn [app].
  pose proof (load_command_patch_bytes s id _ _ _ _
                (start_ mod 256) ((start_ / 256) mod 256)
                ((start_ / 65536) mod 256) ((start_ / 16777216) mod 256)
                (end_ mod 256) ((end_ / 256) mod 256)
                ((end_ / 65536) mod 256) ((end_ / 16777216) mod 256)
                (rb mod 256) ((rb / 256) mod 256)
                ((rb / 65536) mod 256) ((rb / 16777216) mod 256)
                (gl mod 256) ((gl / 256) mod 256)
                ((gl / 65536) mod 256) ((gl / 16777216) mod 256)
                (gr mod 256) ((gr / 256) mod 256)
                ((gr / 65536) mod 256) ((gr / 16777216) mod 256)
                wave [] Ew) as H.
  rewrite app_nil_r in H. cbn [app] in H. rewrite H.
  rewrite Es, Ee, Er, El, Eg. cbn [length]. do 2 f_equal. lia.
Qed.

Lemma load_records_drum (s : song) (id rb gl gr : Z) (wave : list Z) :
  0 <= rb < 2 ^ 32 -> 0 <= gl < 2 ^ 32 -> 0 <= gr < 2 ^ 32 ->
  Z.of_nat (length wave) < 2 ^ 32 ->
  load_records s
    (drum_data_header id (Z.of_nat (length wave)) rb gl gr ++ wave)
  = Ok (set_commands
          (set_drums s
             (map_insert id
                {| waveform := wave; ratio := bit_cast_F32 rb;
                   gain_L := bit_cast_F32 gl; gain_R := bit_cast_F32 gr |}
                (drums s)))
          (emplace 0 command_drum_data (commands s))).
Proof.
  intros Hr Hl Hg Hw.
  pose proof (u32_bytes_spec rb Hr) as [_ Er].
  pose proof (u32_bytes_spec gl Hl) as [_ El].
  pose proof (u32_bytes_spec gr Hg) as [_ Eg].
  pose proof (u32_bytes_spec (Z.of_nat (length wave)) ltac:(lia)) as [_ Ew].
  apply load_records_one.
  unfold drum_data_header, u32_bytes. cbn [app].
  pose proof (load_command_drum_bytes s id _ _ _ _
                (rb mod 256) ((rb / 256) mod 256)
                ((rb / 65536) mod 256) ((rb / 16777216) mod 256)
                (gl mod 256) ((gl / 256) mod 256)
                ((gl / 65536) mod 256) ((gl / 16777216) mod 256)
                (gr mod 256) ((gr / 256) mod 256)
                ((gr / 65536) mod 256) ((gr / 16777216) mod 256)
                wave [] Ew) as H.
  rewrite app_nil_r in H. cbn [app] in H. rewrite H.
  rewrite Er, El, Eg. cbn [length]. do 2 f_equal. lia.
Qed.

(** A PatchData or DrumData record whose waveform is cut short. *)
Lemma load_command_patch_short (s : song) (id : Z)
    (w0 w1 w2 w3 s0 s1 s2 s3 e0 e1 e2 e3 : Z)
    (r0 r1 r2 r3 l0 l1 l2 l3 g0 g1 g2 g3 : Z) (rest : list Z) :
  Z.of_nat (length rest) < le32 w0 w1 w2 w3 ->
  load_command
    ([0x80; id; w0; w1; w2; w3; s0; s1; s2; s3; e0; e1; e2; e3;
      r0; r1; r2; r3; l0; l1; l2; l3; g0; g1; g2; g3] ++ rest) 0 s
  = Throw out_of_range.
Proof.
  intros Hw. unfold load_command.
  erewrite vector_at_app_l by reflexivity. bind_ok.
  change (byte_sizes_at 128) with (Ok (command_type.patch_data, 25)).
  bind_ok.
  erewrite read_bytes_app_l by reflexivity. bind_ok.
  change (pop_u8 ?l) with (hd 0 l, tl l). cbn [hd tl].
  unfold pop_u32. cbn [nth drop]. cbv beta iota.
  rewrite read_bytes_short; [reflexivity | lia | | lia].
  rewrite length_app. cbn [length]. lia.
Qed.

Lemma load_command_drum_short (s : song) (id : Z)
    (w0 w1 w2 w3 r0 r1 r2 r3 l0 l1 l2 l3 g0 g1 g2 g3 : Z) (rest : list Z) :
  Z.of_nat (length rest) < le32 w0 w1 w2 w3 ->
  load_command
    ([0x81; id; w0; w1; w2; w3; r0; r1; r2; r3; l0; l1; l2; l3;
      g0; g1; g2; g3] ++ rest) 0 s
  = Throw out_of_range.
Proof.
  intros Hw. unfold load_command.
  erewrite vector_at_app_l by reflexivity. bind_ok.
  change (byte_sizes_at 129) with (Ok (command_type.drum_data, 17)).
  bind_ok.
  erewrite read_bytes_app_l by reflexivity. bind_ok.
  change (pop_u8 ?l) with (hd 0 l, tl l). cbn [hd tl].
  unfold pop_u32. cbn [nth drop]. cbv beta iota.
  rewrite read_bytes_short; [reflexivity | lia | | lia].
  rewrite length_app. cbn [length]. lia.
Qed.

(** ** What the decoder keeps *)

Lemma map_insert_keeps {V} (k k' : Z) (v v' : V) (m : gmap Z V) :
  m !! k = Some v -> map_insert k' v' m !! k = Some v.
Proof.
  intros H. unfold map_insert. destruct (m !! k') eqn:E; [exact H | ].
  rewrite lookup_insert_ne; [exact H | ]. intros ->. congruence.
Qed.

Lemma load_command_keeps data w s w' s' :
  load_command data w s = Ok (w', s') ->
  (forall k pt, patches s !! k = Some pt -> patches s' !! k = Some pt) /\
  (forall k d, drums s !! k = Some d -> drums s' !! k = Some d).
Proof.
  unfold load_command. intros H.
  apply bind_Ok in H as (b & _ & H).
  apply bind_Ok in H as ([c n] & _ & H).
  apply bind_Ok in H as ([w1 cd] & _ & H).
  apply bind_Ok in H as ([w2 s2] & Hcase & H).
  injection H as _ <-.
  destruct c; cbn in Hcase;
    repeat match type of Hcase with
      | (let '(_, _) := ?x in _) = _ => destruct x
      end;
    try (apply bind_Ok in Hcase as ([w3 wave] & _ & Hcase));
    injection Hcase as _ <-; destruct s; cbn; split; intros k x Hk;
    try exact Hk; apply map_insert_keeps, Hk.
Qed.

Lemma load_loop_keeps (fuel : nat) : forall data w s s',
  load_loop fuel data w s = Ok s' ->
  (forall k pt, patches s !! k = Some pt -> patches s' !! k = Some pt) /\
  (forall k d, drums s !! k = Some d -> drums s' !! k = Some d).
Proof.
  induction fuel as [ | fuel IH]; intros data w s s'; cbn.
  - intros [= <-]. split; trivial.
  - destruct (w <? Z.of_nat (length data)); [ | intros [= <-]; split; trivial].
    intros H. apply bind_Ok in H as ([w1 s1] & E & H).
    apply load_command_keeps in E as [Ep Ed].
    apply IH in H as [Hp Hd]. split; intros; [apply Hp, Ep | apply Hd, Ed];
      assumption.
Qed.

(** ** Events under one tick *)

Lemma entries_at_emplace {V} (k k' : Z) (v : V) (m : multimap V) :
  sorted_keys m ->
  entries_at k' (emplace k v m)
    = if k' =? k then entries_at k' m ++ [v] else entries_at k' m.
Proof.
  unfold entries_at. induction m as [ | [k0 v0] rest IH]; cbn.
  - intros _. rewrite (Z.eqb_sym k k'). destruct (k' =? k); reflexivity.
  - intros [Hall Hs]. destruct (k <? k0) eqn:E; cbn.
    + apply Z.ltb_lt in E. rewrite (Z.eqb_sym k k').
      destruct (Z.eqb_spec k' k) as [-> | Hne]; [ | reflexivity].
      replace (k0 =? k) with false by (symmetry; apply Z.eqb_neq; lia).
      rewrite filter_above; [reflexivity | ].
      eapply Forall_impl; [exact Hall | ]. cbn. intros; lia.
    + destruct (k0 =? k'); cbn; rewrite (IH Hs);
        destruct (k' =? k); reflexivity.
Qed.

(** ** The decoder on whole streams *)

(** X1.  Decoding composes: when [load] accepts a stream, [load] on that
    stream followed by more bytes is the record loop run on the added bytes
    alone, started from the song of the first part.  The added bytes are
    read as records from their first byte on, whatever the first part
    held.  Here and below, the whole buffer is one that the [int] offset of
    the loop can index. *)
Theorem load_append (pre post : list Z) (s : song) :
  int_indexed (pre ++ post) ->
  load pre = Ok s -> load (pre ++ post) = load_records s post.
Proof. intros _ H. unfold load_records. apply load_app_loop, H. Qed.

Lemma load_append_witness :
  int_indexed (axsd_header ++ drum_hit) /\
  load axsd_header = Ok song_header /\
  load (axsd_header ++ drum_hit) = load_records song_header drum_hit.
Proof.
  assert (Hi : int_indexed (axsd_header ++ drum_hit))
    by (unfold int_indexed; cbn; lia).
  assert (H : load axsd_header = Ok song_header) by (vm_compute; reflexivity).
  split; [exact Hi | split; [exact H | ]].
  exact (load_append axsd_header drum_hit song_header Hi H).
Defined.

(** X2.  The record of a channel event decodes to that event: after a
    stream that [load] accepts, the bytes tag, tick (four bytes, least
    significant first) and fields add exactly the event NoteOn, NoteOff,
    PitchWheel or ProgramChange with those fields at that tick, and change
    nothing else of the song.  The bend of a PitchWheel comes back as the
    signed value of its four bytes. *)
Theorem load_event_record (pre : list Z) (s : song) (t : Z) (e : command) :
  int_indexed (pre ++ event_record t e) ->
  load pre = Ok s -> valid_event e -> 0 <= t < 2 ^ 32 ->
  load (pre ++ event_record t e)
    = Ok (set_commands s (emplace t e (commands s))).
Proof.
  intros _ H Hv Ht. rewrite (load_app_loop pre _ s H).
  apply (load_records_event s t e Hv Ht).
Qed.

Lemma load_event_record_witness :
  load axsd_header = Ok song_header /\
  valid_event (command_pitchwheel 2 (-4096)) /\ 0 <= 96000 < 2 ^ 32 /\
  load (axsd_header ++ event_record 96000 (command_pitchwheel 2 (-4096)))
    = Ok (set_commands song_header
            (commands song_header ++ [(96000, command_pitchwheel 2 (-4096))])).
Proof.
  assert (H : load axsd_header = Ok song_header) by (vm_compute; reflexivity).
  assert (Hv : valid_event (command_pitchwheel 2 (-4096)))
    by (cbn; unfold is_byte; lia).
  assert (Ht : 0 <= 96000 < 2 ^ 32) by lia.
  split; [exact H | split; [exact Hv | split; [exact Ht | ]]].
  apply (load_event_record axsd_header song_header 96000
           (command_pitchwheel 2 (-4096))); try assumption.
  unfold int_indexed. cbn. lia.
Defined.

(** X3.  Events of one tick keep the order of the stream: an event record
    added after an accepted stream comes last among the events of its tick,
    and the events of every other tick are the same as before. *)
Theorem load_event_order (pre : list Z) (s : song) (t : Z) (e : command) :
  int_indexed (pre ++ event_record t e) ->
  load pre = Ok s -> valid_event e -> 0 <= t < 2 ^ 32 ->
  exists s', load (pre ++ event_record t e) = Ok s' /\
    entries_at t (commands s') = entries_at t (commands s) ++ [e] /\
    forall k, k <> t -> entries_at k (commands s') = entries_at k (commands s).
Proof.
  intros _ H Hv Ht.
  exists (set_commands s (emplace t e (commands s))). split.
  - rewrite (load_app_loop pre _ s H).
    apply (load_records_event s t e Hv Ht).
  - pose proof (load_sorted _ _ H) as Hs.
    change (commands (set_commands s (emplace t e (commands s))))
      with (emplace t e (commands s)).
    split.
    + rewrite entries_at_emplace, Z.eqb_refl by exact Hs. reflexivity.
    + intros k Hk. rewrite entries_at_emplace by exact Hs.
      replace (k =? t) with false by (symmetry; apply Z.eqb_neq; exact Hk).
      reflexivity.
Qed.

Lemma load_event_order_witness :
  load (axsd_header ++ drum_hit) =
    Ok (set_commands song_header
          (commands song_header ++ [(0, command_note_on 9 42 127)])) /\
  exists s', load ((axsd_header ++ drum_hit)
                   ++ event_record 0 (command_note_off 9)) = Ok s' /\
    entries_at 0 (commands s')
      = [command_version 3; command_rate 48000; command_note_on 9 42 127;
         command_note_off 9].
Proof.
  assert (H : load (axsd_header ++ drum_hit) =
              Ok (set_commands song_header
                    (commands song_header ++ [(0, command_note_on 9 42 127)])))
    by (vm_compute; reflexivity).
  split; [exact H | ].
  assert (Hi : int_indexed ((axsd_header ++ drum_hit)
                            ++ event_record 0 (command_note_off 9)))
    by (unfold int_indexed; cbn; lia).
  destruct (load_event_order _ _ 0 (command_note_off 9) Hi H
              ltac:(cbn; unfold is_byte; lia) ltac:(lia))
    as (s' & Hs' & Hat & _).
  exists s'. split; [exact Hs' | exact Hat].
Defined.

(** X4.  A stream that ends inside the fixed payload of a record is
    rejected: after an accepted stream, a known tag followed by fewer bytes
    than [byte_sizes] asks for makes [load] throw [std::out_of_range]; no
    song is returned. *)
Theorem load_rejects_short_record (pre : list Z) (s : song) (tag : Z)
    (c : command_type.t) (payload : list Z) :
  int_indexed (pre ++ tag :: payload) ->
  load pre = Ok s -> command_type.of_byte tag = Some c ->
  Z.of_nat (length payload) < byte_sizes c ->
  load (pre ++ tag :: payload) = Throw out_of_range.
Proof.
  intros _ H Hc Hlen. rewrite (load_app_loop pre _ s H).
  apply (load_records_truncated s tag c payload Hc Hlen).
Qed.

Lemma load_rejects_short_record_witness :
  load axsd_header = Ok song_header /\
  command_type.of_byte 0x01 = Some command_type.note_on /\
  Z.of_nat (length [0; 0; 0; 0; 9; 42]) < byte_sizes command_type.note_on /\
  load (axsd_header ++ 0x01 :: [0; 0; 0; 0; 9; 42]) = Throw out_of_range.
Proof.
  assert (H : load axsd_header = Ok song_header) by (vm_compute; reflexivity).
  assert (Hc : command_type.of_byte 0x01 = Some command_type.note_on)
    by reflexivity.
  assert (Hl : Z.of_nat (length [0; 0; 0; 0; 9; 42])
               < byte_sizes command_type.note_on) by (cbn; lia).
  split; [exact H | split; [exact Hc | split; [exact Hl | ]]].
  exact (load_rejects_short_record axsd_header song_header 0x01
           command_type.note_on [0; 0; 0; 0; 9; 42]
           ltac:(unfold int_indexed; cbn; lia) H Hc Hl).
Defined.

(** X5.  A byte that is no command tag, met where a record should start
    after an accepted stream, makes [load] throw [std::out_of_range] (from
    [byte_sizes.at]), whatever follows it. *)
Theorem load_rejects_unknown_tag (pre : list Z) (s : song) (tag : Z)
    (rest : list Z) :
  int_indexed (pre ++ tag :: rest) ->
  load pre = Ok s -> command_type.of_byte tag = None ->
  load (pre ++ tag :: rest) = Throw out_of_range.
Proof.
  intros _ H Hc. rewrite (load_app_loop pre _ s H).
  apply (load_records_unknown s tag rest Hc).
Qed.

Lemma load_rejects_unknown_tag_witness :
  load axsd_header = Ok song_header /\
  command_type.of_byte 0x05 = None /\
  load (axsd_header ++ 0x05 :: [0xFE; 0; 0; 0; 0]) = Throw out_of_range.
Proof.
  assert (H : load axsd_header = Ok song_header) by (vm_compute; reflexivity).
  assert (Hc : command_type.of_byte 0x05 = None) by reflexivity.
  split; [exact H | split; [exact Hc | ]].
  exact (load_rejects_unknown_tag axsd_header song_header 0x05
           [0xFE; 0; 0; 0; 0] ltac:(unfold int_indexed; cbn; lia) H Hc).
Defined.

(** X6.  A PatchData record decodes to its patch: after an accepted stream,
    the fixed part followed by exactly [width] waveform bytes stores, under
    the patch number, the waveform, the two loop points and the floats whose
    bits the record carries, unless that number already has a patch, and
    indexes a PatchData event at tick 0. *)
Theorem load_patch_record (pre : list Z) (s : song)
    (id start_ end_ rb gl gr : Z) (wave : list Z) :
  int_indexed (pre ++ patch_data_header id (Z.of_nat (length wave)) start_
                                        end_ rb gl gr ++ wave) ->
  load pre = Ok s ->
  0 <= start_ < 2 ^ 32 -> 0 <= end_ < 2 ^ 32 -> 0 <= rb < 2 ^ 32 ->
  0 <= gl < 2 ^ 32 -> 0 <= gr < 2 ^ 32 ->
  Z.of_nat (length wave) < 2 ^ 32 ->
  load (pre ++ patch_data_header id (Z.of_nat (length wave)) start_ end_
                                 rb gl gr ++ wave)
  = Ok (set_commands
          (set_patches s
             (map_insert id
                {| patch_base :=
                     {| waveform := wave; ratio := bit_cast_F32 rb;
                        gain_L := bit_cast_F32 gl;
                        gain_R := bit_cast_F32 gr |};
                   loop_start := start_; loop_end := end_ |}
                (patches s)))
          (emplace 0 command_patch_data (commands s))).
Proof.
  intros _ H Hs He Hr Hl Hg Hw. rewrite (load_app_loop pre _ s H).
  apply load_records_patch; assumption.
Qed.

Lemma load_patch_record_witness :
  load axsd_header = Ok song_header /\
  exists s', load (axsd_header
                   ++ patch_data_header 5 4 0 4 0x3F800000 0x3F800000
                                        0x3F800000
                   ++ [128; 255; 0; 64]) = Ok s' /\
             patches s' !! 5 = Some example_patch.
Proof.
  assert (H : load axsd_header = Ok song_header) by (vm_compute; reflexivity).
  split; [exact H | ].
  eexists. split.
  - exact (load_patch_record axsd_header song_header 5 0 4 0x3F800000
             0x3F800000 0x3F800000 [128; 255; 0; 64]
             ltac:(unfold int_indexed; cbn; lia) H
             ltac:(lia) ltac:(lia) ltac:(lia) ltac:(lia) ltac:(lia)
             ltac:(cbn; lia)).
  - vm_compute. reflexivity.
Defined.

(** X7.  A DrumData record decodes to its drum: after an accepted stream,
    the fixed part followed by exactly [width] waveform bytes stores, under
    the drum note, the waveform and the floats whose bits the record
    carries, unless that note already has a drum, and indexes a DrumData
    event at tick 0. *)
Theorem load_drum_record (pre : list Z) (s : song) (id rb gl gr : Z)
    (wave : list Z) :
  int_indexed (pre ++ drum_data_header id (Z.of_nat (length wave)) rb gl gr
                   ++ wave) ->
  load pre = Ok s ->
  0 <= rb < 2 ^ 32 -> 0 <= gl < 2 ^ 32 -> 0 <= gr < 2 ^ 32 ->
  Z.of_nat (length wave) < 2 ^ 32 ->
  load (pre ++ drum_data_header id (Z.of_nat (length wave)) rb gl gr ++ wave)
  = Ok (set_commands
          (set_drums s
             (map_insert id
                {| waveform := wave; ratio := bit_cast_F32 rb;
                   gain_L := bit_cast_F32 gl; gain_R := bit_cast_F32 gr |}
                (drums s)))
          (emplace 0 command_drum_data (commands s))).
Proof.
  intros _ H Hr Hl Hg Hw. rewrite (load_app_loop pre _ s H).
  apply load_records_drum; assumption.
Qed.

Lemma load_drum_record_witness :
  load axsd_header = Ok song_header /\
  exists s', load (axsd_header
                   ++ drum_data_header 42 2 0x3F800000 0x3F800000 0x3F800000
                   ++ [255; 0]) = Ok s' /\
             drums s' !! 42
               = Some {| waveform := [255; 0]; ratio := f32_of_Z 1;
                         gain_L := f32_of_Z 1; gain_R := f32_of_Z 1 |}.
Proof.
  assert (H : load axsd_header = Ok song_header) by (vm_compute; reflexivity).
  split; [exact H | ].
  eexists. split.
  - exact (load_drum_record axsd_header song_header 42 0x3F800000
             0x3F800000 0x3F800000 [255; 0]
             ltac:(unfold int_indexed; cbn; lia) H
             ltac:(lia) ltac:(lia) ltac:(lia) ltac:(cbn; lia)).
  - vm_compute. reflexivity.
Defined.

(** X8.  A waveform that is cut short is rejected: after an accepted
    stream, a PatchData or DrumData record whose declared width is larger
    than the number of bytes left makes [load] throw [std::out_of_range]; the
    bytes that are there are not taken as a shorter waveform.  (The
    allocation of the declared width is taken to succeed.) *)
Theorem load_rejects_short_waveform (pre : list Z) (s : song)
    (id width start_ end_ rb gl gr : Z) (rest : list Z) :
  int_indexed (pre ++ patch_data_header id width start_ end_ rb gl gr
                   ++ rest) ->
  load pre = Ok s -> 0 <= width < 2 ^ 32 ->
  Z.of_nat (length rest) < width ->
  load (pre ++ patch_data_header id width start_ end_ rb gl gr ++ rest)
    = Throw out_of_range /\
  load (pre ++ drum_data_header id width rb gl gr ++ rest)
    = Throw out_of_range.
Proof.
  intros _ H Hw Hlen. pose proof (u32_bytes_spec width Hw) as [_ Ew].
  rewrite !(load_app_loop pre _ s H). split.
  - apply load_records_fails;
      [unfold patch_data_header; cbn [app length]; lia | ].
    unfold patch_data_header, u32_bytes.
    change ([128; id] ++ ?a ++ ?b ++ ?c ++ ?d ++ ?e ++ ?f ++ rest)
      with (([128; id] ++ a ++ b ++ c ++ d ++ e ++ f) ++ rest).
    cbn [app]. apply load_command_patch_short. rewrite Ew. exact Hlen.
  - apply load_records_fails;
      [unfold drum_data_header; cbn [app length]; lia | ].
    unfold drum_data_header, u32_bytes.
    change ([129; id] ++ ?a ++ ?b ++ ?c ++ ?d ++ rest)
      with (([129; id] ++ a ++ b ++ c ++ d) ++ rest).
    cbn [app]. apply load_command_drum_short. rewrite Ew. exact Hlen.
Qed.

Lemma load_rejects_short_waveform_witness :
  load axsd_header = Ok song_header /\ 0 <= 4 < 2 ^ 32 /\
  Z.of_nat (length [128; 255; 0]) < 4 /\
  load (axsd_header
        ++ patch_data_header 5 4 0 4 0x3F800000 0x3F800000 0x3F800000
        ++ [128; 255; 0]) = Throw out_of_range.
Proof.
  assert (H : load axsd_header = Ok song_header) by (vm_compute; reflexivity).
  assert (Hw : 0 <= 4 < 2 ^ 32) by lia.
  assert (Hl : Z.of_nat (length [128; 255; 0]) < 4) by (cbn; lia).
  split; [exact H | split; [exact Hw | split; [exact Hl | ]]].
  exact (proj1 (load_rejects_short_waveform axsd_header song_header 5 4 0 4
                  0x3F800000 0x3F800000 0x3F800000 [128; 255; 0]
                  ltac:(unfold int_indexed; cbn; lia) H Hw Hl)).
Defined.

(** X9.  The first definition of a patch or of a drum wins for the whole
    stream: a patch or a drum that the song has after an accepted stream is
    still there, unchanged, after any bytes that [load] accepts on top of
    it; a later record for the same number does not replace it. *)
Theorem load_keeps_first_definition (pre post : list Z) (s s' : song) :
  int_indexed (pre ++ post) ->
  load pre = Ok s -> load (pre ++ post) = Ok s' ->
  (forall k pt, patches s !! k = Some pt -> patches s' !! k = Some pt) /\
  (forall k d, drums s !! k = Some d -> drums s' !! k = Some d).
Proof.
  intros _ H H'. rewrite (load_app_loop pre post s H) in H'.
  apply (load_loop_keeps _ _ _ _ _ H').
Qed.

Lemma load_keeps_first_definition_witness :
  exists s s',
    load (axsd_header ++ drum_record 0 0 0x80 0x3F) = Ok s /\
    load ((axsd_header ++ drum_record 0 0 0x80 0x3F)
          ++ drum_record 0 0 0xC0 0x7F) = Ok s' /\
    drums s !! 42 = drums s' !! 42 /\
    (gain_R <$> drums s' !! 42) = Some (f32_of_Z 1).
Proof.
  destruct (load (axsd_header ++ drum_record 0 0 0x80 0x3F)) as [s | | ] eqn:H;
    [ | vm_compute in H; discriminate | vm_compute in H; discriminate].
  destruct (load ((axsd_header ++ drum_record 0 0 0x80 0x3F)
                  ++ drum_record 0 0 0xC0 0x7F)) as [s' | | ] eqn:H';
    [ | vm_compute in H'; discriminate | vm_compute in H'; discriminate].
  exists s, s'. split; [reflexivity | split; [reflexivity | ]].
  assert (Hi : int_indexed ((axsd_header ++ drum_record 0 0 0x80 0x3F)
                            ++ drum_record 0 0 0xC0 0x7F))
    by (unfold int_indexed; cbn; lia).
  pose proof (load_keeps_first_definition _ _ s s' Hi H H') as [_ Hd].
  assert (Hs : drums s !! 42
               = Some {| waveform := [255; 0]; ratio := f32_of_Z 1;
                         gain_L := f32_of_Z 1; gain_R := f32_of_Z 1 |}).
  { vm_compute in H. injection H as <-. vm_compute. reflexivity. }
  rewrite (Hd _ _ Hs), Hs. split; reflexivity.
Defined.

(** X10.  The magic check: on a buffer of at least four bytes, [load] throws
    the runtime error "First 4 bytes of this song are not 'AXSD'!" exactly
    when the first four bytes are not 0x41 0x58 0x53 0x44; the record loop
    never throws that error. *)
Theorem load_magic_check (data : list Z) :
  Forall is_byte data -> (4 <= length data)%nat ->
  (load data = Throw bad_magic <-> take 4 data <> axsd_magic).
Proof.
  intros Hb Hlen.
  destruct data as [ | m0 [ | m1 [ | m2 [ | m3 rest]]]];
    try (cbn in Hlen; lia).
  inversion Hb as [ | ? ? H0 Hb1]; subst.
  inversion Hb1 as [ | ? ? H1 Hb2]; subst.
  inversion Hb2 as [ | ? ? H2 Hb3]; subst.
  inversion Hb3 as [ | ? ? H3 _]; subst.
  rewrite load_magic_bytes. cbn [take].
  pose proof (magic_bytes m0 m1 m2 m3 H0 H1 H2 H3) as Hm.
  destruct (le32 m3 m2 m1 m0 =? MAGIC) eqn:E; cbn [negb].
  - split.
    + intros Hthrow.
      pose proof (load_loop_checked
                    (length (m0 :: m1 :: m2 :: m3 :: rest))
                    (m0 :: m1 :: m2 :: m3 :: rest) 4 song_empty) as Hc.
      rewrite Hthrow in Hc. discriminate Hc.
    + intros Hne. exfalso. apply Hne, Hm. reflexivity.
  - split; [ | reflexivity].
    intros _ Heq. apply Hm in Heq. discriminate.
Qed.

Lemma load_magic_check_witness :
  Forall is_byte [0x52; 0x49; 0x46; 0x46; 0xFE; 0; 0; 0; 0] /\
  (4 <= length [0x52; 0x49; 0x46; 0x46; 0xFE; 0; 0; 0; 0])%nat /\
  load [0x52; 0x49; 0x46; 0x46; 0xFE; 0; 0; 0; 0] = Throw bad_magic.
Proof.
  assert (Hb : Forall is_byte [0x52; 0x49; 0x46; 0x46; 0xFE; 0; 0; 0; 0])
    by (repeat constructor; unfold is_byte; lia).
  assert (Hl : (4 <= length [0x52; 0x49; 0x46; 0x46; 0xFE; 0; 0; 0; 0])%nat)
    by (cbn; lia).
  split; [exact Hb | split; [exact Hl | ]].
  apply (proj2 (load_magic_check _ Hb Hl)). discriminate.
Defined.

(** X11.  The only read of [load] outside the buffer is the unchecked read
    of the magic: on a buffer that an [int] can index, [load] reads past the
    end of the buffer exactly when the buffer has fewer than four bytes
    ([data[0]] to [data[3]] are read by [operator[]]).  Every later read goes
    through [at]: on a buffer of four bytes or more no byte outside the
    buffer is read, whatever the bytes are.  The statement is about the
    reads of the buffer; the destruction of the decoded events, when an
    exception unwinds or the song dies, is not part of it. *)
Theorem load_out_of_bounds_iff (data : list Z) :
  int_indexed data ->
  (load data = Undefined ub_index <-> (length data < 4)%nat).
Proof.
  intros _. split.
  - intros Hu. destruct (Nat.lt_ge_cases (length data) 4) as [ | Hge];
      [assumption | exfalso].
    destruct data as [ | m0 [ | m1 [ | m2 [ | m3 rest]]]];
      try (cbn in Hge; lia).
    rewrite load_magic_bytes in Hu.
    destruct (negb _); [discriminate | ].
    pose proof (load_loop_checked
                  (length (m0 :: m1 :: m2 :: m3 :: rest))
                  (m0 :: m1 :: m2 :: m3 :: rest) 4 song_empty) as Hc.
    rewrite Hu in Hc. exact Hc.
  - apply load_short.
Qed.

Lemma load_out_of_bounds_iff_witness :
  int_indexed [0x41; 0x58; 0x53] /\
  load [0x41; 0x58; 0x53] = Undefined ub_index /\
  load (axsd_magic ++ [0x05]) <> Undefined ub_index /\
  load (axsd_magic ++ [0x05]) = Throw out_of_range.
Proof.
  assert (Hi : int_indexed [0x41; 0x58; 0x53])
    by (unfold int_indexed; cbn; lia).
  assert (Hl : (length [0x41; 0x58; 0x53] < 4)%nat) by (cbn; lia).
  split; [exact Hi | ].
  split; [exact (proj2 (load_out_of_bounds_iff _ Hi) Hl) | ].
  split; [ | vm_compute; reflexivity].
  intros Hu.
  assert (Hj : int_indexed (axsd_magic ++ [0x05]))
    by (unfold int_indexed; cbn; lia).
  pose proof (proj1 (load_out_of_bounds_iff (axsd_magic ++ [0x05]) Hj) Hu)
    as Hlt.
  cbn in Hlt. lia.
Defined.

(** ** What a frame leaves alone *)

Lemma same_settings_refl (p : player) : same_settings p p.
Proof. repeat split. Qed.

Lemma same_settings_trans (p q r : player) :
  same_settings p q -> same_settings q r -> same_settings p r.
Proof.
  unfold same_settings. intros H1 H2.
  repeat match goal with H : _ /\ _ |- _ => destruct H end.
  repeat split; congruence.
Qed.

Lemma same_outside_channels_settings (p q : player) :
  same_outside_channels p q -> same_settings p q.
Proof.
  unfold same_outside_channels, same_settings. intros H.
  repeat match goal with H : _ /\ _ |- _ => destruct H end.
  repeat split; assumption.
Qed.

Lemma mix_channel_settings (i : Z) (p : player) (l r : F32)
    (p' : player) (l' r' : F32) :
  mix_channel i p l r = Ok (p', l', r') ->
  same_settings p p' /\ cursor p' = cursor p /\
  last_cursor p' = last_cursor p /\
  length (channels p') = length (channels p).
Proof.
  unfold mix_channel.
  destruct (vector_at (channels p) i) as [[ch | ] | | ]; cbn;
    try discriminate.
  destruct (is_drum_kit ch).
  - destruct (drum_group_accumulate_into _ _ _ _) as [[[vs l1] r1] | | ]; cbn;
      try discriminate.
    intros [= <- <- <-]. cbn. rewrite length_insert. repeat split.
  - destruct (vector_at (patch_ids p) i) as [[program | ] | | ]; cbn;
      try discriminate.
    + destruct (map_at _ _) as [patch | | ]; cbn; try discriminate.
      destruct (voice_group_accumulate_into _ _ _ _) as [[[vs l1] r1] | | ];
        cbn; try discriminate.
      intros [= <- <- <-]. cbn. rewrite length_insert. repeat split.
    + intros [= <- <- <-]. cbn. rewrite length_insert. repeat split.
Qed.

Lemma mix_channels_settings (rounds : nat) :
  forall (i : Z) (p : player) (l r : F32) (p' : player) (l' r' : F32),
  mix_channels rounds i p l r = Ok (p', l', r') ->
  same_settings p p' /\ cursor p' = cursor p /\
  last_cursor p' = last_cursor p /\
  length (channels p') = length (channels p).
Proof.
  induction rounds as [ | rounds IH]; intros i p l r p' l' r'; cbn.
  - intros [= <- <- <-]. repeat split.
  - destruct (mix_channel i p l r) as [[[p1 l1] r1] | | ] eqn:E1; cbn;
      try discriminate.
    intros E2. apply mix_channel_settings in E1 as (S1 & C1 & L1 & N1).
    apply IH in E2 as (S2 & C2 & L2 & N2).
    split; [eapply same_settings_trans; eassumption | ].
    repeat split; congruence.
Qed.

Lemma dispatch_sixteen (powf : F32 -> F32 -> F32) (p p' : player)
    (e : command) :
  dispatch powf p e = Ok p' ->
  length (channels p') = length (channels p) /\
  length (patch_ids p') = length (patch_ids p).
Proof.
  destruct e; cbn; try (intros [= <-]; split; reflexivity).
  - destruct (on_voices p <? max_voices p);
      [ | intros [= <-]; split; reflexivity].
    destruct (index (channels p) channel) as [[g | ] | | ]; cbn;
      try discriminate.
    intros [= <-]. cbn. rewrite length_insert. split; reflexivity.
  - destruct (index (channels p) channel) as [[g | ] | | ]; cbn;
      try discriminate.
    intros [= <-]. cbn. rewrite length_insert. split; reflexivity.
  - destruct (index (channels p) channel) as [[[vs b | vs] | ] | | ]; cbn;
      try discriminate; intros [= <-]; cbn; rewrite ?length_insert;
      split; reflexivity.
  - destruct (index_set (patch_ids p) channel (Some program)) as [ids | | ]
      eqn:E; cbn; try discriminate.
    apply index_set_Ok in E as [_ ->].
    intros [= <-]. cbn. rewrite length_insert. split; reflexivity.
Qed.

Lemma dispatch_all_sixteen (powf : F32 -> F32 -> F32) (es : list command) :
  forall p p', dispatch_all powf p es = Ok p' ->
  length (channels p') = length (channels p) /\
  length (patch_ids p') = length (patch_ids p).
Proof.
  induction es as [ | e es IH]; intros p p'; cbn.
  - intros [= <-]. split; reflexivity.
  - destruct (dispatch powf p e) as [p1 | | ] eqn:E; cbn; try discriminate.
    intros H. apply dispatch_sixteen in E as [E1 E2].
    apply IH in H as [H1 H2]. split; congruence.
Qed.

Section FrameFacts.

Variable powf : F32 -> F32 -> F32.

(** [handle_one] writes [cursor], [last_cursor], [on_voices], the groups and
    the program numbers, and nothing else. *)
Lemma handle_one_settings (p : player) (l r : F32) (p' : player)
    (l' r' : F32) :
  handle_one powf p l r = Ok (p', l', r') ->
  same_settings p p' /\
  length (channels p') = length (channels p) /\
  length (patch_ids p') = length (patch_ids p).
Proof.
  unfold handle_one. intros H.
  apply bind_Ok in H as (cur & _ & H). cbv zeta in H.
  apply bind_Ok in H as (p1 & Hd & H).
  assert (F1 : same_settings p p1 /\
               length (channels p1) = length (channels p) /\
               length (patch_ids p1) = length (patch_ids p)).
  { destruct (cursor_advanced _ _).
    - apply bind_Ok in Hd as (p0 & E & Hd). injection Hd as <-.
      pose proof (dispatch_all_frame powf _ _ _ E) as F0.
      apply same_outside_channels_settings in F0.
      apply dispatch_all_sixteen in E as [E1 E2].
      split; [exact F0 | split; [exact E1 | exact E2]].
    - injection Hd as <-. repeat split. }
  destruct F1 as (F1 & N1 & M1).
  pose proof (mix_channels_effect 16 0 _ _ _ _ _ _ ltac:(lia) H) as (Hid & _).
  apply mix_channels_settings in H as (S2 & _ & _ & N2).
  split; [ | split; [rewrite N2; exact N1 | rewrite Hid; exact M1]].
  eapply same_settings_trans; [exact F1 | ].
  eapply same_settings_trans; [ | exact S2]. repeat split.
Qed.

End FrameFacts.

(** ** The echo *)

Lemma echo_index_ready (buffer : gmap Z F32) (i : Z) :
  0 <= i < ECHO_SIZE ->
  echo_index buffer i = Ok (default f32_zero (buffer !! i)).
Proof.
  intros Hi. unfold echo_index.
  replace (0 <=? i) with true by (symmetry; apply Z.leb_le; lia).
  replace (i <? ECHO_SIZE) with true by (symmetry; apply Z.ltb_lt; lia).
  reflexivity.
Qed.

(** With an environment whose [cursor_max] is not 0 and the cursor inside
    the arrays, a pass of the echo returns, with both slots clamped and the
    cursor below [cursor_max]. *)
Lemma maybe_echo_one_env (p : player) (env : environment) (l r : F32) :
  env_params p = Some env -> 0 <= echo_cursor p < ECHO_SIZE ->
  cursor_max env <> 0 ->
  exists p' l' r',
    maybe_echo_one p l r = Ok (p', l', r') /\
    env_params p' = Some env /\
    echo_cursor p'
      = wrap16 (echo_cursor p + cursor_increment env) mod cursor_max env /\
    echo_buffer_L p' !! echo_cursor p
      = Some (clamp_unit
                (f32_mul (f32_add (default f32_zero
                                     (echo_buffer_L p !! echo_cursor p)) l)
                         (feedback_L env))) /\
    echo_buffer_R p' !! echo_cursor p
      = Some (clamp_unit
                (f32_mul (f32_add (default f32_zero
                                     (echo_buffer_R p !! echo_cursor p)) r)
                         (feedback_R env))) /\
    (forall k, k <> echo_cursor p ->
               echo_buffer_L p' !! k = echo_buffer_L p !! k /\
               echo_buffer_R p' !! k = echo_buffer_R p !! k).
Proof.
  intros He Hc Hm. unfold maybe_echo_one. rewrite He.
  rewrite !echo_index_ready by exact Hc. cbn.
  replace (cursor_max env =? 0) with false
    by (symmetry; apply Z.eqb_neq; exact Hm).
  do 3 eexists. split; [reflexivity | ]. cbn.
  split; [exact He | ]. split; [reflexivity | ].
  split; [apply lookup_insert_eq | ]. split; [apply lookup_insert_eq | ].
  intros k Hk. split; apply lookup_insert_ne; congruence.
Qed.

Lemma wrap16_mod_range (c m : Z) : 0 < m -> 0 <= wrap16 c mod m < m.
Proof. intros Hm. apply Z.mod_pos_bound. exact Hm. Qed.

Lemma maybe_echo_one_keeps_ready (p : player) (l r : F32) (p' : player)
    (l' r' : F32) :
  echo_ready p -> maybe_echo_one p l r = Ok (p', l', r') ->
  echo_ready p' /\ env_params p' = env_params p.
Proof.
  unfold echo_ready. intros Hr H.
  destruct (env_params p) as [env | ] eqn:He.
  - destruct Hr as [Hc Hm].
    destruct (maybe_echo_one_env p env l r He ltac:(unfold ECHO_SIZE; lia)
                ltac:(lia)) as (q & lq & rq & Hq & Henv & Hcur & _).
    rewrite Hq in H. injection H as <- _ _.
    rewrite Henv. split; [ | reflexivity]. rewrite Hcur.
    split; [apply wrap16_mod_range; lia | exact Hm].
  - unfold maybe_echo_one in H. rewrite He in H. injection H as <- _ _.
    rewrite He. split; [exact I | reflexivity].
Qed.

(** A pass of the echo with [cursor_max = 0] does not return. *)
Lemma maybe_echo_one_zero_max (p : player) (env : environment) (l r : F32) :
  env_params p = Some env -> cursor_max env = 0 ->
  fails (maybe_echo_one p l r).
Proof.
  intros He Hm. unfold maybe_echo_one. rewrite He.
  apply fails_bind. intros eL _. apply fails_bind. intros eR _.
  cbn. rewrite Hm. exact I.
Qed.

Section EchoFacts.

Variable powf : F32 -> F32 -> F32.

(** The part of a frame before the echo keeps the settings. *)
Lemma tick_frame_split (p p' : player) (l r : F32) :
  tick_frame powf p = Ok (p', l, r) ->
  exists p1 l1 r1,
    maybe_echo_one p1 l1 r1 = Ok (p', l, r) /\
    echo_cursor p1 = echo_cursor p /\ env_params p1 = env_params p /\
    echo_buffer_L p1 = echo_buffer_L p /\ echo_buffer_R p1 = echo_buffer_R p /\
    in_stereo p1 = in_stereo p /\ playback p1 = playback p /\
    (playback p = false -> p1 = p /\ l1 = f32_zero /\ r1 = f32_zero).
Proof.
  unfold tick_frame. intros H.
  apply bind_Ok in H as ([[p1 l1] r1] & Hp & H).
  exists p1, l1, r1. split; [exact H | ].
  destruct (playback p) eqn:Eplay.
  - apply bind_Ok in Hp as ([[p0 l0] r0] & Hh & Hp).
    apply handle_one_settings in Hh as (Hs & _).
    unfold same_settings in Hs.
    repeat match goal with H : _ /\ _ |- _ => destruct H end.
    cbv zeta in Hp.
    destruct (f32_ltb _ _); injection Hp as <- _ _; cbn;
      repeat split; try congruence; discriminate.
  - injection Hp as <- <- <-. repeat split. exact Eplay.
Qed.

Lemma tick_frame_keeps_ready (p p' : player) (l r : F32) :
  echo_ready p -> tick_frame powf p = Ok (p', l, r) ->
  echo_ready p' /\ env_params p' = env_params p /\
  in_stereo p' = in_stereo p.
Proof.
  intros Hr H.
  apply tick_frame_split in H
    as (p1 & l1 & r1 & He & Hc & Henv & _ & _ & Hst & _).
  assert (Hr1 : echo_ready p1)
    by (unfold echo_ready in *; rewrite Henv, Hc; exact Hr).
  assert (Hst' : in_stereo p' = in_stereo p1).
  { unfold maybe_echo_one in He. destruct (env_params p1).
    - apply bind_Ok in He as (eL & _ & He).
      apply bind_Ok in He as (eR & _ & He). cbv zeta in He.
      destruct (cursor_max _ =? 0); [discriminate | ].
      injection He as <- _ _. reflexivity.
    - injection He as <- _ _. reflexivity. }
  apply (maybe_echo_one_keeps_ready _ _ _ _ _ _ Hr1) in He as [Hr' He'].
  split; [exact Hr' | split; congruence].
Qed.

Lemma tick_stereo_keeps_ready (rounds : nat) :
  forall (i : Z) (p : player) (audio : list F32) p' audio',
  echo_ready p -> tick_stereo powf rounds i p audio = Ok (p', audio') ->
  echo_ready p' /\ env_params p' = env_params p.
Proof.
  induction rounds as [ | rounds IH]; intros i p audio p' audio' Hr H.
  - injection H as <- _. split; [exact Hr | reflexivity].
  - cbn [tick_stereo] in H.
    apply bind_Ok in H as ([[p1 l1] r1] & Hf & H).
    apply bind_Ok in H as (a1 & _ & H).
    apply bind_Ok in H as (a2 & _ & H).
    apply (tick_frame_keeps_ready _ _ _ _ Hr) in Hf as (Hr1 & He1 & _).
    apply (IH _ _ _ _ _ Hr1) in H as [Hr' He']. split; congruence.
Qed.

Lemma tick_mono_keeps_ready (rounds : nat) :
  forall (i : Z) (p : player) (audio : list F32) p' audio',
  echo_ready p -> tick_mono powf rounds i p audio = Ok (p', audio') ->
  echo_ready p' /\ env_params p' = env_params p.
Proof.
  induction rounds as [ | rounds IH]; intros i p audio p' audio' Hr H.
  - injection H as <- _. split; [exact Hr | reflexivity].
  - cbn [tick_mono] in H.
    apply bind_Ok in H as ([[p1 l1] r1] & Hf & H).
    apply bind_Ok in H as (a1 & _ & H).
    apply (tick_frame_keeps_ready _ _ _ _ Hr) in Hf as (Hr1 & He1 & _).
    apply (IH _ _ _ _ _ Hr1) in H as [Hr' He']. split; congruence.
Qed.

(** A frame with an environment whose [cursor_max] is 0 does not return. *)
Lemma tick_frame_zero_max (p : player) (env : environment) :
  env_params p = Some env -> cursor_max env = 0 -> fails (tick_frame powf p).
Proof.
  intros He Hm.
  destruct (tick_frame powf p) as [[[p' l] r] | | ] eqn:H; try exact I.
  apply tick_frame_split in H as (p1 & l1 & r1 & H & _ & Henv & _).
  pose proof (maybe_echo_one_zero_max p1 env l1 r1 ltac:(congruence) Hm)
    as Hf.
  rewrite H in Hf. exact Hf.
Qed.

End EchoFacts.

(** ** The buffer of a tick *)

Section BufferFacts.

Variable powf : F32 -> F32 -> F32.

Lemma tick_stereo_length (rounds : nat) :
  forall (i : Z) (p : player) (audio : list F32) p' audio',
  tick_stereo powf rounds i p audio = Ok (p', audio') ->
  length audio' = length audio /\ in_stereo p' = in_stereo p.
Proof.
  induction rounds as [ | rounds IH]; intros i p audio p' audio' H.
  - injection H as <- <-. split; reflexivity.
  - cbn [tick_stereo] in H.
    apply bind_Ok in H as ([[p1 l] r] & Hf & H).
    apply bind_Ok in H as (a1 & E1 & H). apply index_set_Ok in E1 as [_ ->].
    apply bind_Ok in H as (a2 & E2 & H). apply index_set_Ok in E2 as [_ ->].
    apply tick_frame_split in Hf
      as (q & lq & rq & He & _ & _ & _ & _ & Hst & _).
    apply IH in H as [-> ->]. rewrite !length_insert.
    split; [reflexivity | ]. rewrite <- Hst.
    unfold maybe_echo_one in He. destruct (env_params q).
    + apply bind_Ok in He as (eL & _ & He).
      apply bind_Ok in He as (eR & _ & He). cbv zeta in He.
      destruct (cursor_max _ =? 0); [discriminate | ].
      injection He as <- _ _. reflexivity.
    + injection He as <- _ _. reflexivity.
Qed.

Lemma tick_mono_length (rounds : nat) :
  forall (i : Z) (p : player) (audio : list F32) p' audio',
  tick_mono powf rounds i p audio = Ok (p', audio') ->
  length audio' = length audio.
Proof.
  induction rounds as [ | rounds IH]; intros i p audio p' audio' H.
  - injection H as <- <-. reflexivity.
  - cbn [tick_mono] in H.
    apply bind_Ok in H as ([[p1 l] r] & Hf & H).
    apply bind_Ok in H as (a1 & E1 & H). apply index_set_Ok in E1 as [_ ->].
    apply IH in H as ->. rewrite length_insert. reflexivity.
Qed.

(** The frames of a player that is not playing and has no echo. *)
Lemma render_idle (n : nat) (p : player) :
  playback p = false -> env_params p = None ->
  render powf n p = Ok (p, replicate n (f32_zero, f32_zero)).
Proof.
  intros Hp He. induction n as [ | n IH]; [reflexivity | ].
  cbn [render replicate]. unfold tick_frame. rewrite Hp. bind_ok.
  unfold maybe_echo_one. rewrite He. bind_ok. rewrite IH. reflexivity.
Qed.

End BufferFacts.

(** ** The echo and the buffer *)



Section BufferTheorems.

Variable powf : F32 -> F32 -> F32.

(** X13.  The echo cursor never leaves the arrays during playback: when the
    echo cursor is below [cursor_max] (at most 65535) before a call of
    [tick], or the player has no environment, then the same holds after the
    call, whatever the song did in between, and the environment is
    unchanged. *)
Theorem tick_keeps_echo_ready (p : player) (audio : list F32)
    (p' : player) (audio' : list F32) :
  int_indexed audio ->
  echo_ready p -> tick powf p audio = Ok (p', audio') ->
  echo_ready p' /\ env_params p' = env_params p.
Proof.
  intros _ Hr. unfold tick. destruct (in_stereo p).
  - apply tick_stereo_keeps_ready, Hr.
  - apply tick_mono_keeps_ready, Hr.
Qed.

(** X14.  An environment with [cursor_max == 0] makes the first frame of
    every [tick] on a buffer that is not empty fail: the frame ends in the
    remainder of a division by zero (or fails before it); [tick] does not
    return. *)
Theorem tick_zero_cursor_max (p : player) (env : environment)
    (audio : list F32) :
  env_params p = Some env -> cursor_max env = 0 -> audio <> [] ->
  fails (tick powf p audio).
Proof.
  intros He Hm Ha. unfold tick.
  destruct audio as [ | a audio]; [contradiction | ].
  assert (Hf : fails (tick_frame powf p))
    by (eapply tick_frame_zero_max; eassumption).
  destruct (in_stereo p).
  - destruct (Z.to_nat ((Z.of_nat (length (a :: audio)) + 1) / 2)) eqn:E.
    + cbn [length] in E. exfalso.
      assert (1 <= (Z.of_nat (S (length audio)) + 1) / 2)
        by (apply Z.div_le_lower_bound; lia).
      lia.
    + cbn [tick_stereo]. destruct (tick_frame powf p); [contradiction | | ];
        exact I.
  - cbn [length]. rewrite Nat2Z.id. cbn [tick_mono].
    destruct (tick_frame powf p); [contradiction | | ]; exact I.
Qed.

(** X15.  A player that is not playing and has no environment fills the
    buffer with 0.0 and does not change: in mono for every buffer, in stereo
    for every buffer of even length (of a length that the [int] counter of
    the loop can reach, here and below). *)
Theorem tick_idle_silence (p : player) (audio : list F32) :
  int_indexed audio ->
  playback p = false -> env_params p = None ->
  in_stereo p = false \/ Nat.Even (length audio) ->
  tick powf p audio = Ok (p, replicate (length audio) f32_zero).
Proof.
  intros _ Hp He Hmode. unfold tick. destruct (in_stereo p) eqn:Est.
  - destruct Hmode as [ | [k Hk]]; [discriminate | ].
    rewrite Hk.
    replace (Z.to_nat ((Z.of_nat (2 * k) + 1) / 2)) with k
      by (replace ((Z.of_nat (2 * k) + 1) / 2) with (Z.of_nat k)
            by (apply Z.div_unique with 1; lia);
          rewrite Nat2Z.id; reflexivity).
    pose proof (tick_stereo_render powf k [] audio p Hk) as H.
    cbn [length app] in H. change (Z.of_nat 0) with 0 in H. rewrite H.
    rewrite render_idle by assumption. bind_ok. do 2 f_equal.
    clear. induction k as [ | k IH]; [reflexivity | ].
    replace (2 * S k)%nat with (S (S (2 * k))) by lia.
    cbn [replicate map concat]. rewrite IH. reflexivity.
  - rewrite Nat2Z.id.
    pose proof (tick_mono_render powf (length audio) [] audio p eq_refl) as H.
    cbn [length app] in H. change (Z.of_nat 0) with 0 in H. rewrite H.
    rewrite render_idle by assumption. bind_ok. do 2 f_equal.
    clear. induction (length audio) as [ | k IH]; [reflexivity | ].
    cbn [replicate map]. rewrite IH. reflexivity.
Qed.

(** X16.  [tick] returns only with a buffer of the length it was given, and
    in stereo only for a buffer of even length: on a stereo buffer of odd
    length the last round writes one slot past the end. *)
Theorem tick_buffer_length (p : player) (audio : list F32)
    (p' : player) (audio' : list F32) :
  int_indexed audio ->
  tick powf p audio = Ok (p', audio') ->
  length audio' = length audio /\
  (in_stereo p = true -> Nat.Even (length audio)).
Proof.
  intros _. unfold tick. destruct (in_stereo p).
  - intros H. split; [eapply tick_stereo_length, H | intros _].
    destruct (Nat.Even_or_Odd (length audio)) as [ | [k Hk]]; [assumption | ].
    exfalso.
    pose proof (tick_stereo_past_end powf
                  (Z.to_nat ((Z.of_nat (length audio) + 1) / 2)) 0 p audio)
      as Hf.
    rewrite H in Hf. apply Hf; [lia | rewrite Hk | rewrite Hk].
    + replace ((Z.of_nat (2 * k + 1) + 1) / 2) with (Z.of_nat k + 1)
        by (apply Z.div_unique with 0; lia).
      lia.
    + replace ((Z.of_nat (2 * k + 1) + 1) / 2) with (Z.of_nat k + 1)
        by (apply Z.div_unique with 0; lia).
      lia.
  - intros H. split; [eapply tick_mono_length, H | discriminate].
Qed.

(** X17.  The stereo buffer is the frames in order, left then right: on a
    buffer of [2 * n] slots a stereo [tick] is the rendering of [n] frames
    followed by the write of [clamp(l)], [clamp(r)] for each of them; what
    the buffer held before does not show, and a frame that fails makes
    [tick] fail in the same way. *)
Theorem tick_stereo_layout (p : player) (audio : list F32) (n : nat) :
  int_indexed audio ->
  in_stereo p = true -> length audio = (2 * n)%nat ->
  tick powf p audio
  = ('(p', frames) ← render powf n p;
     Ok (p', concat (map stereo_slots frames))).
Proof.
  intros _ Hst Hlen. unfold tick. rewrite Hst, Hlen.
  replace (Z.to_nat ((Z.of_nat (2 * n) + 1) / 2)) with n
    by (replace ((Z.of_nat (2 * n) + 1) / 2) with (Z.of_nat n)
          by (apply Z.div_unique with 1; lia);
        rewrite Nat2Z.id; reflexivity).
  apply (tick_stereo_render powf n [] audio p Hlen).
Qed.

End BufferTheorems.

Lemma tick_keeps_echo_ready_witness :
  echo_ready (started_with song_drum_miss example_environment) /\
  exists p' audio',
    tick powf_octaves (started_with song_drum_miss example_environment)
         [f32_zero; f32_zero; f32_zero; f32_zero] = Ok (p', audio') /\
    echo_ready p'.
Proof.
  assert (Hr : echo_ready (started_with song_drum_miss example_environment))
    by (vm_compute; repeat split; discriminate).
  split; [exact Hr | ].
  destruct (tick powf_octaves
              (started_with song_drum_miss example_environment)
              [f32_zero; f32_zero; f32_zero; f32_zero])
    as [[p' audio'] | e | u] eqn:H;
    [ | vm_compute in H; discriminate | vm_compute in H; discriminate].
  exists p', audio'. split; [reflexivity | ].
  assert (Hi : int_indexed [f32_zero; f32_zero; f32_zero; f32_zero])
    by (unfold int_indexed; cbn; lia).
  exact (proj1 (tick_keeps_echo_ready powf_octaves _ _ _ _ Hi Hr H)).
Defined.

Lemma tick_zero_cursor_max_witness :
  env_params (started_with song_drum_miss example_environment_zero_max)
    = Some example_environment_zero_max /\
  cursor_max example_environment_zero_max = 0 /\
  fails (tick powf_octaves
           (started_with song_drum_miss example_environment_zero_max)
           [f32_zero; f32_zero]).
Proof.
  assert (He : env_params
                 (started_with song_drum_miss example_environment_zero_max)
               = Some example_environment_zero_max)
    by (vm_compute; reflexivity).
  assert (Hm : cursor_max example_environment_zero_max = 0) by reflexivity.
  split; [exact He | split; [exact Hm | ]].
  apply (tick_zero_cursor_max powf_octaves _ _ [f32_zero; f32_zero] He Hm).
  discriminate.
Defined.

Lemma tick_idle_silence_witness :
  playback example_player = false /\ env_params example_player = None /\
  Nat.Even (length [f32_of_Z 1; f32_nan]) /\
  tick powf_octaves example_player [f32_of_Z 1; f32_nan]
    = Ok (example_player, [f32_zero; f32_zero]).
Proof.
  assert (Hp : playback example_player = false) by reflexivity.
  assert (He : env_params example_player = None) by reflexivity.
  assert (Hl : Nat.Even (length [f32_of_Z 1; f32_nan]))
    by (exists 1%nat; reflexivity).
  split; [exact Hp | split; [exact He | split; [exact Hl | ]]].
  exact (tick_idle_silence powf_octaves example_player
           [f32_of_Z 1; f32_nan] ltac:(unfold int_indexed; cbn; lia)
           Hp He (or_intror Hl)).
Defined.

Lemma tick_buffer_length_witness :
  exists p' audio',
    tick powf_octaves (started song_drum_miss) [f32_zero; f32_zero]
      = Ok (p', audio') /\
    length audio' = 2%nat /\ Nat.Even 2.
Proof.
  destruct (tick powf_octaves (started song_drum_miss) [f32_zero; f32_zero])
    as [[p' audio'] | e | u] eqn:H;
    [ | vm_compute in H; discriminate | vm_compute in H; discriminate].
  exists p', audio'. split; [reflexivity | ].
  assert (Hi : int_indexed [f32_zero; f32_zero])
    by (unfold int_indexed; cbn; lia).
  destruct (tick_buffer_length powf_octaves _ _ _ _ Hi H) as [Hlen Hev].
  split; [exact Hlen | apply Hev; vm_compute; reflexivity].
Defined.

Lemma tick_stereo_layout_witness :
  in_stereo (started song_drum_miss) = true /\
  length [f32_of_Z 1; f32_nan] = (2 * 1)%nat /\
  tick powf_octaves (started song_drum_miss) [f32_of_Z 1; f32_nan]
  = ('(p', frames) ← render powf_octaves 1 (started song_drum_miss);
     Ok (p', concat (map stereo_slots frames))).
Proof.
  assert (Hs : in_stereo (started song_drum_miss) = true)
    by (vm_compute; reflexivity).
  assert (Hl : length [f32_of_Z 1; f32_nan] = (2 * 1)%nat) by reflexivity.
  split; [exact Hs | split; [exact Hl | ]].
  exact (tick_stereo_layout powf_octaves (started song_drum_miss)
           [f32_of_Z 1; f32_nan] 1 ltac:(unfold int_indexed; cbn; lia)
           Hs Hl).
Defined.

(** ** Voices *)

Lemma release_first_oldest (before after : list voice_single)
    (v : voice_single) :
  Forall (fun x => key x = false) before -> key v = true ->
  release_first (before ++ v :: after) = before ++ set_key v false :: after.
Proof.
  intros Hb Hv. induction Hb as [ | x before Hx _ IH]; cbn.
  - rewrite Hv. reflexivity.
  - rewrite Hx, IH. reflexivity.
Qed.

Lemma release_first_none (vs : list voice_single) :
  Forall (fun x => key x = false) vs -> release_first vs = vs.
Proof.
  induction 1 as [ | x vs Hx _ IH]; cbn; [reflexivity | ].
  rewrite Hx, IH. reflexivity.
Qed.

Lemma for_each_voice_same
    (f : voice_single -> F32 -> F32 -> outcome (voice_single * F32 * F32)) :
  (forall v l r v' l' r', f v l r = Ok (v', l', r') -> same_voice v v') ->
  forall vs l r vs' l' r',
    for_each_voice f vs l r = Ok (vs', l', r') -> Forall2 same_voice vs vs'.
Proof.
  intros Hf. induction vs as [ | v vs IH]; intros l r vs' l' r'; cbn.
  - intros [= <- _ _]. constructor.
  - intros H. apply bind_Ok in H as ([[v1 l1] r1] & E1 & H).
    apply bind_Ok in H as ([[vs1 l2] r2] & E2 & H).
    injection H as <- _ _. constructor; [eapply Hf, E1 | eapply IH, E2].
Qed.

Lemma fetch_sample_same (wave : list Z) (here : Z) (v v' : voice_single)
    (x : F32) :
  fetch_sample wave here v = Ok (v', x) -> same_voice v v'.
Proof.
  unfold fetch_sample. destruct (_ <=? _).
  - intros [= <- _]. repeat split.
  - intros H. apply bind_Ok in H as (y & _ & H). injection H as <- _.
    repeat split.
Qed.

Lemma voice_accumulate_same (patch : patch_t) (v : voice_single) (l r : F32)
    (v' : voice_single) (l' r' : F32) :
  voice_accumulate patch v l r = Ok (v', l', r') -> same_voice v v'.
Proof.
  unfold voice_accumulate. intros H. cbv zeta in H.
  apply bind_Ok in H as (h0 & _ & H).
  apply bind_Ok in H as (h1 & _ & H).
  apply bind_Ok in H as ([v1 x] & E & H).
  apply fetch_sample_same in E. injection H as <- _ _.
  unfold same_voice in *. cbn. exact E.
Qed.

Lemma drum_accumulate_same (mapping : gmap Z drum_t) (d : voice_single)
    (l r : F32) (d' : voice_single) (l' r' : F32) :
  drum_accumulate mapping d l r = Ok (d', l', r') -> same_voice d d'.
Proof.
  unfold drum_accumulate. intros H.
  apply bind_Ok in H as ([[[d1 x] gl] gr] & E & H). injection H as <- _ _.
  destruct (mapping !! note d) as [patch | ].
  - apply bind_Ok in E as (h0 & _ & E).
    apply bind_Ok in E as ([d2 y] & E2 & E).
    apply fetch_sample_same in E2. injection E as <- _ _ _.
    unfold same_voice in *. cbn. exact E2.
  - injection E as <- _ _ _. repeat split.
Qed.

Lemma Forall2_same_voice_maps (vs vs' : list voice_single) :
  Forall2 same_voice vs vs' ->
  map note vs' = map note vs /\ map velocity vs' = map velocity vs /\
  map key vs' = map key vs /\ map phase_add_by vs' = map phase_add_by vs.
Proof.
  induction 1 as [ | v v' vs vs' (Hn & Hv & Hk & Hs) _ IH]; cbn.
  - repeat split.
  - destruct IH as (-> & -> & -> & ->). rewrite Hn, Hv, Hk, Hs.
    repeat split.
Qed.

Lemma Forall2_same_refl (vs : list voice_single) : Forall2 same_voice vs vs.
Proof. induction vs; constructor; [repeat split | assumption]. Qed.

(** ** No exception *)

Lemma no_throw_bind {A B} (m : outcome A) (f : A -> outcome B) :
  no_throw m -> (forall a, m = Ok a -> no_throw (f a)) -> no_throw (m ≫= f).
Proof. destruct m as [a | e | u]; cbn; intros Hm Hf; auto. Qed.

Lemma f32_to_u32_no_throw (x : F32) : no_throw (f32_to_u32 x).
Proof.
  unfold f32_to_u32. destruct x as [s | s | | s m e]; try exact I.
  cbv zeta. destruct s.
  - destruct (_ =? 0); exact I.
  - destruct (_ <? 2 ^ 32); exact I.
Qed.

Lemma index_no_throw {A} (v : list A) (i : Z) : no_throw (index v i).
Proof.
  unfold index. destruct (_ && _); [ | exact I].
  destruct (v !! Z.to_nat i); exact I.
Qed.

Lemma index_set_no_throw {A} (v : list A) (i : Z) (a : A) :
  no_throw (index_set v i a).
Proof. unfold index_set. destruct (_ && _); exact I. Qed.

Lemma deref_no_throw {A} (g : option A) : no_throw (deref g).
Proof. destruct g; exact I. Qed.

Lemma echo_index_no_throw (buffer : gmap Z F32) (i : Z) :
  no_throw (echo_index buffer i).
Proof. unfold echo_index. destruct (_ && _); exact I. Qed.

Lemma maybe_echo_one_no_throw (p : player) (l r : F32) :
  no_throw (maybe_echo_one p l r).
Proof.
  unfold maybe_echo_one. destruct (env_params p) as [env | ]; [ | exact I].
  apply no_throw_bind; [apply echo_index_no_throw | intros eL _].
  apply no_throw_bind; [apply echo_index_no_throw | intros eR _].
  cbv zeta. destruct (cursor_max env =? 0); exact I.
Qed.

(** The echo does not touch the groups, the programs or the song. *)
Lemma maybe_echo_one_groups (p : player) (l r : F32) (p' : player)
    (l' r' : F32) :
  maybe_echo_one p l r = Ok (p', l', r') ->
  channels p' = channels p /\ patch_ids p' = patch_ids p /\
  current p' = current p /\ in_stereo p' = in_stereo p.
Proof.
  unfold maybe_echo_one. destruct (env_params p) as [env | ].
  - intros H. apply bind_Ok in H as (eL & _ & H).
    apply bind_Ok in H as (eR & _ & H). cbv zeta in H.
    destruct (cursor_max env =? 0); [discriminate | ].
    injection H as <- _ _. repeat split.
  - intros [= <- _ _]. repeat split.
Qed.

Lemma loop_fold_range (patch : patch_t) (key_held : bool) (here h : Z) :
  0 <= here -> loop_fold patch key_held here = Ok h -> 0 <= h.
Proof.
  intros Hh. unfold loop_fold. cbv zeta.
  destruct (_ && _); [ | intros [= <-]; exact Hh].
  destruct key_held; [ | intros [= <-]; exact Hh].
  destruct (_ =? 0); [discriminate | ].
  intros [= <-]. apply wrap32_range.
Qed.

Lemma loop_fold_no_throw (patch : patch_t) (key_held : bool) (here : Z) :
  no_throw (loop_fold patch key_held here).
Proof.
  unfold loop_fold. cbv zeta.
  destruct (_ && _); [ | exact I].
  destruct key_held; [ | exact I].
  destruct (_ =? 0); exact I.
Qed.

(** The guarded [waveform.at(here)] never throws. *)
Lemma fetch_sample_no_throw (wave : list Z) (here : Z) (v : voice_single) :
  0 <= here -> no_throw (fetch_sample wave here v).
Proof.
  intros Hh. unfold fetch_sample.
  destruct (Z.leb_spec (Z.of_nat (length wave)) here) as [ | Hlt];
    [exact I | ].
  destruct (sample_at_in_range wave here ltac:(lia)) as (b & _ & ->).
  exact I.
Qed.

Lemma voice_accumulate_no_throw (patch : patch_t) (v : voice_single)
    (l r : F32) :
  no_throw (voice_accumulate patch v l r).
Proof.
  unfold voice_accumulate. cbv zeta.
  apply no_throw_bind; [apply f32_to_u32_no_throw | intros h0 E0].
  apply f32_to_u32_range in E0.
  apply no_throw_bind; [apply loop_fold_no_throw | intros h1 E1].
  apply loop_fold_range in E1; [ | lia].
  apply no_throw_bind; [apply fetch_sample_no_throw, E1 | intros [v1 x] _].
  exact I.
Qed.

Lemma drum_accumulate_no_throw (mapping : gmap Z drum_t) (d : voice_single)
    (l r : F32) :
  no_throw (drum_accumulate mapping d l r).
Proof.
  unfold drum_accumulate.
  apply no_throw_bind; [ | intros [[[d1 x] gl] gr] _; exact I].
  destruct (mapping !! note d) as [patch | ]; [ | exact I].
  apply no_throw_bind; [apply f32_to_u32_no_throw | intros h0 E0].
  apply f32_to_u32_range in E0.
  apply no_throw_bind; [apply fetch_sample_no_throw; lia | intros [d1 x] _].
  exact I.
Qed.

Lemma for_each_voice_no_throw
    (f : voice_single -> F32 -> F32 -> outcome (voice_single * F32 * F32)) :
  (forall v l r, no_throw (f v l r)) ->
  forall vs l r, no_throw (for_each_voice f vs l r).
Proof.
  intros Hf. induction vs as [ | v vs IH]; intros l r; cbn; [exact I | ].
  apply no_throw_bind; [apply Hf | intros [[v1 l1] r1] _].
  apply no_throw_bind; [apply IH | intros [[vs1 l2] r2] _]. exact I.
Qed.

Lemma vector_at_no_throw {A} (v : list A) (i : Z) :
  0 <= i < Z.of_nat (length v) -> no_throw (vector_at v i).
Proof.
  intros Hi. destruct (vector_at_in_range v i Hi) as (a & _ & ->). exact I.
Qed.

(** A round of the mixing loop throws only for a program without patch. *)
Lemma mix_channel_no_throw (i : Z) (p : player) (l r : F32) :
  0 <= i < 16 -> sixteen p ->
  (forall g, patch_ids p !! Z.to_nat i = Some (Some g) ->
             is_Some (patches (current p) !! g)) ->
  no_throw (mix_channel i p l r).
Proof.
  intros Hi [Hc Hp] Hdef. unfold mix_channel.
  apply no_throw_bind; [apply vector_at_no_throw; lia | intros g _].
  apply no_throw_bind; [apply deref_no_throw | intros ch _].
  cbv zeta. destruct (is_drum_kit ch).
  - apply no_throw_bind; [ | intros [[vs l1] r1] _; exact I].
    apply for_each_voice_no_throw. apply drum_accumulate_no_throw.
  - apply no_throw_bind; [apply vector_at_no_throw; lia | intros id Eid].
    apply vector_at_Ok in Eid as [_ Eid].
    destruct id as [program | ]; [ | exact I].
    destruct (Hdef _ Eid) as [patch Hpatch].
    unfold map_at. rewrite Hpatch. bind_ok.
    apply no_throw_bind; [ | intros [[vs l1] r1] _; exact I].
    apply for_each_voice_no_throw. apply voice_accumulate_no_throw.
Qed.

Lemma mix_channel_current (i : Z) (p : player) (l r : F32)
    (p' : player) (l' r' : F32) :
  mix_channel i p l r = Ok (p', l', r') -> current p' = current p.
Proof.
  intros H. apply mix_channel_settings in H as (Hs & _).
  unfold same_settings in Hs. tauto.
Qed.

Lemma mix_channels_no_throw (rounds : nat) :
  forall (i : Z) (p : player) (l r : F32),
  0 <= i -> i + Z.of_nat rounds <= 16 -> sixteen p ->
  (forall j g, patch_ids p !! j = Some (Some g) ->
               is_Some (patches (current p) !! g)) ->
  no_throw (mix_channels rounds i p l r).
Proof.
  induction rounds as [ | rounds IH]; intros i p l r Hi Hr Hs Hdef;
    [exact I | ].
  cbn [mix_channels].
  apply no_throw_bind;
    [apply mix_channel_no_throw; [lia | exact Hs | intros g; apply Hdef] | ].
  intros [[p1 l1] r1] E.
  pose proof (mix_channel_effect i p l r p1 l1 r1 Hi E) as (Hid & _).
  pose proof (mix_channel_settings i p l r p1 l1 r1 E) as (Hset & _ & _ & Hn).
  apply IH; [lia | lia | | ].
  - destruct Hs as [Hc Hp]. split; congruence.
  - intros j g Hj. rewrite Hid in Hj.
    replace (current p1) with (current p)
      by (unfold same_settings in Hset; symmetry; tauto).
    apply (Hdef j g Hj).
Qed.

Lemma up_to_upper_bound_In {V} (k : Z) (m : multimap V) (x : Z * V) :
  In x (up_to_upper_bound k m) -> In x m.
Proof.
  induction m as [ | [k' v'] rest IH]; cbn; [trivial | ].
  destruct (k <? k'); cbn; [contradiction | ].
  intros [H | H]; [left; exact H | right; apply IH, H].
Qed.

Lemma lower_bound_In {V} (k : Z) (m : multimap V) (x : Z * V) :
  In x (lower_bound k m) -> In x m.
Proof.
  induction m as [ | [k' v'] rest IH]; cbn; [trivial | ].
  destruct (k' <? k); [intros H; right; apply IH, H | trivial].
Qed.

Lemma equal_range_In {V} (k : Z) (m : multimap V) (v : V) :
  In v (map snd (equal_range k m)) -> exists k', In (k', v) m.
Proof.
  intros H. apply in_map_iff in H as ([k' v'] & <- & H).
  exists k'. apply (lower_bound_In k), (up_to_upper_bound_In k), H.
Qed.

Section SafetyFacts.

Variable powf : F32 -> F32 -> F32.

Lemma dispatch_no_throw (p : player) (e : command) :
  no_throw (dispatch powf p e).
Proof.
  destruct e; cbn [dispatch]; try exact I.
  - destruct (_ <? _); [ | exact I].
    apply no_throw_bind; [apply index_no_throw | intros g _].
    apply no_throw_bind; [apply deref_no_throw | intros ch _]. exact I.
  - apply no_throw_bind; [apply index_no_throw | intros g _].
    apply no_throw_bind; [apply deref_no_throw | intros ch _]. exact I.
  - apply no_throw_bind; [apply index_no_throw | intros g _].
    apply no_throw_bind; [apply deref_no_throw | intros ch _].
    destruct ch; exact I.
  - apply no_throw_bind; [apply index_set_no_throw | intros ids _]. exact I.
Qed.

(** The programs bound after an event are those bound before and the
    program of the event. *)
Lemma dispatch_programs (p p' : player) (e : command) :
  dispatch powf p e = Ok p' ->
  forall j g, patch_ids p' !! j = Some (Some g) ->
    patch_ids p !! j = Some (Some g) \/
    exists c, e = command_program_change c g.
Proof.
  intros H j g Hj.
  destruct e; cbn [dispatch] in H;
    try (pose proof (dispatch_frame powf p p' _ ltac:(cbn [dispatch]; exact H));
         fail).
  - destruct (_ <? _); [ | injection H as <-; left; exact Hj].
    apply bind_Ok in H as (g0 & _ & H). apply bind_Ok in H as (ch & _ & H).
    injection H as <-. left. exact Hj.
  - apply bind_Ok in H as (g0 & _ & H). apply bind_Ok in H as (ch & _ & H).
    injection H as <-. left. exact Hj.
  - apply bind_Ok in H as (g0 & _ & H). apply bind_Ok in H as (ch & _ & H).
    destruct ch; injection H as <-; left; exact Hj.
  - apply bind_Ok in H as (ids & E & H). injection H as <-. cbn in Hj.
    apply index_set_Ok in E as [Hr ->].
    apply list_lookup_insert_Some in Hj as [(_ & Hg & _) | (_ & Hj)].
    + injection Hg as ->. right. exists channel. reflexivity.
    + left. exact Hj.
  - injection H as <-. left. exact Hj.
  - injection H as <-. left. exact Hj.
  - injection H as <-. left. exact Hj.
  - injection H as <-. left. exact Hj.
  - injection H as <-. left. exact Hj.
Qed.

Lemma dispatch_all_no_throw (es : list command) :
  forall p, no_throw (dispatch_all powf p es).
Proof.
  induction es as [ | e es IH]; intros p; cbn; [exact I | ].
  apply no_throw_bind; [apply dispatch_no_throw | intros p1 _]. apply IH.
Qed.

Lemma dispatch_all_programs (es : list command) :
  forall p p', dispatch_all powf p es = Ok p' ->
  forall j g, patch_ids p' !! j = Some (Some g) ->
    patch_ids p !! j = Some (Some g) \/
    exists c, In (command_program_change c g) es.
Proof.
  induction es as [ | e es IH]; intros p p' H j g Hj; cbn in H.
  - injection H as <-. left. exact Hj.
  - apply bind_Ok in H as (p1 & E & H).
    destruct (IH _ _ H j g Hj) as [H1 | [c Hc]].
    + destruct (dispatch_programs _ _ _ E j g H1) as [H0 | [c ->]].
      * left. exact H0.
      * right. exists c. left. reflexivity.
    + right. exists c. right. exact Hc.
Qed.

(** [handle_one] keeps the invariant of the safety theorem. *)
Lemma handle_one_programs (p : player) (l r : F32) (p' : player)
    (l' r' : F32) :
  programs_defined p -> handle_one powf p l r = Ok (p', l', r') ->
  programs_defined p'.
Proof.
  intros [Hb Hs] H.
  pose proof (handle_one_settings powf _ _ _ _ _ _ H) as (Hset & _).
  assert (Hcur : current p' = current p)
    by (unfold same_settings in Hset; tauto).
  unfold programs_defined. rewrite Hcur. split; [ | exact Hs].
  unfold handle_one in H.
  apply bind_Ok in H as (cur0 & _ & H). cbv zeta in H.
  apply bind_Ok in H as (p1 & Hd & H).
  pose proof (mix_channels_effect 16 0 _ _ _ _ _ _ ltac:(lia) H) as (Hid & _).
  rewrite Hid. cbn [patch_ids set_on_voices].
  intros j g Hj.
  destruct (cursor_advanced _ _).
  - apply bind_Ok in Hd as (p0 & E & Hd). injection Hd as <-. cbn in Hj.
    destruct (dispatch_all_programs _ _ _ E j g Hj) as [H0 | [c Hc]].
    + apply (Hb j g H0).
    + apply equal_range_In in Hc as [k Hk]. apply (Hs k c g Hk).
  - injection Hd as <-. apply (Hb j g Hj).
Qed.

Lemma handle_one_no_throw (p : player) (l r : F32) :
  sixteen p -> programs_defined p -> no_throw (handle_one powf p l r).
Proof.
  intros H16 [Hb Hs]. unfold handle_one.
  apply no_throw_bind; [apply f32_to_u32_no_throw | intros cur0 _].
  cbv zeta.
  apply no_throw_bind.
  - destruct (cursor_advanced _ _); [ | exact I].
    apply no_throw_bind; [apply dispatch_all_no_throw | intros p0 _]. exact I.
  - intros p1 Hd.
    assert (H1 : sixteen p1 /\ current p1 = current p /\
                 forall j g, patch_ids p1 !! j = Some (Some g) ->
                             is_Some (patches (current p) !! g)).
    { destruct (cursor_advanced _ _).
      - apply bind_Ok in Hd as (p0 & E & Hd). injection Hd as <-.
        pose proof (dispatch_all_sixteen powf _ _ _ E) as [E1 E2].
        pose proof (dispatch_all_frame powf _ _ _ E) as F.
        unfold same_outside_channels in F. cbn in *.
        destruct H16 as [Hc Hp].
        split; [split; cbn; congruence | ]. split; [tauto | ].
        intros j g Hj.
        destruct (dispatch_all_programs _ _ _ E j g Hj) as [H0 | [c Hc']].
        + apply (Hb j g H0).
        + apply equal_range_In in Hc' as [k Hk]. apply (Hs k c g Hk).
      - injection Hd as <-. cbn. split; [exact H16 | ].
        split; [reflexivity | exact Hb]. }
    destruct H1 as (H16' & Hcur & Hdef).
    apply mix_channels_no_throw; [lia | lia | exact H16' | ].
    cbn. rewrite Hcur. exact Hdef.
Qed.

Lemma tick_frame_no_throw (p : player) :
  sixteen p -> programs_defined p -> no_throw (tick_frame powf p).
Proof.
  intros H16 Hdef. unfold tick_frame.
  apply no_throw_bind; [ | intros [[p1 l1] r1] _;
                           apply maybe_echo_one_no_throw].
  destruct (playback p); [ | exact I].
  apply no_throw_bind; [apply handle_one_no_throw; assumption | ].
  intros [[p0 l0] r0] _. cbv zeta. destruct (f32_ltb _ _); exact I.
Qed.

Lemma tick_frame_keeps_safe (p p' : player) (l r : F32) :
  sixteen p -> programs_defined p -> tick_frame powf p = Ok (p', l, r) ->
  sixteen p' /\ programs_defined p'.
Proof.
  intros H16 Hdef H. unfold tick_frame in H.
  apply bind_Ok in H as ([[p1 l1] r1] & Hp & H).
  apply maybe_echo_one_groups in H as (Hc & Hi & Hcur & _).
  assert (H1 : sixteen p1 /\ programs_defined p1).
  { destruct (playback p).
    - apply bind_Ok in Hp as ([[p0 l0] r0] & Hh & Hp).
      pose proof (handle_one_settings powf _ _ _ _ _ _ Hh) as (_ & N1 & N2).
      pose proof (handle_one_programs _ _ _ _ _ _ Hdef Hh) as Hdef0.
      assert (H0 : sixteen p0)
        by (destruct H16; split; congruence).
      cbv zeta in Hp.
      destruct (f32_ltb _ _); injection Hp as <- _ _;
        split; assumption.
    - injection Hp as <- _ _. split; assumption. }
  destruct H1 as [[Hc1 Hp1] [Hb1 Hs1]].
  split; [split; congruence | ].
  unfold programs_defined. rewrite Hi, Hcur. split; assumption.
Qed.

Lemma tick_stereo_no_throw (rounds : nat) :
  forall (i : Z) (p : player) (audio : list F32),
  sixteen p -> programs_defined p ->
  no_throw (tick_stereo powf rounds i p audio).
Proof.
  induction rounds as [ | rounds IH]; intros i p audio H16 Hdef; [exact I | ].
  cbn [tick_stereo].
  apply no_throw_bind; [apply tick_frame_no_throw; assumption | ].
  intros [[p1 l] r] E.
  apply (tick_frame_keeps_safe _ _ _ _ H16 Hdef) in E as [H16' Hdef'].
  apply no_throw_bind; [apply index_set_no_throw | intros a1 _].
  apply no_throw_bind; [apply index_set_no_throw | intros a2 _].
  apply IH; assumption.
Qed.

Lemma tick_mono_no_throw (rounds : nat) :
  forall (i : Z) (p : player) (audio : list F32),
  sixteen p -> programs_defined p ->
  no_throw (tick_mono powf rounds i p audio).
Proof.
  induction rounds as [ | rounds IH]; intros i p audio H16 Hdef; [exact I | ].
  cbn [tick_mono].
  apply no_throw_bind; [apply tick_frame_no_throw; assumption | ].
  intros [[p1 l] r] E.
  apply (tick_frame_keeps_safe _ _ _ _ H16 Hdef) in E as [H16' Hdef'].
  apply no_throw_bind; [apply index_set_no_throw | intros a1 _].
  apply IH; assumption.
Qed.

Lemma tick_stereo_keeps_safe (rounds : nat) :
  forall (i : Z) (p : player) (audio : list F32) p' audio',
  sixteen p -> programs_defined p ->
  tick_stereo powf rounds i p audio = Ok (p', audio') ->
  sixteen p' /\ programs_defined p'.
Proof.
  induction rounds as [ | rounds IH]; intros i p audio p' audio' H16 Hdef H.
  - injection H as <- _. split; assumption.
  - cbn [tick_stereo] in H.
    apply bind_Ok in H as ([[p1 l] r] & E & H).
    apply bind_Ok in H as (a1 & _ & H). apply bind_Ok in H as (a2 & _ & H).
    apply (tick_frame_keeps_safe _ _ _ _ H16 Hdef) in E as [H16' Hdef'].
    apply (IH _ _ _ _ _ H16' Hdef' H).
Qed.

Lemma tick_mono_keeps_safe (rounds : nat) :
  forall (i : Z) (p : player) (audio : list F32) p' audio',
  sixteen p -> programs_defined p ->
  tick_mono powf rounds i p audio = Ok (p', audio') ->
  sixteen p' /\ programs_defined p'.
Proof.
  induction rounds as [ | rounds IH]; intros i p audio p' audio' H16 Hdef H.
  - injection H as <- _. split; assumption.
  - cbn [tick_mono] in H.
    apply bind_Ok in H as ([[p1 l] r] & E & H).
    apply bind_Ok in H as (a1 & _ & H).
    apply (tick_frame_keeps_safe _ _ _ _ H16 Hdef) in E as [H16' Hdef'].
    apply (IH _ _ _ _ _ H16' Hdef' H).
Qed.

End SafetyFacts.

(** ** The cursor after a frame *)

Section CursorAfter.

Variable powf : F32 -> F32 -> F32.


End CursorAfter.


Lemma le16_value (b0 b1 : Z) :
  is_byte b0 -> is_byte b1 -> le16 b0 b1 = b0 + 256 * b1.
Proof.
  unfold is_byte, le16. intros H0 H1.
  rewrite Z.shiftl_0_r, (lor_shiftl_add b0 b1 8) by lia.
  change (2 ^ 8) with 256. unfold wrap16. rewrite Z.mod_small by lia. lia.
Qed.

Lemma u16_bytes_spec (n : Z) :
  0 <= n < 2 ^ 16 -> le16 (n mod 256) ((n / 256) mod 256) = n.
Proof.
  intros Hn.
  assert (H0 : 0 <= n mod 256 < 256) by (apply Z.mod_pos_bound; lia).
  assert (H1 : 0 <= (n / 256) mod 256 < 256) by (apply Z.mod_pos_bound; lia).
  rewrite le16_value by assumption.
  clear H0 H1. Z.to_euclidean_division_equations. lia.
Qed.

Lemma load_records_meta_bytes (s : song) (b0 b1 b2 b3 : Z) :
  load_records s [0xFC; b0; b1]
    = Ok (set_commands (set_version s (le16 b0 b1))
            (emplace 0 (command_version (le16 b0 b1)) (commands s))) /\
  load_records s [0xFD; b0; b1; b2; b3]
    = Ok (set_commands (set_ticks_per_second s (le32 b0 b1 b2 b3))
            (emplace 0 (command_rate (le32 b0 b1 b2 b3)) (commands s))).
Proof. split; reflexivity. Qed.

(** X18.  One round of the mixing loop removes exactly the voices of its
    slot that were inactive, and keeps the others in order: the voices that
    the slot holds after the round have the notes, velocities, key flags and
    steps of the voices that were active before it, whether the slot was
    accumulated or skipped for want of a program. *)
Theorem mix_channel_reaps (i : Z) (p : player) (l r : F32)
    (p' : player) (l' r' : F32) :
  0 <= i -> mix_channel i p l r = Ok (p', l', r') ->
  Forall2 same_voice
    (List.filter active (channel_voices p (Z.to_nat i)))
    (channel_voices p' (Z.to_nat i)) /\
  length (channel_voices p' (Z.to_nat i))
    = length (List.filter active (channel_voices p (Z.to_nat i))).
Proof.
  intros Hi H.
  assert (HF : Forall2 same_voice
                 (List.filter active (channel_voices p (Z.to_nat i)))
                 (channel_voices p' (Z.to_nat i)));
    [ | split; [exact HF | symmetry; eapply Forall2_length, HF]].
  unfold mix_channel in H.
  apply bind_Ok in H as (g & Eg & H). apply vector_at_Ok in Eg as [_ Eg].
  apply bind_Ok in H as (ch & Ech & H).
  destruct g as [ch0 | ]; [ | discriminate]. injection Ech as ->.
  cbv zeta in H.
  assert (Hold : channel_voices p (Z.to_nat i) = voices ch)
    by (unfold channel_voices; rewrite Eg; reflexivity).
  rewrite Hold.
  assert (Hnew : forall vs q,
             q = store_channel p i (set_voices ch vs) ->
             channel_voices q (Z.to_nat i) = vs).
  { intros vs q ->.
    destruct (channel_voices_store p i (set_voices ch vs) _ Eg) as [_ ->].
    apply voices_set_voices. }
  destruct (is_drum_kit ch).
  - apply bind_Ok in H as ([[vs l1] r1] & E & H). injection H as <- _ _.
    unfold count_voices, channel_voices. cbn.
    change (Forall2 same_voice (List.filter active (voices ch))
              (channel_voices (store_channel p i (set_voices ch vs))
                              (Z.to_nat i))).
    rewrite (Hnew vs _ eq_refl).
    eapply for_each_voice_same; [ | exact E].
    intros; eapply drum_accumulate_same; eassumption.
  - apply bind_Ok in H as (id & _ & H). destruct id as [program | ].
    + apply bind_Ok in H as (patch & _ & H).
      apply bind_Ok in H as ([[vs l1] r1] & E & H). injection H as <- _ _.
      change (Forall2 same_voice (List.filter active (voices ch))
                (channel_voices (store_channel p i (set_voices ch vs))
                                (Z.to_nat i))).
      rewrite (Hnew vs _ eq_refl).
      eapply for_each_voice_same; [ | exact E].
      intros; eapply voice_accumulate_same; eassumption.
    + injection H as <- _ _. rewrite (Hnew _ _ eq_refl).
      apply Forall2_same_refl.
Qed.

Lemma mix_channel_reaps_witness :
  0 <= 9 /\
  length (channel_voices example_two_drums 9) = 2%nat /\
  exists p' l' r',
    mix_channel 9 example_two_drums f32_zero f32_zero = Ok (p', l', r') /\
    length (channel_voices p' (Z.to_nat 9)) = 1%nat.
Proof.
  assert (Hi : 0 <= 9) by lia.
  split; [exact Hi | split; [reflexivity | ]].
  destruct (mix_channel 9 example_two_drums f32_zero f32_zero)
    as [[[p' l'] r'] | e | u] eqn:H;
    [ | vm_compute in H; discriminate | vm_compute in H; discriminate].
  exists p', l', r'. split; [reflexivity | ].
  exact (proj2 (mix_channel_reaps 9 example_two_drums f32_zero f32_zero
                  p' l' r' Hi H)).
Defined.

Section VoiceTheorems.

Variable powf : F32 -> F32 -> F32.

(** X19.  A NoteOff releases the oldest held voice of its channel, whatever
    its note: the first voice in the group with [key == true] gets
    [key = false], the released voices before it and every voice after it
    are left as they are.  The record carries no note, so a NoteOff cannot
    choose which of the held notes it ends. *)
Theorem note_off_releases_oldest (p : player) (c : Z)
    (ch : voice_group_base) (before after : list voice_single)
    (v : voice_single) :
  0 <= c -> channels p !! Z.to_nat c = Some (Some ch) ->
  voices ch = before ++ v :: after ->
  Forall (fun x => key x = false) before -> key v = true ->
  exists p',
    dispatch powf p (command_note_off c) = Ok p' /\
    channel_voices p' (Z.to_nat c) = before ++ set_key v false :: after /\
    forall j, j <> Z.to_nat c -> channels p' !! j = channels p !! j.
Proof.
  intros Hc Hch Hvs Hb Hv. cbn [dispatch].
  rewrite (index_lookup _ _ _ Hc Hch). bind_ok. cbn [deref]. bind_ok.
  eexists. split; [reflexivity | ]. split.
  - destruct (channel_voices_store p c
                (set_voices ch (release_first (voices ch))) _ Hch) as [_ ->].
    destruct (voices_set_voices ch (release_first (voices ch))) as [-> _].
    rewrite Hvs. apply release_first_oldest; assumption.
  - intros j Hj. unfold store_channel. cbn.
    apply list_lookup_insert_ne. congruence.
Qed.

(** X20.  The voice limit is tested against the count of the frame before,
    not against the voices started so far: when [on_voices < max_voices],
    every NoteOn of a run of NoteOn events on one channel starts a voice,
    however many they are, and [on_voices] is not changed by any of them. *)
Theorem note_on_limit_per_frame (nvs : list (Z * Z)) :
  forall (p : player) (c : Z) (ch : voice_group_base),
  0 <= c -> channels p !! Z.to_nat c = Some (Some ch) ->
  on_voices p < max_voices p ->
  exists p',
    dispatch_all powf p
      (map (fun nv => command_note_on c (fst nv) (snd nv)) nvs) = Ok p' /\
    channel_voices p' (Z.to_nat c)
      = voices ch
        ++ map (fun nv => started_voice powf p ch (fst nv) (snd nv)) nvs /\
    on_voices p' = on_voices p.
Proof.
  induction nvs as [ | [n v] nvs IH]; intros p c ch Hc Hch Hlim.
  - exists p. split; [reflexivity | ]. split; [ | reflexivity].
    unfold channel_voices. rewrite Hch, app_nil_r. reflexivity.
  - cbn [map dispatch_all dispatch fst snd].
    replace (on_voices p <? max_voices p) with true
      by (symmetry; apply Z.ltb_lt; exact Hlim).
    rewrite (index_lookup _ _ _ Hc Hch). bind_ok. cbn [deref]. bind_ok.
    set (ch1 := set_voices ch (voices ch ++ [started_voice powf p ch n v])).
    change (set_voices ch _) with ch1.
    destruct (channel_voices_store p c ch1 _ Hch) as [Hch1 _].
    destruct (IH (store_channel p c ch1) c ch1 Hc Hch1 Hlim)
      as (p' & Hrun & Hvs & Hon).
    exists p'. split; [exact Hrun | ]. split; [ | exact Hon].
    rewrite Hvs. subst ch1.
    destruct (voices_set_voices ch
                (voices ch ++ [started_voice powf p ch n v])) as [-> _].
    rewrite <- app_assoc. cbn [app]. do 2 f_equal.
    apply map_ext. intros [n' v']. destruct ch; reflexivity.
Qed.


End VoiceTheorems.

Lemma note_off_releases_oldest_witness :
  channels example_three_voices !! Z.to_nat 0
    = Some (Some (voice_group [set_key example_voice false; example_voice;
                                example_voice] f32_zero)) /\
  exists p',
    dispatch powf_octaves example_three_voices (command_note_off 0) = Ok p' /\
    map key (channel_voices p' (Z.to_nat 0)) = [false; false; true].
Proof.
  assert (Hch : channels example_three_voices !! Z.to_nat 0
                = Some (Some (voice_group [set_key example_voice false;
                                           example_voice; example_voice]
                                          f32_zero))) by reflexivity.
  split; [exact Hch | ].
  destruct (note_off_releases_oldest powf_octaves example_three_voices 0 _
              [set_key example_voice false] [example_voice] example_voice
              ltac:(lia) Hch eq_refl
              ltac:(repeat constructor) eq_refl)
    as (p' & Hrun & Hvs & _).
  exists p'. split; [exact Hrun | ]. rewrite Hvs. reflexivity.
Defined.

Lemma note_on_limit_per_frame_witness :
  max_voices example_playing = 8 /\
  on_voices example_playing < max_voices example_playing /\
  exists p',
    dispatch_all powf_octaves example_playing
      (map (fun nv => command_note_on 9 (fst nv) (snd nv))
           (replicate 9 (42, 127))) = Ok p' /\
    length (channel_voices p' (Z.to_nat 9)) = 9%nat.
Proof.
  assert (Hlim : on_voices example_playing < max_voices example_playing)
    by (change (0 < 8); lia).
  split; [reflexivity | split; [exact Hlim | ]].
  destruct (note_on_limit_per_frame powf_octaves (replicate 9 (42, 127))
              example_playing 9 (drum_group []) ltac:(lia) eq_refl Hlim)
    as (p' & Hrun & Hvs & _).
  exists p'. split; [exact Hrun | ]. rewrite Hvs. reflexivity.
Defined.


(** ** Loops that do not fold *)

(** X22.  A looping patch with an empty loop, [loop_start == loop_end],
    makes the melodic accumulation divide by zero: for a held voice whose
    index is past [loop_end], the fold takes the remainder by
    [loop_end - loop_start], which is 0. *)
Theorem voice_accumulate_empty_loop (patch : patch_t) (v : voice_single)
    (l r : F32) (here : Z) :
  f32_to_u32 (f32_floor (f32_mul (ratio (patch_base patch)) (phase v)))
    = Ok here ->
  loop_start patch <> 0xFFFFFFFF -> loop_end patch = loop_start patch ->
  loop_end patch < here -> key v = true ->
  voice_accumulate patch v l r = Undefined ub_div_zero.
Proof.
  intros Hhere Hloop Heq Hgt Hkey. unfold voice_accumulate. cbv zeta.
  rewrite Hhere. bind_ok. unfold loop_fold. cbv zeta.
  replace (loop_start patch =? 4294967295) with false
    by (symmetry; apply Z.eqb_neq; exact Hloop).
  replace (loop_end patch <? here) with true
    by (symmetry; apply Z.ltb_lt; exact Hgt).
  rewrite Hkey, Heq, Z.sub_diag. reflexivity.
Qed.

Lemma voice_accumulate_empty_loop_witness :
  f32_to_u32 (f32_floor (f32_mul (ratio (patch_base example_patch_empty_loop))
                                 (phase example_voice))) = Ok 7 /\
  loop_end example_patch_empty_loop = loop_start example_patch_empty_loop /\
  voice_accumulate example_patch_empty_loop example_voice f32_zero f32_zero
    = Undefined ub_div_zero.
Proof.
  assert (Hh : f32_to_u32
                 (f32_floor
                    (f32_mul (ratio (patch_base example_patch_empty_loop))
                             (phase example_voice))) = Ok 7)
    by (vm_compute; reflexivity).
  split; [exact Hh | split; [reflexivity | ]].
  apply (voice_accumulate_empty_loop example_patch_empty_loop example_voice
           f32_zero f32_zero 7 Hh);
    [discriminate | reflexivity | cbn; lia | reflexivity].
Defined.

(** X23.  The fold needs an index strictly past [loop_end]: a voice whose
    index is at most [loop_end] and at or past the end of the waveform is
    ended, held or not, looping patch or not.  So on a patch whose loop runs
    to the end of the waveform ([loop_end == waveform.size()], which the
    patch invariant allows) a held voice that lands exactly on [loop_end]
    does not loop: it is marked inactive and adds the silent term. *)
Theorem voice_ends_on_loop_end (patch : patch_t) (v : voice_single)
    (l r : F32) (here : Z) :
  f32_to_u32 (f32_floor (f32_mul (ratio (patch_base patch)) (phase v)))
    = Ok here ->
  here <= loop_end patch ->
  Z.of_nat (length (waveform (patch_base patch))) <= here ->
  voice_accumulate patch v l r
    = Ok (set_phase (set_active v false) (f32_add (phase v) (phase_add_by v)),
          f32_add l (silent_term v (gain_L (patch_base patch))),
          f32_add r (silent_term v (gain_R (patch_base patch)))).
Proof.
  intros Hhere Hle Hend. unfold voice_accumulate. cbv zeta.
  rewrite Hhere. bind_ok. unfold loop_fold. cbv zeta.
  replace (loop_end patch <? here) with false
    by (symmetry; apply Z.ltb_ge; exact Hle).
  rewrite andb_false_r. bind_ok. unfold fetch_sample.
  replace (Z.of_nat (length (waveform (patch_base patch))) <=? here)
    with true by (symmetry; apply Z.leb_le; exact Hend).
  reflexivity.
Qed.

Lemma voice_ends_on_loop_end_witness :
  patch_invariant example_patch /\
  key (set_phase example_voice (f32_of_Z 4)) = true /\
  f32_to_u32 (f32_floor (f32_mul (ratio (patch_base example_patch))
                                 (phase (set_phase example_voice
                                                   (f32_of_Z 4))))) = Ok 4 /\
  exists v' l' r',
    voice_accumulate example_patch (set_phase example_voice (f32_of_Z 4))
                     f32_zero f32_zero = Ok (v', l', r') /\
    active v' = false.
Proof.
  assert (Hh : f32_to_u32
                 (f32_floor
                    (f32_mul (ratio (patch_base example_patch))
                             (phase (set_phase example_voice (f32_of_Z 4)))))
               = Ok 4) by (vm_compute; reflexivity).
  split; [right; cbn; lia | ]. split; [reflexivity | ].
  split; [exact Hh | ].
  do 3 eexists. split.
  - apply (voice_ends_on_loop_end example_patch
             (set_phase example_voice (f32_of_Z 4)) f32_zero f32_zero 4 Hh);
      cbn; lia.
  - reflexivity.
Defined.

(** ** Playback without exception *)

Section SafetyTheorems.

Variable powf : F32 -> F32 -> F32.

(** X24.  Playback throws only for a program without patch: with the two
    arrays of sixteen slots, when every program that is bound and every
    program of a ProgramChange event of the song has a patch, [tick] throws
    no exception, whatever the buffer, the clock and the voices are, and the
    player it returns satisfies the same conditions, so neither does any
    later [tick].  (Exceptions of the allocator are outside the model.) *)
Theorem tick_never_throws (p : player) (audio : list F32) :
  int_indexed audio -> sixteen p -> programs_defined p ->
  no_throw (tick powf p audio) /\
  forall p' audio', tick powf p audio = Ok (p', audio') ->
                    sixteen p' /\ programs_defined p'.
Proof.
  intros _ H16 Hdef. unfold tick. destruct (in_stereo p).
  - split; [apply tick_stereo_no_throw; assumption | ].
    intros p' audio'. apply tick_stereo_keeps_safe; assumption.
  - split; [apply tick_mono_no_throw; assumption | ].
    intros p' audio'. apply tick_mono_keeps_safe; assumption.
Qed.

End SafetyTheorems.

(** X25.  [play] sets up playback without exception: after a successful
    [play] of a song whose ProgramChange events all name programs that have
    a patch, the player has its sixteen groups and sixteen unbound program
    slots, and every program it can come to use has a patch. *)
Theorem play_programs_defined (p : player) (next : song)
    (env : option environment) :
  version next = CURRENT_VERSION ->
  (forall k c g, In (k, command_program_change c g) (commands next) ->
                 is_Some (patches next !! g)) ->
  snd (play p next env) = Ok tt /\
  sixteen (fst (play p next env)) /\
  programs_defined (fst (play p next env)).
Proof.
  intros Hv Hs. rewrite (play_accepts p next env Hv). cbn [fst snd].
  split; [reflexivity | ]. split; [split; reflexivity | ].
  split; [ | exact Hs]. cbn [patch_ids current].
  intros i g Hi. apply lookup_replicate in Hi as [Hi _]. discriminate.
Qed.

Lemma song_bound_program_events :
  commands (loaded song_bound_program)
    = [(0, command_version 3); (0, command_rate 48000);
       (0, command_patch_data); (0, command_program_change 0 5);
       (0, command_note_on 0 69 127); (0, command_end_of_track)] /\
  patches (loaded song_bound_program) !! 5 = Some example_patch /\
  current (started song_bound_program) = loaded song_bound_program /\
  patch_ids (started song_bound_program) = replicate 16 None /\
  length (channels (started song_bound_program)) = 16%nat.
Proof.
  split; [vm_compute; reflexivity | ].
  split; [vm_compute; reflexivity | ].
  split; [vm_compute; reflexivity | ].
  split; vm_compute; reflexivity.
Qed.

Lemma song_bound_program_defined (k c g : Z) :
  In (k, command_program_change c g) (commands (loaded song_bound_program)) ->
  is_Some (patches (loaded song_bound_program) !! g).
Proof.
  destruct song_bound_program_events as (Hc & Hp & _).
  rewrite Hc. cbn [In]. intros H.
  assert (g = 5) as -> by intuition congruence.
  rewrite Hp. eexists. reflexivity.
Qed.

Lemma tick_never_throws_witness :
  sixteen (started song_bound_program) /\
  programs_defined (started song_bound_program) /\
  no_throw (tick powf_octaves (started song_bound_program)
                 [f32_zero; f32_zero; f32_zero; f32_zero]).
Proof.
  destruct song_bound_program_events as (_ & _ & Hcur & Hids & Hlen).
  assert (H16 : sixteen (started song_bound_program))
    by (split; [exact Hlen | rewrite Hids; reflexivity]).
  assert (Hdef : programs_defined (started song_bound_program)).
  { unfold programs_defined. rewrite Hids, Hcur. split.
    - intros i g Hi. apply lookup_replicate in Hi as [Hi _]. discriminate.
    - apply song_bound_program_defined. }
  split; [exact H16 | split; [exact Hdef | ]].
  exact (proj1 (tick_never_throws powf_octaves (started song_bound_program)
                  [f32_zero; f32_zero; f32_zero; f32_zero]
                  ltac:(unfold int_indexed; cbn; lia) H16 Hdef)).
Defined.

Lemma play_programs_defined_witness :
  version (loaded song_bound_program) = CURRENT_VERSION /\
  programs_defined
    (fst (play example_player (loaded song_bound_program) None)).
Proof.
  assert (Hv : version (loaded song_bound_program) = CURRENT_VERSION)
    by (vm_compute; reflexivity).
  split; [exact Hv | ].
  exact (proj2 (proj2 (play_programs_defined example_player
                         (loaded song_bound_program) None Hv
                         song_bound_program_defined))).
Defined.

(** ** The end of the song *)

Section LoopTheorems.

Variable powf : F32 -> F32 -> F32.


End LoopTheorems.


(** ** Version and rate *)

(** X27.  The records of the song version and of the tick rate decode to
    their values, and the last one wins: after an accepted stream, a Version
    record sets [version] to its two bytes (least significant first) and a
    Rate record sets [ticks_per_second] to its four bytes, whatever value
    the song had before; each indexes its event at tick 0. *)
Theorem load_version_and_rate (pre : list Z) (s : song) (v rate : Z) :
  int_indexed (pre ++ rate_record rate) ->
  load pre = Ok s -> 0 <= v < 2 ^ 16 -> 0 <= rate < 2 ^ 32 ->
  load (pre ++ version_record v)
    = Ok (set_commands (set_version s v)
            (emplace 0 (command_version v) (commands s))) /\
  load (pre ++ rate_record rate)
    = Ok (set_commands (set_ticks_per_second s rate)
            (emplace 0 (command_rate rate) (commands s))).
Proof.
  intros _ H Hv Hr. rewrite !(load_app_loop pre _ s H).
  pose proof (u16_bytes_spec v Hv) as Ev.
  pose proof (u32_bytes_spec rate Hr) as [_ Er].
  pose proof (load_records_meta_bytes s (v mod 256) ((v / 256) mod 256) 0 0)
    as [Hver _].
  pose proof (load_records_meta_bytes s (rate mod 256) ((rate / 256) mod 256)
                ((rate / 65536) mod 256) ((rate / 16777216) mod 256))
    as [_ Hrate].
  rewrite Ev in Hver. rewrite Er in Hrate.
  split; [exact Hver | exact Hrate].
Qed.

Lemma load_version_and_rate_witness :
  load axsd_header = Ok song_header /\ 0 <= 2 < 2 ^ 16 /\
  0 <= 44100 < 2 ^ 32 /\
  version song_header = 3 /\ ticks_per_second song_header = 48000 /\
  exists s1 s2,
    load (axsd_header ++ version_record 2) = Ok s1 /\ version s1 = 2 /\
    load (axsd_header ++ rate_record 44100) = Ok s2 /\
    ticks_per_second s2 = 44100.
Proof.
  assert (H : load axsd_header = Ok song_header) by (vm_compute; reflexivity).
  assert (Hv : 0 <= 2 < 2 ^ 16) by lia.
  assert (Hr : 0 <= 44100 < 2 ^ 32) by lia.
  split; [exact H | split; [exact Hv | split; [exact Hr | ]]].
  split; [reflexivity | split; [reflexivity | ]].
  destruct (load_version_and_rate axsd_header song_header 2 44100
              ltac:(unfold int_indexed; cbn; lia) H Hv Hr) as [H1 H2].
  do 2 eexists. split; [exact H1 | ]. split; [reflexivity | ].
  split; [exact H2 | reflexivity].
Defined.
